(** * The foreign-array bridge of [equistore/data.py]

    A shallow embedding of the Python module that exposes numpy arrays and
    torch tensors to the native core through the [eqs_array_t] callbacks,
    followed by the properties of these callbacks.

    The host arrays are modelled as strided views over data buffers kept in
    a store, because the callbacks mutate buffers that several views may
    share.  Array elements are integers and the element type is a tag: the
    callbacks only move values, and the one computation on them, the
    conversion numpy applies when it assigns between arrays of different
    element types, is a parameter.  The resource limits of the libraries
    (memory, the maximal rank of an array) and the reclaiming of
    unreachable objects are left out. *)

From stdpp Require Import base numbers list strings.

Open Scope nat_scope.

(** ** Host arrays: numpy's [ndarray] and torch's [Tensor] *)

Inductive Device := Cpu | Cuda (index : nat).
Inductive DType := Float64 | Float32 | Int64 | Int32.

(** The library an array belongs to. A tensor lives on a device; an
    [ndarray] is always in host memory. *)
Inductive Backend := Numpy | Torch (dev : Device).

#[global] Instance Device_eq_dec : EqDecision Device.
Proof. solve_decision. Defined.
#[global] Instance Backend_eq_dec : EqDecision Backend.
Proof. solve_decision. Defined.
#[global] Instance DType_eq_dec : EqDecision DType.
Proof. solve_decision. Defined.

(** An array object is immutable metadata over a mutable buffer: [data]
    names the buffer in the store, [offset] and [strides] (counted in
    elements) place the element of index [ix] at
    [offset + sum (ix_k * strides_k)]. *)
Record ndarray := {
  backend : Backend;
  dtype : DType;
  data : nat;
  offset : nat;
  shape : list nat;
  strides : list nat;
}.

#[global] Instance ndarray_eq_dec : EqDecision ndarray.
Proof. solve_decision. Defined.

(** What the module can be handed: one of the two known array kinds, or any
    other Python object (which may or may not have a [shape] attribute). *)
Inductive PyObject :=
| Array (a : ndarray)
| Other (has_shape : bool).

(** The Python exceptions the callbacks can raise.  [SegFault] stands for
    the dereference of a pointer that names no wrapper, which the source
    leaves undefined. *)
Inductive exn :=
| ValueError | IndexError | TypeError | AttributeError
| RuntimeError | UnboundLocalError | SegFault.

Inductive res (A : Type) :=
| Ok (a : A)
| Raise (e : exn).
Arguments Ok {A} a.
Arguments Raise {A} e.

Definition is_Ok {A} (r : res A) : bool :=
  match r with Ok _ => true | Raise _ => false end.

(** *** Shapes, indices and cells *)

Definition list_prod (sh : list nat) : nat := foldr Nat.mul 1 sh.

(** All indices of an array of shape [sh], in row-major order. *)
Fixpoint indices (sh : list nat) : list (list nat) :=
  match sh with
  | [] => [[]]
  | d :: sh' => i ← seq 0 d; (i ::.) <$> indices sh'
  end.

Fixpoint dot (ix st : list nat) : nat :=
  match ix, st with
  | i :: ix', s :: st' => i * s + dot ix' st'
  | _, _ => 0
  end.

(** Row-major ("C") strides of a shape. *)
Fixpoint c_strides (sh : list nat) : list nat :=
  match sh with
  | [] => []
  | _ :: sh' => list_prod sh' :: c_strides sh'
  end.

Definition device (a : ndarray) : Device :=
  match backend a with Numpy => Cpu | Torch dev => dev end.

Definition ndim (a : ndarray) : nat := length (shape a).
Definition array_size (a : ndarray) : nat := list_prod (shape a).

Definition cell (a : ndarray) (ix : list nat) : nat :=
  offset a + dot ix (strides a).

(** The buffer cells of a view, listed in row-major order of the indices. *)
Definition cells (a : ndarray) : list nat := cell a <$> indices (shape a).

Definition is_c_contiguous (a : ndarray) : bool :=
  bool_decide (strides a = c_strides (shape a)).

(** Exchange of the entries at positions [i] and [j]. *)
Definition swap {A} (i j : nat) (l : list A) : list A :=
  match l !! i, l !! j with
  | Some x, Some y => <[i := y]> (<[j := x]> l)
  | _, _ => l
  end.

(** The error a backend reports for an impossible shape. *)
Definition shape_error (b : Backend) : exn :=
  match b with Numpy => ValueError | Torch _ => RuntimeError end.

(** The error a backend reports for an axis outside the rank: numpy's
    [AxisError] is a [ValueError] (and an [IndexError]). *)
Definition axis_error (b : Backend) : exn :=
  match b with Numpy => ValueError | Torch _ => IndexError end.

(** ** The process state *)

(** [ArrayWrapper]: the Python object behind an [eqs_array_t].  [array] is
    [None] once [destroy] ran; [_shape] is the [ctypes] copy of the shape
    handed to the core; [array_origin] is the value captured by the
    [eqs_array_origin] closure. *)
Record ArrayWrapper := {
  array : option ndarray;
  _shape : list nat;
  _children : list nat;
  array_origin : nat;
}.

(** Data buffers and wrappers live in append-only stores and are addressed
    by position; the two origin globals and the flag [HAS_TORCH] are the
    module-level variables of data.py; [registered_origins] is the table
    of the native core. *)
Record State := {
  buffers : list (list Z);
  objects : list ArrayWrapper;
  HAS_TORCH : bool;
  _NUMPY_STORAGE_ORIGIN : option nat;
  _TORCH_STORAGE_ORIGIN : option nat;
  registered_origins : list string;
}.

Definition set_buffers (f : list (list Z) → list (list Z)) (st : State) : State :=
  {| buffers := f (buffers st); objects := objects st;
     HAS_TORCH := HAS_TORCH st;
     _NUMPY_STORAGE_ORIGIN := _NUMPY_STORAGE_ORIGIN st;
     _TORCH_STORAGE_ORIGIN := _TORCH_STORAGE_ORIGIN st;
     registered_origins := registered_origins st |}.

Definition set_objects (f : list ArrayWrapper → list ArrayWrapper) (st : State) : State :=
  {| buffers := buffers st; objects := f (objects st);
     HAS_TORCH := HAS_TORCH st;
     _NUMPY_STORAGE_ORIGIN := _NUMPY_STORAGE_ORIGIN st;
     _TORCH_STORAGE_ORIGIN := _TORCH_STORAGE_ORIGIN st;
     registered_origins := registered_origins st |}.

(** Computations that read and write the state and may raise; a raised
    exception keeps the state reached so far, as in Python.  The decorator
    [catch_exceptions] of the source (defined in utils.py) hands a raised
    exception to the C caller as an error status: [Raise e] stands for that
    outcome of a callback. *)
Definition M (A : Type) : Type := State → res A * State.

#[global] Instance M_ret : MRet M := λ A a st, (Ok a, st).
#[global] Instance M_bind : MBind M := λ A B k m st,
  match m st with
  | (Ok a, st') => k a st'
  | (Raise e, st') => (Raise e, st')
  end.

Definition raise {A} (e : exn) : M A := λ st, (Raise e, st).
Definition get_state : M State := λ st, (Ok st, st).
Definition modify (f : State → State) : M unit := λ st, (Ok tt, f st).
Definition lift_res {A} (r : res A) : M A := λ st, (r, st).

(** *** Reading and writing buffers *)

Definition buffer (st : State) (b : nat) : list Z := default [] (buffers st !! b).

Definition read (st : State) (b c : nat) : Z := default 0%Z (buffer st b !! c).

(** The element of [a] at index [ix]. *)
Definition item (st : State) (a : ndarray) (ix : list nat) : Z :=
  read st (data a) (cell a ix).

(** The elements of [a] in row-major order: [a.ravel()]. *)
Definition ravel (st : State) (a : ndarray) : list Z :=
  read st (data a) <$> cells a.

(** Stores, one after the other: a later store to a cell wins. *)
Definition write_all (ws : list (nat * Z)) (buf : list Z) : list Z :=
  foldl (λ b w, <[w.1 := w.2]> b) buf ws.

Definition alloc (buf : list Z) : M nat := λ st,
  (Ok (length (buffers st)), set_buffers (λ bs, bs ++ [buf]) st).

Definition _object_from_ptr (ptr : nat) : M ArrayWrapper := λ st,
  match objects st !! ptr with
  | Some w => (Ok w, st)
  | None => (Raise SegFault, st)
  end.

Definition new_object (w : ArrayWrapper) : M nat := λ st,
  (Ok (length (objects st)), set_objects (λ os, os ++ [w]) st).

Definition update_object (ptr : nat) (f : ArrayWrapper → ArrayWrapper) : M unit :=
  modify (set_objects (alter f ptr)).

Definition set_array (v : option ndarray) (w : ArrayWrapper) : ArrayWrapper :=
  {| array := v; _shape := _shape w; _children := _children w;
     array_origin := array_origin w |}.

Definition set_shape (s : list nat) (w : ArrayWrapper) : ArrayWrapper :=
  {| array := array w; _shape := s; _children := _children w;
     array_origin := array_origin w |}.

Definition add_child (c : nat) (w : ArrayWrapper) : ArrayWrapper :=
  {| array := array w; _shape := _shape w; _children := _children w ++ [c];
     array_origin := array_origin w |}.

(** ** The array libraries *)

Definition with_layout (a : ndarray) (b off : nat) (sh st : list nat) : ndarray :=
  {| backend := backend a; dtype := dtype a;
     data := b; offset := off; shape := sh; strides := st |}.

(** [np.zeros(shape, dtype=dtype)] and
    [torch.zeros(shape, dtype=dtype, device=device)]: a fresh buffer of
    zeros in row-major layout. *)
Definition zeros (bk : Backend) (sh : list nat) (dt : DType) : M ndarray :=
  b ← alloc (replicate (list_prod sh) 0%Z);
  mret {| backend := bk; dtype := dt;
          data := b; offset := 0; shape := sh; strides := c_strides sh |}.

Definition np_zeros (sh : list nat) (dt : DType) : M ndarray := zeros Numpy sh dt.
Definition torch_zeros (sh : list nat) (dt : DType) (dev : Device) : M ndarray :=
  zeros (Torch dev) sh dt.

(** [ndarray.copy()]: the elements, in row-major order, in a fresh buffer. *)
Definition ndarray_copy (a : ndarray) : M ndarray :=
  st ← get_state;
  b ← alloc (ravel st a);
  mret (with_layout a b 0 (shape a) (c_strides (shape a))).

(** A view is dense when its cells, taken from offset zero, are exactly
    the positions of a buffer of as many elements. *)
Definition layout (a : ndarray) : list nat :=
  (λ ix, dot ix (strides a)) <$> indices (shape a).

Definition is_dense (a : ndarray) : bool :=
  forallb (λ c, c <? array_size a) (layout a) && bool_decide (NoDup (layout a)).

(** [Tensor.clone()]: a fresh buffer; a dense tensor keeps its strides,
    any other tensor is stored in row-major order. *)
Definition Tensor_clone (a : ndarray) : M ndarray :=
  st ← get_state;
  if is_dense a then
    b ← alloc (write_all (zip (layout a) (ravel st a)) (replicate (array_size a) 0%Z));
    mret (with_layout a b 0 (shape a) (strides a))
  else
    b ← alloc (ravel st a);
    mret (with_layout a b 0 (shape a) (c_strides (shape a))).

(** [a.swapaxes(axis_1, axis_2)]: always a view, with the two entries of
    the shape and of the strides exchanged. The axes arrive as unsigned
    integers, so there is no negative axis to normalise. *)
Definition ndarray_swapaxes (a : ndarray) (axis_1 axis_2 : nat) : M ndarray :=
  if bool_decide (axis_1 < ndim a ∧ axis_2 < ndim a) then
    mret (with_layout a (data a) (offset a)
            (swap axis_1 axis_2 (shape a)) (swap axis_1 axis_2 (strides a)))
  else raise (axis_error (backend a)).

Section Reshape.
(** Both libraries reshape without copying whenever they find strides
    for the new shape over the same buffer, and copy otherwise. For a
    row-major view such strides always exist; for any other view the
    search is the library's own, and is a parameter here. *)
Variable reshape_view : list nat → list nat → list nat → option (list nat).

(** [a.reshape(shape)]: the entries of [shape] arrive as unsigned
    integers, so no entry is the placeholder [-1]. *)
Definition ndarray_reshape (a : ndarray) (sh : list nat) : M ndarray :=
  if bool_decide (list_prod sh = array_size a) then
    if is_c_contiguous a then
      mret (with_layout a (data a) (offset a) sh (c_strides sh))
    else
      match reshape_view (shape a) (strides a) sh with
      | Some st' => mret (with_layout a (data a) (offset a) sh st')
      | None =>
          st ← get_state;
          b ← alloc (ravel st a);
          mret (with_layout a b 0 sh (c_strides sh))
      end
  else raise (shape_error (backend a)).
End Reshape.

(** *** Indexing by a list of rows *)

(** The temporary array an indexing expression evaluates to: it owns its
    elements, listed in row-major order. *)
Record value := {
  v_backend : Backend;
  v_dtype : DType;
  v_shape : list nat;
  v_data : list Z;
}.

(** A row of a sample is a [uintptr_t], an unsigned integer of 64 bits. *)
Definition uintptr (r : Z) : Z := (r mod 2 ^ 64)%Z.

(** An index list becomes an array of signed 64-bit integers, in which a
    row from [2^63] on is negative; an index [-k] stands for the row
    [n - k] of an axis of [n] entries. *)
Definition as_intp (r : Z) : Z :=
  (if uintptr r <? 2 ^ 63 then uintptr r else uintptr r - 2 ^ 64)%Z.

Definition row_index (n : nat) (r : Z) : option nat :=
  let i := as_intp r in
  if bool_decide (0 ≤ i < Z.of_nat n)%Z then Some (Z.to_nat i)
  else if bool_decide (- Z.of_nat n ≤ i < 0)%Z then Some (Z.to_nat (Z.of_nat n + i))
  else None.

(** The rows of an axis of [n] entries that an index list stands for.
    numpy reads the list as above.  torch makes a tensor of signed 64-bit
    integers of the list and refuses an entry that does not fit, so that
    it never sees a negative row.  The rows are checked whatever the other
    axes are; releases of numpy that only warn about a row outside the
    axis when the indexed part has no element are not followed, and the
    properties that rest on this check are stated for an indexed part
    that has elements. *)
Definition index_rows (bk : Backend) (n : nat) (rows : list Z) : res (list nat) :=
  match bk with
  | Numpy =>
      match mapM (row_index n) rows with
      | Some rs => Ok rs
      | None => Raise IndexError
      end
  | Torch _ =>
      if forallb (λ r, uintptr r <? 2 ^ 63)%Z rows then
        match mapM (row_index n) rows with
        | Some rs => Ok rs
        | None => Raise IndexError
        end
      else Raise RuntimeError
  end.

(** The rows [rs] of [a], copied out. *)
Definition take (st : State) (a : ndarray) (rs rest : list nat) : value :=
  {| v_backend := backend a; v_dtype := dtype a;
     v_shape := length rs :: rest;
     v_data := r ← rs; ix ← indices rest; [item st a (r :: ix)] |}.

(** [a[rows, ..., :]]: the listed rows, copied out. Indexing by a list and
    a slice needs two axes. *)
Definition getitem (st : State) (a : ndarray) (rows : list Z) : res value :=
  match shape a with
  | n :: (_ :: _) as rest =>
      match index_rows (backend a) n rows with
      | Ok rs => Ok (take st a rs rest)
      | Raise e => Raise e
      end
  | _ => Raise IndexError
  end.

(** Broadcasting of a value of shape [vs] to a target of shape [ts]:
    leading axes in excess are dropped when that keeps the element count,
    missing leading axes count as 1, and every remaining axis must have the
    target's extent or extent 1.  The result is the value's shape aligned
    with [ts]. *)
Definition broadcast (vs ts : list nat) : option (list nat) :=
  let vs' := drop (length vs - length ts) vs in
  let al := replicate (length ts - length vs') 1 ++ vs' in
  if bool_decide (list_prod vs' = list_prod vs)
     && forallb (λ p, (p.1 =? 1) || (p.1 =? p.2)) (zip al ts)
  then Some al else None.

(** The index read in a value of aligned shape [al] for the target index
    [ix]: an axis of extent 1 is repeated. *)
Definition source_index (al ix : list nat) : list nat :=
  zip_with (λ d i, if d =? 1 then 0 else i) al ix.

Definition value_item (v : value) (al ix : list nat) : Z :=
  default 0%Z (v_data v !! dot (source_index al ix) (c_strides al)).

(** The stores that write row [k] of the value into row [r] of [a], over
    the middle axes [mid] and the last-axis entries [lo, lo + width). *)
Definition row_stores (a : ndarray) (mid : list nat) (lo width : nat)
    (v : value) (al : list nat) (k r : nat) : list (nat * Z) :=
  m ← indices mid; j ← seq 0 width;
  [(cell a (r :: m ++ [lo + j]), value_item v al (k :: m ++ [j]))].

Definition stores (a : ndarray) (rows mid : list nat) (lo width : nat)
    (v : value) (al : list nat) : list (nat * Z) :=
  k ← seq 0 (length rows);
  row_stores a mid lo width v al k (default 0 (rows !! k)).

(** What a library accepts on the right of an assignment: numpy takes an
    array of any element type and a tensor held in host memory (through
    its [__array__] method); torch refuses an [ndarray], a tensor of
    another device and a tensor of another element type.  Tensors that
    record gradients, which numpy refuses, are left out. *)
Definition accepts (target : Backend) (dt : DType) (source : Backend) (ds : DType)
  : res unit :=
  match target, source with
  | Numpy, Numpy => Ok tt
  | Numpy, Torch dev => if bool_decide (dev = Cpu) then Ok tt else Raise TypeError
  | Torch _, Numpy => Raise TypeError
  | Torch dev, Torch dev' =>
      if bool_decide (dev' = dev) then
        if bool_decide (ds = dt) then Ok tt else Raise RuntimeError
      else Raise RuntimeError
  end.

Section Elements.
(** An assignment to a numpy array converts the elements of the value to
    the element type of the array, as [astype] with unsafe casting does.
    What the conversion makes of an element is numpy's own, and is a
    parameter from here on; elements of the same type are stored as they
    are. *)
Variable astype : DType → DType → Z → Z.

Definition convert (ds dt : DType) (x : Z) : Z :=
  if bool_decide (ds = dt) then x else astype ds dt x.

(** The value as the array [a] stores it. *)
Definition coerce (a : ndarray) (v : value) : res value :=
  match accepts (backend a) (dtype a) (v_backend v) (v_dtype v) with
  | Ok _ =>
      Ok {| v_backend := v_backend v; v_dtype := dtype a;
            v_shape := v_shape v;
            v_data := convert (v_dtype v) (dtype a) <$> v_data v |}
  | Raise e => Raise e
  end.

(** [a[rows, ..., start:stop] = v].  The slice is clipped to the last
    axis.  The value is converted and matched against the shape of the
    indexed part before the rows are checked against the first axis; all
    checks come before the first store, and the stores follow the order of
    [rows]. *)
Definition setitem (a : ndarray) (rows : list Z) (start stop : nat) (v : value) : M unit :=
  match shape a with
  | n :: (_ :: _) as rest =>
      let mid := removelast rest in
      let len := List.last rest 0 in
      let lo := start `min` len in
      let width := (stop `min` len) - lo in
      v' ← lift_res (coerce a v);
      match broadcast (v_shape v') (length rows :: mid ++ [width]) with
      | Some al =>
          rs ← lift_res (index_rows (backend a) n rows);
          modify (set_buffers
            (alter (write_all (stores a rs mid lo width v' al)) (data a)))
      | None => raise (shape_error (backend a))
      end
  | _ => raise IndexError
  end.

(** ** Origins *)

(** The position of a name in the table of registered names. *)
Fixpoint origin_index (name : string) (reg : list string) : option nat :=
  match reg with
  | [] => None
  | n :: reg' =>
      if bool_decide (n = name) then Some 0 else S <$> origin_index name reg'
  end.

(** Modelled from the spec: [lib.eqs_register_data_origin], the origin
    registry of the native core, is not part of the Python sources. The
    registry is an append-only table of names; given a name it returns the
    name's origin id, its position in the table, registering the name on
    the first call only. *)
Definition eqs_register_data_origin (name : string) (reg : list string)
  : nat * list string :=
  match origin_index name reg with
  | Some o => (o, reg)
  | None => (length reg, reg ++ [name])
  end.

Definition __name__ : string := "equistore.data".

Definition set_numpy_origin (o : nat) (reg : list string) (st : State) : State :=
  {| buffers := buffers st; objects := objects st;
     HAS_TORCH := HAS_TORCH st;
     _NUMPY_STORAGE_ORIGIN := Some o;
     _TORCH_STORAGE_ORIGIN := _TORCH_STORAGE_ORIGIN st;
     registered_origins := reg |}.

Definition set_torch_origin (o : nat) (reg : list string) (st : State) : State :=
  {| buffers := buffers st; objects := objects st;
     HAS_TORCH := HAS_TORCH st;
     _NUMPY_STORAGE_ORIGIN := _NUMPY_STORAGE_ORIGIN st;
     _TORCH_STORAGE_ORIGIN := Some o;
     registered_origins := reg |}.

Definition _numpy_origin : M nat := λ st,
  match _NUMPY_STORAGE_ORIGIN st with
  | None =>
      let origin_name := __name__ +:+ ".numpy" in
      let r := eqs_register_data_origin origin_name (registered_origins st) in
      (Ok r.1, set_numpy_origin r.1 r.2 st)
  | Some o => (Ok o, st)
  end.

Definition _torch_origin : M nat := λ st,
  match _TORCH_STORAGE_ORIGIN st with
  | None =>
      let origin_name := __name__ +:+ ".torch" in
      let r := eqs_register_data_origin origin_name (registered_origins st) in
      (Ok r.1, set_torch_origin r.1 r.2 st)
  | Some o => (Ok o, st)
  end.

(** ** The wrapper and its callbacks *)

Definition _is_numpy_array (a : ndarray) : bool :=
  bool_decide (backend a = Numpy).

Definition _is_torch_array (st : State) (a : ndarray) : bool :=
  if negb (HAS_TORCH st) then false
  else match backend a with Torch _ => true | Numpy => false end.

(** [ArrayWrapper.__init__]: the new wrapper is returned by its address,
    which is what [eqs_array.ptr] holds. *)
Definition ArrayWrapper_init (obj : PyObject) : M nat :=
  match obj with
  | Array a =>
      st ← get_state;
      o ← (if _is_numpy_array a then _numpy_origin
           else if _is_torch_array st a then _torch_origin
           else raise ValueError);
      new_object {| array := Some a; _shape := shape a; _children := [];
                    array_origin := o |}
  | Other true => raise ValueError
  | Other false => raise AttributeError
  end.

(** [eqs_array_origin], the closure over [array_origin]. *)
Definition eqs_array_origin (this : nat) : M nat :=
  storage ← _object_from_ptr this;
  mret (array_origin storage).

(** A method call or attribute access on [storage.array], which fails on
    [None]. *)
Definition array_attr (storage : ArrayWrapper) : M ndarray :=
  match array storage with
  | Some a => mret a
  | None => raise AttributeError
  end.

Definition _eqs_array_shape (this : nat) : M (list nat * nat) :=
  storage ← _object_from_ptr this;
  mret (_shape storage, length (_shape storage)).

(** The samples of [move_samples_from]: [eqs_sample_mapping_t], a pair of
    [uintptr_t] fields. *)
Record eqs_sample_mapping_t := { input : Z; output : Z }.

Section Callbacks.
Variable reshape_view : list nat → list nat → list nat → option (list nat).

(** The pair [shape_ptr], [shape_count] is the list of the
    [shape_count] entries that [shape_ptr] points to. *)
Definition _eqs_array_reshape (this : nat) (shape_ptr : list nat) : M unit :=
  storage ← _object_from_ptr this;
  let shape := shape_ptr in
  a ← array_attr storage;
  a' ← ndarray_reshape reshape_view a shape;
  update_object this (set_array (Some a'));;
  update_object this (set_shape shape).

Definition _eqs_array_swap_axes (this axis_1 axis_2 : nat) : M unit :=
  storage ← _object_from_ptr this;
  a ← array_attr storage;
  a' ← ndarray_swapaxes a axis_1 axis_2;
  update_object this (set_array (Some a'));;
  let shape := shape a' in
  update_object this (set_shape shape).

Definition _eqs_array_create (this : nat) (shape_ptr : list nat) : M nat :=
  storage ← _object_from_ptr this;
  let shape := shape_ptr in
  a ← array_attr storage;
  let dtype := dtype a in
  st ← get_state;
  array ← (if _is_numpy_array a then np_zeros shape dtype
           else if _is_torch_array st a then torch_zeros shape dtype (device a)
           else raise UnboundLocalError);
  wrapper ← ArrayWrapper_init (Array array);
  update_object this (add_child wrapper);;
  mret wrapper.

Definition _eqs_array_copy (this : nat) : M nat :=
  storage ← _object_from_ptr this;
  st ← get_state;
  array ← match array storage with
          | Some a =>
              if _is_numpy_array a then ndarray_copy a
              else if _is_torch_array st a then Tensor_clone a
              else raise UnboundLocalError
          | None => raise UnboundLocalError
          end;
  wrapper ← ArrayWrapper_init (Array array);
  mret wrapper.

Definition _eqs_array_destroy (this : nat) : M unit :=
  storage ← _object_from_ptr this;
  update_object this (set_array None).

Definition _eqs_array_move_samples_from (this input_ptr : nat)
    (samples_ptr : list eqs_sample_mapping_t)
    (property_start property_end : nat) : M unit :=
  input_w ← _object_from_ptr input_ptr;
  output_w ← _object_from_ptr this;
  let input_samples := input <$> samples_ptr in
  let output_samples := output <$> samples_ptr in
  st ← get_state;
  v ← match array input_w with
      | Some a => lift_res (getitem st a input_samples)
      | None => raise TypeError
      end;
  match array output_w with
  | Some a => setitem a output_samples property_start property_end v
  | None => raise TypeError
  end.
End Callbacks.

(** ** Handing arrays back to Python *)

(** [eqs_array_t], as far as the functions below use it: the pointer and
    the [origin] callback, which is called with the pointer. *)
Record eqs_array_t := { ptr : nat; origin : nat → M nat }.

(** [wrapper.eqs_array] for the wrapper at address [p], as
    [ArrayWrapper.__init__] sets it up. An array made by other code has a
    pointer and an [origin] callback of its own. *)
Definition eqs_array (p : nat) : eqs_array_t :=
  {| ptr := p; origin := eqs_array_origin |}.

(** [data_origin]: the status the callback returns is not looked at. When
    the callback fails, [origin] still holds the zero that
    [eqs_data_origin_t()] starts with, and this is the value returned. *)
Definition data_origin (eqs_array : eqs_array_t) : M nat := λ st,
  match origin eqs_array (ptr eqs_array) st with
  | (Ok o, st1) => (Ok o, st1)
  | (Raise _, st1) => (Ok 0, st1)
  end.

(** Modelled from the spec: [lib.eqs_get_data_origin], the reverse lookup
    in the registry of the native core, is not part of the Python sources;
    it gives the name registered under an origin id and fails for an id
    that was never registered. *)
Definition eqs_get_data_origin (o : nat) (reg : list string) : option string :=
  reg !! o.

(** [data_origin_name]: the name comes back through a buffer that
    [_call_with_growing_buffer] (utils.py) enlarges until the name fits;
    [None] stands for the error of the core. *)
Definition data_origin_name (o : nat) (st : State) : option string :=
  eqs_get_data_origin o (registered_origins st).

(** How [eqs_array_to_python_object] ends: with an object, with a Python
    exception of its own, or with the error of the core that the lookup
    of the name for the message runs into. *)
Inductive outcome (A : Type) :=
| Returned (a : A)
| Raised (e : exn)
| CoreError.
#[global] Arguments Returned {A} a.
#[global] Arguments Raised {A} e.
#[global] Arguments CoreError {A}.

Definition eqs_array_to_python_object (data : eqs_array_t)
  : State → outcome ArrayWrapper * State := λ st,
  match data_origin data st with
  | (Ok o, st1) =>
      if bool_decide (Some o ∈ [_NUMPY_STORAGE_ORIGIN st1; _TORCH_STORAGE_ORIGIN st1])
      then
        match _object_from_ptr (ptr data) st1 with
        | (Ok w, st2) => (Returned w, st2)
        | (Raise e, st2) => (Raised e, st2)
        end
      else
        match data_origin_name o st1 with
        | Some _ => (Raised ValueError, st1)
        | None => (CoreError, st1)
        end
  | (Raise e, st1) => (Raised e, st1)
  end.

(** ** Calls into the module *)

(** What the host and the core can ask of the module: wrap a host object,
    or invoke a callback of a wrapper. *)
Inductive call :=
| Wrap (obj : PyObject)
| CallOrigin (this : nat)
| CallShape (this : nat)
| CallReshape (this : nat) (shape_ptr : list nat)
| CallSwapAxes (this axis_1 axis_2 : nat)
| CallCreate (this : nat) (shape_ptr : list nat)
| CallCopy (this : nat)
| CallDestroy (this : nat)
| CallMoveSamplesFrom (this input_ptr : nat)
    (samples_ptr : list eqs_sample_mapping_t) (property_start property_end : nat).

Definition ignore {A} (m : M A) : M unit := _ ← m; mret tt.

Section Run.
Variable reshape_view : list nat → list nat → list nat → option (list nat).

Definition exec (c : call) : M unit :=
  match c with
  | Wrap obj => ignore (ArrayWrapper_init obj)
  | CallOrigin this => ignore (eqs_array_origin this)
  | CallShape this => ignore (_eqs_array_shape this)
  | CallReshape this sh => _eqs_array_reshape reshape_view this sh
  | CallSwapAxes this i j => _eqs_array_swap_axes this i j
  | CallCreate this sh => ignore (_eqs_array_create this sh)
  | CallCopy this => ignore (_eqs_array_copy this)
  | CallDestroy this => _eqs_array_destroy this
  | CallMoveSamplesFrom this inp samples p0 p1 =>
      _eqs_array_move_samples_from this inp samples p0 p1
  end.

(** The state after a sequence of calls, failed ones included. *)
Definition run (cs : list call) (st : State) : State :=
  foldl (λ st c, (exec c st).2) st cs.
End Run.

(** The two ways the core changes an array in place. *)
Inductive mutation :=
| Reshape (shape_ptr : list nat)
| MoveSamplesFrom (input_ptr : nat) (samples_ptr : list eqs_sample_mapping_t)
    (property_start property_end : nat).

Definition mutate (this : nat) (m : mutation) : call :=
  match m with
  | Reshape sh => CallReshape this sh
  | MoveSamplesFrom inp samples p0 p1 =>
      CallMoveSamplesFrom this inp samples p0 p1
  end.

(** The state of a process that just imported the module. *)
Definition initial (has_torch : bool) : State :=
  {| buffers := []; objects := []; HAS_TORCH := has_torch;
     _NUMPY_STORAGE_ORIGIN := None; _TORCH_STORAGE_ORIGIN := None;
     registered_origins := [] |}.

(** ** Well-formedness *)

(** A view addresses pairwise distinct cells, all inside its buffer. *)
Definition view_ok (st : State) (a : ndarray) : Prop :=
  NoDup (cells a) ∧ Forall (λ c, c < length (buffer st (data a))) (cells a).

(** The cached shape of every live wrapper is the shape of its array. *)
Definition shape_inv (st : State) : Prop :=
  ∀ p w a, objects st !! p = Some w → array w = Some a → _shape w = shape a.

Definition cached_origin (st : State) (bk : Backend) : option nat :=
  match bk with
  | Numpy => _NUMPY_STORAGE_ORIGIN st
  | Torch _ => _TORCH_STORAGE_ORIGIN st
  end.

(** The origin of every live wrapper is the one cached for its library,
    and tensors are only wrapped when torch is there. *)
Definition origin_inv (st : State) : Prop :=
  ∀ p w a, objects st !! p = Some w → array w = Some a →
    cached_origin st (backend a) = Some (array_origin w)
    ∧ (backend a ≠ Numpy → HAS_TORCH st = true).

Definition origin_name (bk : Backend) : string :=
  match bk with
  | Numpy => __name__ +:+ ".numpy"
  | Torch _ => __name__ +:+ ".torch"
  end.

(** A cached origin is the id the registry holds for the library's name. *)
Definition registry_inv (st : State) : Prop :=
  ∀ bk o, cached_origin st bk = Some o →
    origin_index (origin_name bk) (registered_origins st) = Some o.

(** What the invariants ask of one wrapper. *)
Definition wrapper_ok (st : State) (w : ArrayWrapper) : Prop :=
  ∀ a, array w = Some a →
    _shape w = shape a
    ∧ cached_origin st (backend a) = Some (array_origin w)
    ∧ (backend a ≠ Numpy → HAS_TORCH st = true).

Definition bridge_inv (st : State) : Prop :=
  ∀ p w, objects st !! p = Some w → wrapper_ok st w.

(** The module-level variables of [st'] continue those of [st]: the flag
    is the same and a cached origin stays. *)
Definition extends (st st' : State) : Prop :=
  HAS_TORCH st' = HAS_TORCH st
  ∧ ∀ bk o, cached_origin st bk = Some o → cached_origin st' bk = Some o.

(** A stride search is sound when the strides it finds address the cells
    of the old view, in the same row-major order. *)
Definition view_sound (rv : list nat → list nat → list nat → option (list nat)) : Prop :=
  ∀ sh st sh' st' off, rv sh st sh' = Some st' → list_prod sh' = list_prod sh →
    (λ ix, off + dot ix st') <$> indices sh' = (λ ix, off + dot ix st) <$> indices sh.

(** The search that finds nothing: every view that is not row-major is
    copied. *)
Definition no_view : list nat → list nat → list nat → option (list nat) :=
  λ _ _ _, None.

(** The conversion of the examples: their arrays hold small integers,
    which every element type represents exactly, so that a conversion
    leaves them as they are. *)
Definition small_astype : DType → DType → Z → Z := λ _ _ x, x.

(** The array is of a kind the module handles. *)
Definition known (st : State) (a : ndarray) : bool :=
  _is_numpy_array a || _is_torch_array st a.

(** ** Example states *)

Definition row_major (bk : Backend) (b : nat) (sh : list nat) : ndarray :=
  {| backend := bk; dtype := Int64; data := b; offset := 0; shape := sh;
     strides := c_strides sh |}.

Definition wrapper_of (a : ndarray) (o : nat) : ArrayWrapper :=
  {| array := Some a; _shape := shape a; _children := []; array_origin := o |}.

(** A process in which both libraries were used: numpy has origin 0 and
    torch origin 1. *)
Definition state_of (bufs : list (list Z)) (objs : list ArrayWrapper) : State :=
  {| buffers := bufs; objects := objs; HAS_TORCH := true;
     _NUMPY_STORAGE_ORIGIN := Some 0; _TORCH_STORAGE_ORIGIN := Some 1;
     registered_origins := [__name__ +:+ ".numpy"; __name__ +:+ ".torch"] |}.

(** One wrapped numpy array of shape (2, 3). *)
Definition matrix_state : State :=
  state_of [[1; 2; 3; 4; 5; 6]%Z] [wrapper_of (row_major Numpy 0 [2; 3]) 0].

(** The scenario of the specification: a source of shape (3, 2, width)
    filled with its row index (wrapper 0) and a destination of shape
    (4, 2, 5) filled with zeros (wrapper 1), both numpy arrays; the pairs
    (0, 1) and (2, 3) of source and destination rows. *)
Definition scenario_state (width : nat) : State :=
  state_of [ i ← seq 0 3; replicate (2 * width) (Z.of_nat i);
             replicate 40 0%Z ]
           [ wrapper_of (row_major Numpy 0 [3; 2; width]) 0;
             wrapper_of (row_major Numpy 1 [4; 2; 5]) 0 ].

Definition scenario_pairs : list eqs_sample_mapping_t :=
  [ {| input := 0; output := 1 |}; {| input := 2; output := 3 |} ].

(** A host array [x] of shape (4, 2) (wrapper 0) and its view [x[2:4]]
    (wrapper 1), wrapped separately: the two arrays share a buffer. *)
Definition overlap_view : ndarray :=
  {| backend := Numpy; dtype := Int64; data := 0; offset := 4;
     shape := [2; 2]; strides := [2; 1] |}.

Definition overlap_state : State :=
  state_of [[1; 2; 3; 4; 5; 6; 7; 8]%Z]
           [ wrapper_of (row_major Numpy 0 [4; 2]) 0;
             wrapper_of overlap_view 0 ].

(** A tensor in host memory (wrapper 0) and a numpy array (wrapper 1),
    both of shape (2, 2): arrays of different origins. *)
Definition mixed_state : State :=
  state_of [[1; 2; 3; 4]%Z; [0; 0; 0; 0]%Z]
           [ wrapper_of (row_major (Torch Cpu) 0 [2; 2]) 1;
             wrapper_of (row_major Numpy 1 [2; 2]) 0 ].

(** The same wrappers with other origins: [o] maps old origins to new. *)
Definition set_origin (o : nat → nat) (w : ArrayWrapper) : ArrayWrapper :=
  {| array := array w; _shape := _shape w; _children := _children w;
     array_origin := o (array_origin w) |}.

Definition relabel (o : nat → nat) (st : State) : State :=
  set_objects (fmap (set_origin o)) st.

(** The one call that is not a callback of a wrapper. *)
Definition is_wrap (c : call) : bool :=
  match c with Wrap _ => true | _ => false end.

(** The module-level variables and the registry of the core. *)
Definition globals (st : State) : bool * option nat * option nat * list string :=
  (HAS_TORCH st, _NUMPY_STORAGE_ORIGIN st, _TORCH_STORAGE_ORIGIN st,
   registered_origins st).

(** ** Auxiliary notions of the proofs *)

(** A property of the state that a computation keeps, whether it returns
    or raises. *)
Definition preserves {A} (I : State → Prop) (m : M A) : Prop :=
  ∀ st, I st → I (m st).2.

(** The origin function of a library. *)
Definition origin_of (bk : Backend) : M nat :=
  match bk with Numpy => _numpy_origin | Torch _ => _torch_origin end.

(** The array [create] allocates and the wrapper it builds. *)
Definition created (st : State) (a : ndarray) (sh : list nat) : ndarray :=
  {| backend := backend a; dtype := dtype a; data := length (buffers st);
     offset := 0; shape := sh; strides := c_strides sh |}.

Definition child_of (st1 : State) (c : ndarray) : ArrayWrapper :=
  {| array := Some c; _shape := shape c; _children := [];
     array_origin := default 0 (cached_origin st1 (backend c)) |}.

(** The array [copy] allocates: numpy's [copy()] or torch's [clone()]. *)
Definition copied (st : State) (a : ndarray) : res ndarray * State :=
  if _is_numpy_array a then ndarray_copy a st else Tensor_clone a st.

(** What mutations of the wrapper [p] leave alone: the wrapper [q], whose
    array lies in an existing buffer that the array of [p] does not use. *)
Definition apart (st : State) (p q : nat) (wq : ArrayWrapper) (aq : ndarray)
    (buf : list Z) : Prop :=
  objects st !! q = Some wq
  ∧ buffer st (data aq) = buf
  ∧ data aq < length (buffers st)
  ∧ ∀ wp ap, objects st !! p = Some wp → array wp = Some ap → data ap ≠ data aq.

(** * Properties *)

(** ** Indices and row-major order *)

Lemma elem_of_indices ix sh : ix ∈ indices sh ↔ Forall2 lt ix sh.
Proof.
  revert ix. induction sh as [|d sh IH]; intros ix; simpl.
  - rewrite list_elem_of_singleton. split; [intros ->; constructor | by inversion 1].
  - rewrite list_elem_of_bind. split.
    + intros (i & Hix & Hi). apply list_elem_of_fmap in Hix as (ix' & -> & Hix').
      apply elem_of_seq in Hi. constructor; [lia | by apply IH].
    + inversion 1 as [|i ? ix' ? Hi Hix']; subst. exists i. split.
      * apply list_elem_of_fmap. exists ix'. split; [done | by apply IH].
      * apply elem_of_seq. lia.
Qed.

Lemma length_indices sh : length (indices sh) = list_prod sh.
Proof.
  induction sh as [|d sh IH]; simpl; [done|].
  generalize 0. induction d as [|d IHd]; intros s; simpl; [done|].
  rewrite length_app, length_fmap, IH, IHd. done.
Qed.

Lemma NoDup_indices sh : NoDup (indices sh).
Proof.
  induction sh as [|d sh IH]; simpl; [apply NoDup_singleton|].
  apply NoDup_bind.
  - intros i j ix _ _ Hi Hj.
    apply list_elem_of_fmap in Hi as (? & -> & _).
    apply list_elem_of_fmap in Hj as (? & [= ->] & _). done.
  - intros i _. apply NoDup_fmap; [|done]. by intros ?? [= ->].
  - apply NoDup_seq.
Qed.

Lemma lookup_bind_blocks {A B} (f : A → list B) (l : list A) (b k r : nat) :
  (∀ x, x ∈ l → length (f x) = b) → r < b →
  (l ≫= f) !! (k * b + r) = l !! k ≫= λ x, f x !! r.
Proof.
  revert k. induction l as [|x l IH]; intros k Hlen Hr; [done|].
  assert (length (f x) = b) as Hx by (apply Hlen; left).
  change ((x :: l) ≫= f) with (f x ++ (l ≫= f)).
  destruct k as [|k]; simpl.
  - by rewrite lookup_app_l by lia.
  - rewrite lookup_app_r by lia.
    replace (b + k * b + r - length (f x)) with (k * b + r) by lia.
    apply IH; [|done]. intros y Hy. apply Hlen. by right.
Qed.

Lemma dot_c_strides_lt ix sh :
  Forall2 lt ix sh → dot ix (c_strides sh) < list_prod sh.
Proof.
  induction 1 as [|i d ix sh Hi _ IH]; simpl; [lia|].
  change (foldr Nat.mul 1 sh) with (list_prod sh). nia.
Qed.

Lemma indices_lookup_dot ix sh :
  Forall2 lt ix sh → indices sh !! dot ix (c_strides sh) = Some ix.
Proof.
  induction 1 as [|i d ix sh Hi Hix IH]; [done|].
  cbn [indices c_strides dot].
  rewrite (lookup_bind_blocks _ _ (list_prod sh)).
  - rewrite lookup_seq_lt by done. simpl.
    by rewrite list_lookup_fmap, IH.
  - intros. by rewrite length_fmap, length_indices.
  - by apply dot_c_strides_lt.
Qed.

(** The row-major strides enumerate the positions of a buffer in order. *)
Lemma dot_c_strides_indices sh :
  (λ ix, dot ix (c_strides sh)) <$> indices sh = seq 0 (list_prod sh).
Proof.
  apply list_eq. intros p. rewrite list_lookup_fmap.
  destruct (indices sh !! p) as [ix|] eqn:Hp; simpl.
  - assert (Forall2 lt ix sh) as Hix.
    { apply elem_of_indices, list_elem_of_lookup. eauto. }
    pose proof (indices_lookup_dot _ _ Hix) as Hd.
    rewrite (NoDup_lookup _ _ _ _ (NoDup_indices sh) Hd Hp).
    apply lookup_lt_Some in Hp. rewrite length_indices in Hp.
    by rewrite lookup_seq_lt.
  - apply lookup_ge_None in Hp. rewrite length_indices in Hp.
    symmetry. apply lookup_ge_None. by rewrite length_seq.
Qed.

Lemma cells_c_contiguous a :
  strides a = c_strides (shape a) →
  cells a = seq (offset a) (array_size a).
Proof.
  intros Hs. unfold cells, cell, array_size. rewrite Hs.
  transitivity (Nat.add (offset a) <$> seq 0 (list_prod (shape a))).
  - by rewrite <- dot_c_strides_indices, <- list_fmap_compose.
  - rewrite fmap_add_seq. f_equal. lia.
Qed.

Lemma length_cells a : length (cells a) = array_size a.
Proof. unfold cells. by rewrite length_fmap, length_indices. Qed.

Lemma length_ravel st a : length (ravel st a) = array_size a.
Proof. unfold ravel. by rewrite length_fmap, length_cells. Qed.

(** Distinct indices of a well-formed view name distinct cells. *)
Lemma cell_inj a ix ix' :
  NoDup (cells a) → Forall2 lt ix (shape a) → Forall2 lt ix' (shape a) →
  cell a ix = cell a ix' → ix = ix'.
Proof.
  intros Hnd Hix Hix' Heq.
  apply elem_of_indices, list_elem_of_lookup in Hix as [i Hi].
  apply elem_of_indices, list_elem_of_lookup in Hix' as [i' Hi'].
  assert (cells a !! i = Some (cell a ix)) as H1.
  { unfold cells. by rewrite list_lookup_fmap, Hi. }
  assert (cells a !! i' = Some (cell a ix)) as H2.
  { unfold cells. by rewrite list_lookup_fmap, Hi', Heq. }
  pose proof (NoDup_lookup _ _ _ _ Hnd H1 H2) as ->. congruence.
Qed.

Lemma cell_in_cells a ix : Forall2 lt ix (shape a) → cell a ix ∈ cells a.
Proof.
  intros Hix. apply list_elem_of_fmap. exists ix. split; [done|].
  by apply elem_of_indices.
Qed.

(** ** Stores *)

Lemma length_write_all ws buf : length (write_all ws buf) = length buf.
Proof.
  revert buf. induction ws as [|w ws IH]; intros buf; simpl; [done|].
  unfold write_all in *. simpl. by rewrite IH, length_insert.
Qed.

Lemma write_all_app ws1 ws2 buf :
  write_all (ws1 ++ ws2) buf = write_all ws2 (write_all ws1 buf).
Proof. unfold write_all. by rewrite foldl_app. Qed.

Lemma write_all_lookup_notin ws buf c :
  c ∉ ws.*1 → write_all ws buf !! c = buf !! c.
Proof.
  revert buf. induction ws as [|[c' x] ws IH]; intros buf Hc; [done|].
  rewrite fmap_cons, not_elem_of_cons in Hc. destruct Hc as [Hne Hc].
  change (write_all ((c', x) :: ws) buf) with (write_all ws (<[c' := x]> buf)).
  rewrite IH by done. simpl in Hne. by rewrite list_lookup_insert_ne.
Qed.

Lemma write_all_lookup_NoDup ws buf c x :
  NoDup ws.*1 → (c, x) ∈ ws → c < length buf →
  write_all ws buf !! c = Some x.
Proof.
  revert buf. induction ws as [|[c' x'] ws IH]; intros buf Hnd Hin Hlt.
  { by apply elem_of_nil in Hin. }
  rewrite fmap_cons in Hnd. apply NoDup_cons in Hnd as [Hc' Hnd].
  change (write_all ((c', x') :: ws) buf) with (write_all ws (<[c' := x']> buf)).
  apply elem_of_cons in Hin as [[= <- <-]|Hin].
  - rewrite write_all_lookup_notin by done.
    by apply list_lookup_insert_eq.
  - apply IH; [done..|]. by rewrite length_insert.
Qed.

(** ** Wrappers in the store *)

Lemma alter_restore {A} (f : A → A) (l : list A) p w :
  l !! p = Some w → f w = w → alter f p l = l.
Proof.
  intros Hp Hf. apply list_eq. intros q.
  destruct (decide (p = q)) as [<-|Hne].
  - by rewrite list_lookup_alter_eq, Hp; simpl; rewrite Hf.
  - by rewrite list_lookup_alter_ne.
Qed.

Lemma length_swap {A} i j (l : list A) : length (swap i j l) = length l.
Proof.
  unfold swap. destruct (l !! i), (l !! j); try done.
  by rewrite !length_insert.
Qed.

Lemma swap_swap {A} i j (l : list A) : swap i j (swap i j l) = l.
Proof.
  unfold swap at 2.
  destruct (l !! i) as [x|] eqn:Hi; [|by unfold swap; rewrite Hi].
  destruct (l !! j) as [y|] eqn:Hj; [|by unfold swap; rewrite Hi, Hj].
  pose proof (lookup_lt_Some _ _ _ Hi) as Hli.
  pose proof (lookup_lt_Some _ _ _ Hj) as Hlj.
  unfold swap.
  rewrite list_lookup_insert_eq by (by rewrite length_insert).
  destruct (decide (i = j)) as [->|Hne].
  - rewrite list_lookup_insert_eq by (by rewrite length_insert).
    assert (x = y) as -> by congruence.
    rewrite !list_insert_insert_eq. by apply list_insert_id.
  - rewrite list_lookup_insert_ne, list_lookup_insert_eq by done.
    apply list_eq. intros k.
    destruct (decide (k = i)) as [->|Hki].
    + by rewrite list_lookup_insert_eq by (by rewrite !length_insert).
    + rewrite list_lookup_insert_ne by done.
      destruct (decide (k = j)) as [->|Hkj].
      * by rewrite list_lookup_insert_eq by (by rewrite !length_insert).
      * by rewrite !list_lookup_insert_ne by done.
Qed.

Lemma set_objects_id f st : f (objects st) = objects st → set_objects f st = st.
Proof. intros H. destruct st. unfold set_objects. simpl in *. by rewrite H. Qed.

Lemma set_objects_ext f g st :
  f (objects st) = g (objects st) → set_objects f st = set_objects g st.
Proof. intros H. unfold set_objects. by rewrite H. Qed.

Lemma set_objects_compose f g st :
  set_objects f (set_objects g st) = set_objects (f ∘ g) st.
Proof. done. Qed.

(** C10. [destroy] sets the wrapper's array to [None] and changes nothing
    else: the call succeeds, and the wrappers after it are those before
    it with the one wrapper replaced by a wrapper without array and with
    the same cached shape, children and origin; the buffers, the origin
    globals and the registry are as before. A second [destroy] of the same
    wrapper succeeds and leaves this state as it is. *)
Theorem destroy_idempotent st this w :
  objects st !! this = Some w →
  ∃ st1,
    _eqs_array_destroy this st = (Ok tt, st1)
    ∧ objects st1
      = <[this := {| array := None; _shape := _shape w;
                     _children := _children w;
                     array_origin := array_origin w |}]> (objects st)
    ∧ buffers st1 = buffers st
    ∧ globals st1 = globals st
    ∧ _eqs_array_destroy this st1 = (Ok tt, st1).
Proof.
  intros Hw. set (st1 := set_objects (alter (set_array None) this) st).
  assert (objects st1 !! this = Some (set_array None w)) as Hw1.
  { subst st1. simpl. by rewrite list_lookup_alter_eq, Hw. }
  exists st1. split_and!.
  - unfold _eqs_array_destroy, mbind, M_bind, _object_from_ptr. by rewrite Hw.
  - subst st1. simpl. apply list_eq. intros i.
    destruct (decide (i = this)) as [->|Hi].
    + rewrite list_lookup_alter_eq, Hw, list_lookup_insert_eq; [done|].
      by eapply lookup_lt_Some.
    + by rewrite list_lookup_alter_ne, list_lookup_insert_ne.
  - done.
  - done.
  - unfold _eqs_array_destroy, mbind, M_bind, _object_from_ptr. rewrite Hw1.
    unfold update_object, modify.
    rewrite set_objects_id; [done|]. by apply (alter_restore _ _ _ _ Hw1).
Qed.

(** C7. For a live wrapper and two axes inside the rank, [swap_axes]
    succeeds and exchanges the two entries of the shape (and of the
    strides); a second [swap_axes] with the same axes succeeds and gives
    back the state before the first call: the same view of the same
    buffers, hence the same shape and the same element at every index. *)
Theorem swap_axes_involution st this w a i j :
  objects st !! this = Some w → array w = Some a → _shape w = shape a →
  i < ndim a → j < ndim a →
  ∃ st1 w1 a1,
    _eqs_array_swap_axes this i j st = (Ok tt, st1)
    ∧ objects st1 !! this = Some w1 ∧ array w1 = Some a1
    ∧ shape a1 = swap i j (shape a) ∧ _shape w1 = shape a1
    ∧ buffers st1 = buffers st
    ∧ _eqs_array_swap_axes this i j st1 = (Ok tt, st).
Proof.
  intros Hw Ha Hsh Hi Hj.
  set (a1 := with_layout a (data a) (offset a) (swap i j (shape a))
               (swap i j (strides a))).
  set (w1 := set_shape (shape a1) (set_array (Some a1) w)).
  set (st1 := set_objects (alter (set_shape (shape a1)) this)
                (set_objects (alter (set_array (Some a1)) this) st)).
  assert (objects st1 !! this = Some w1) as Hw1.
  { subst st1. simpl. by rewrite !list_lookup_alter_eq, Hw. }
  exists st1, w1, a1. repeat split; try done.
  - unfold _eqs_array_swap_axes, mbind, M_bind, _object_from_ptr. rewrite Hw.
    unfold array_attr. rewrite Ha. unfold mret, M_ret, ndarray_swapaxes.
    rewrite bool_decide_true by done. done.
  - unfold _eqs_array_swap_axes, mbind, M_bind, _object_from_ptr. rewrite Hw1.
    unfold array_attr. simpl. unfold mret, M_ret, ndarray_swapaxes.
    rewrite bool_decide_true by (unfold ndim; simpl; by rewrite length_swap).
    simpl. rewrite !swap_swap.
    unfold update_object, modify.
    subst st1. rewrite !set_objects_compose, set_objects_id; [done|]. simpl.
    rewrite !list_alter_alter_eq. apply (alter_restore _ _ _ _ Hw).
    destruct w as [wa wsh wc wo], a as [ab ad adt ao ash ast].
    simpl in *. by subst.
Qed.

(** ** State properties kept by every computation *)

Lemma preserves_bind {A B} I (m : M A) (k : A → M B) :
  preserves I m → (∀ a, preserves I (k a)) → preserves I (m ≫= k).
Proof.
  intros Hm Hk st Hst. unfold mbind, M_bind.
  specialize (Hm st Hst). destruct (m st) as [[a|e] st']; simpl in *; [|done].
  by apply Hk.
Qed.

Lemma preserves_ret {A} I (a : A) : preserves I (mret a).
Proof. by intros st. Qed.

Lemma preserves_raise {A} I e : preserves I (@raise A e).
Proof. by intros st. Qed.

Lemma preserves_get I : preserves I get_state.
Proof. by intros st. Qed.

Lemma preserves_lift_res {A} I (r : res A) : preserves I (lift_res r).
Proof. by intros st. Qed.

Lemma preserves_object_from_ptr I p : preserves I (_object_from_ptr p).
Proof. intros st Hst. unfold _object_from_ptr. by destruct (objects st !! p). Qed.

Section Preserved.
Variable I : State → Prop.
Hypothesis I_buffers : ∀ f st, I st → I (set_buffers f st).
Hypothesis I_objects : ∀ f st, I st → I (set_objects f st).
Hypothesis I_numpy : preserves I _numpy_origin.
Hypothesis I_torch : preserves I _torch_origin.

Local Ltac pres :=
  repeat first
    [ apply preserves_ret | apply preserves_raise | apply preserves_get
    | apply preserves_lift_res | apply preserves_object_from_ptr
    | apply I_numpy | apply I_torch
    | (intros ? ?; by apply I_buffers) | (intros ? ?; by apply I_objects)
    | apply preserves_bind; [|intros]
    | match goal with
      | |- preserves _ (match ?x with _ => _ end) => destruct x
      end ].

Lemma preserves_init obj : preserves I (ArrayWrapper_init obj).
Proof. unfold ArrayWrapper_init, new_object. pres. Qed.

Lemma preserves_exec rv c : preserves I (exec rv c).
Proof.
  destruct c; unfold exec, ignore, eqs_array_origin, _eqs_array_shape,
    _eqs_array_reshape, _eqs_array_swap_axes, _eqs_array_create,
    _eqs_array_copy, _eqs_array_destroy, _eqs_array_move_samples_from,
    array_attr, ndarray_reshape, ndarray_swapaxes, np_zeros, torch_zeros,
    zeros, ndarray_copy, Tensor_clone, setitem, update_object, modify, alloc.
  all: pres.
  all: apply preserves_init.
Qed.

Lemma preserves_run rv cs st : I st → I (run rv cs st).
Proof.
  revert st. induction cs as [|c cs IH]; intros st Hst; [done|].
  apply IH. by apply preserves_exec.
Qed.
End Preserved.

(** ** The origin registry *)

Lemma origin_index_lookup name reg i :
  origin_index name reg = Some i → reg !! i = Some name.
Proof.
  revert i. induction reg as [|n reg IH]; intros i; simpl; [done|].
  case_bool_decide as Hn.
  - intros [= <-]. by subst.
  - destruct (origin_index name reg) as [j|]; simpl; [|done].
    intros [= <-]. by apply IH.
Qed.

Lemma origin_index_inj name name' reg i :
  origin_index name reg = Some i → origin_index name' reg = Some i →
  name = name'.
Proof.
  intros H1%origin_index_lookup H2%origin_index_lookup. congruence.
Qed.

Lemma origin_index_app name reg reg' i :
  origin_index name reg = Some i → origin_index name (reg ++ reg') = Some i.
Proof.
  revert i. induction reg as [|n reg IH]; intros i; simpl; [done|].
  case_bool_decide; [done|].
  destruct (origin_index name reg) as [j|]; simpl; [|done].
  intros [= <-]. by rewrite (IH j).
Qed.

Lemma origin_index_snoc name reg :
  origin_index name reg = None →
  origin_index name (reg ++ [name]) = Some (length reg).
Proof.
  induction reg as [|n reg IH]; simpl.
  - by rewrite bool_decide_true.
  - case_bool_decide; [done|].
    destruct (origin_index name reg); simpl; [done|].
    intros _. by rewrite IH.
Qed.

(** Registration returns the id the registry then holds for the name, and
    keeps the id of every name registered before. *)
Lemma register_spec name reg :
  let r := eqs_register_data_origin name reg in
  origin_index name r.2 = Some r.1
  ∧ ∀ name' i, origin_index name' reg = Some i → origin_index name' r.2 = Some i.
Proof.
  unfold eqs_register_data_origin.
  destruct (origin_index name reg) as [o|] eqn:Ho; simpl.
  - done.
  - split; [by apply origin_index_snoc|].
    intros. by apply origin_index_app.
Qed.

Lemma origin_of_cached bk st o :
  cached_origin st bk = Some o → origin_of bk st = (Ok o, st).
Proof.
  destruct bk; simpl; intros Ho; unfold _numpy_origin, _torch_origin;
    by rewrite Ho.
Qed.

Lemma origin_of_spec bk st :
  ∃ o st', origin_of bk st = (Ok o, st')
    ∧ cached_origin st' bk = Some o
    ∧ buffers st' = buffers st ∧ objects st' = objects st
    ∧ HAS_TORCH st' = HAS_TORCH st
    ∧ (∀ bk' o', cached_origin st bk' = Some o' → cached_origin st' bk' = Some o')
    ∧ (registry_inv st → registry_inv st').
Proof.
  destruct (cached_origin st bk) as [o|] eqn:Hc.
  { exists o, st. rewrite (origin_of_cached _ _ _ Hc). naive_solver. }
  destruct (register_spec (origin_name bk) (registered_origins st)) as [Hr Hk].
  destruct bk as [|dev]; simpl in *; unfold _numpy_origin, _torch_origin;
    rewrite Hc; eexists _, _; (split; [reflexivity|]); simpl.
  - split_and!; try done.
    + intros [|d] o'; simpl; [congruence|done].
    + intros Hinv [|d] o'; simpl.
      * intros [= <-]. apply Hr.
      * intros Ho'. apply Hk. by apply (Hinv (Torch d)).
  - split_and!; try done.
    + intros [|d] o'; simpl; [done|congruence].
    + intros Hinv [|d] o'; simpl.
      * intros Ho'. apply Hk. by apply (Hinv Numpy).
      * intros [= <-]. apply Hr.
Qed.

Lemma origin_of_preserves I bk :
  (∀ st o st', origin_of bk st = (Ok o, st') → I st → I st') →
  preserves I (origin_of bk).
Proof.
  intros H st Hst. destruct (origin_of_spec bk st) as (o & st' & Heq & _).
  rewrite Heq. simpl. by eapply H.
Qed.

Lemma cached_origin_exec rv c st bk o :
  cached_origin st bk = Some o → cached_origin (exec rv c st).2 bk = Some o.
Proof.
  apply (preserves_exec (λ st, cached_origin st bk = Some o)); try done.
  - apply (origin_of_preserves _ Numpy). intros s o' s' Heq.
    destruct (origin_of_spec Numpy s) as (? & ? & Heq' & _ & _ & _ & _ & Hk & _).
    rewrite Heq in Heq'. injection Heq' as <- <-. apply Hk.
  - apply (origin_of_preserves _ (Torch Cpu)). intros s o' s' Heq.
    destruct (origin_of_spec (Torch Cpu) s)
      as (? & ? & Heq' & _ & _ & _ & _ & Hk & _).
    rewrite Heq in Heq'. injection Heq' as <- <-. apply Hk.
Qed.

Lemma registry_inv_exec rv c st :
  registry_inv st → registry_inv (exec rv c st).2.
Proof.
  apply (preserves_exec registry_inv); try done.
  - apply (origin_of_preserves _ Numpy). intros s o' s' Heq.
    destruct (origin_of_spec Numpy s) as (? & ? & Heq' & _ & _ & _ & _ & _ & Hk).
    rewrite Heq in Heq'. injection Heq' as <- <-. apply Hk.
  - apply (origin_of_preserves _ (Torch Cpu)). intros s o' s' Heq.
    destruct (origin_of_spec (Torch Cpu) s)
      as (? & ? & Heq' & _ & _ & _ & _ & _ & Hk).
    rewrite Heq in Heq'. injection Heq' as <- <-. apply Hk.
Qed.

Lemma has_torch_exec rv c st : HAS_TORCH (exec rv c st).2 = HAS_TORCH st.
Proof.
  apply (preserves_exec (λ s, HAS_TORCH s = HAS_TORCH st)); try done.
  - apply (origin_of_preserves _ Numpy). intros s o' s' Heq.
    destruct (origin_of_spec Numpy s) as (? & ? & Heq' & _ & _ & _ & Hk & _).
    rewrite Heq in Heq'. injection Heq' as <- <-. congruence.
  - apply (origin_of_preserves _ (Torch Cpu)). intros s o' s' Heq.
    destruct (origin_of_spec (Torch Cpu) s)
      as (? & ? & Heq' & _ & _ & _ & Hk & _).
    rewrite Heq in Heq'. injection Heq' as <- <-. congruence.
Qed.

Lemma cached_origin_run rv cs st bk o :
  cached_origin st bk = Some o → cached_origin (run rv cs st) bk = Some o.
Proof.
  revert st. induction cs as [|c cs IH]; intros st Hst; [done|].
  apply IH. by apply cached_origin_exec.
Qed.

Lemma registry_inv_run rv cs st :
  registry_inv st → registry_inv (run rv cs st).
Proof.
  revert st. induction cs as [|c cs IH]; intros st Hst; [done|].
  apply IH. by apply registry_inv_exec.
Qed.

Lemma origin_names_differ dev : origin_name Numpy ≠ origin_name (Torch dev).
Proof. done. Qed.

(** Two libraries never share an origin: once one has its origin, whatever
    calls follow, the origin the other obtains is a different id. *)
Lemma origins_distinct rv st bk bk' cs o o' st1 st2 :
  registry_inv st → origin_name bk ≠ origin_name bk' →
  origin_of bk st = (Ok o, st1) →
  origin_of bk' (run rv cs st1) = (Ok o', st2) →
  o ≠ o'.
Proof.
  intros Hinv Hne H1 H2 <-.
  destruct (origin_of_spec bk st) as (? & ? & Heq & Hc & _ & _ & _ & _ & Hi).
  rewrite H1 in Heq. injection Heq as <- <-.
  pose proof (cached_origin_run rv cs _ _ _ Hc) as Hc'.
  pose proof (registry_inv_run rv cs _ (Hi Hinv)) as Hi'.
  destruct (origin_of_spec bk' (run rv cs st1))
    as (? & ? & Heq & Hc2 & _ & _ & _ & Hk & Hi2).
  rewrite H2 in Heq. injection Heq as <- <-.
  specialize (Hi2 Hi'). apply Hne.
  eapply origin_index_inj; [apply Hi2, Hk, Hc'|apply Hi2, Hc2].
Qed.

(** Once a library has its origin, every later request returns it and
    leaves the state alone. *)
Lemma origin_stable rv bk st :
  ∃ o st1, origin_of bk st = (Ok o, st1)
    ∧ ∀ cs, origin_of bk (run rv cs st1) = (Ok o, run rv cs st1).
Proof.
  destruct (origin_of_spec bk st) as (o & st1 & Heq & Hc & _).
  exists o, st1. split; [done|]. intros cs.
  apply origin_of_cached. by apply cached_origin_run.
Qed.

(** C9. Origin registration is idempotent and stable. From any state, the
    numpy origin function (and likewise the torch one) returns an id, and
    every later request, after any calls into the module, returns the same
    id without changing the state: the first call registers, the later ones
    read the cached id. In a state whose cached ids are the registry's, the
    id a library obtains is the one the registry holds for its name, and
    the two libraries obtain different ids, in either order. In the registry
    itself, registering a name, then a different name, then the first name
    again gives the first id again, a different id for the second name,
    and leaves the table as it was after the second registration. *)
Theorem origin_registration_idempotent :
  (∀ rv st, ∃ o st1, _numpy_origin st = (Ok o, st1)
     ∧ ∀ cs, _numpy_origin (run rv cs st1) = (Ok o, run rv cs st1))
  ∧ (∀ rv st, ∃ o st1, _torch_origin st = (Ok o, st1)
     ∧ ∀ cs, _torch_origin (run rv cs st1) = (Ok o, run rv cs st1))
  ∧ (∀ st bk o st1, registry_inv st → origin_of bk st = (Ok o, st1) →
       origin_index (origin_name bk) (registered_origins st1) = Some o)
  ∧ (∀ rv st cs n t st1 st2, registry_inv st →
       _numpy_origin st = (Ok n, st1) →
       _torch_origin (run rv cs st1) = (Ok t, st2) → n ≠ t)
  ∧ (∀ rv st cs n t st1 st2, registry_inv st →
       _torch_origin st = (Ok t, st1) →
       _numpy_origin (run rv cs st1) = (Ok n, st2) → n ≠ t)
  ∧ (∀ reg a b, a ≠ b →
       let r1 := eqs_register_data_origin a reg in
       let r2 := eqs_register_data_origin b r1.2 in
       let r3 := eqs_register_data_origin a r2.2 in
       r3.1 = r1.1 ∧ r2.1 ≠ r1.1 ∧ r3.2 = r2.2).
Proof.
  split_and!.
  - intros rv st. apply (origin_stable rv Numpy).
  - intros rv st. apply (origin_stable rv (Torch Cpu)).
  - intros st bk o st1 Hinv Heq.
    destruct (origin_of_spec bk st) as (? & ? & Heq' & Hc & _ & _ & _ & _ & Hi).
    rewrite Heq in Heq'. injection Heq' as <- <-. by apply Hi.
  - intros rv st cs n t st1 st2 Hinv H1 H2.
    by apply (origins_distinct rv st Numpy (Torch Cpu) cs n t st1 st2).
  - intros rv st cs n t st1 st2 Hinv H1 H2 ->.
    by apply (origins_distinct rv st (Torch Cpu) Numpy cs t t st1 st2).
  - intros reg a b Hab r1 r2 r3.
    destruct (register_spec a reg) as [Ha _]. fold r1 in Ha.
    destruct (register_spec b r1.2) as [Hb Hk]. fold r2 in Hb, Hk.
    specialize (Hk _ _ Ha).
    assert (r3 = (r1.1, r2.2)) as ->.
    { subst r3. unfold eqs_register_data_origin at 1. by rewrite Hk. }
    split_and!; try done.
    intros Heq. rewrite Heq in Hb. apply Hab. by eapply origin_index_inj.
Qed.

(** ** Buffers under allocation *)

Lemma buffer_alloc_old st l b :
  b < length (buffers st) →
  buffer (set_buffers (λ bs, bs ++ [l]) st) b = buffer st b.
Proof. intros Hb. unfold buffer. simpl. by rewrite lookup_app_l. Qed.

Lemma buffer_alloc_new st l :
  buffer (set_buffers (λ bs, bs ++ [l]) st) (length (buffers st)) = l.
Proof. unfold buffer. simpl. by rewrite list_lookup_middle. Qed.

Lemma read_seq (l : list Z) :
  (λ c, default 0%Z (l !! c)) <$> seq 0 (length l) = l.
Proof.
  apply list_eq. intros i. rewrite list_lookup_fmap.
  destruct (l !! i) as [x|] eqn:Hi.
  - rewrite lookup_seq_lt by (by eapply lookup_lt_Some). simpl. by rewrite Hi.
  - rewrite lookup_seq_ge; [done|]. by apply lookup_ge_None.
Qed.

(** A row-major view over a whole buffer lists the buffer. *)
Lemma ravel_whole st a :
  strides a = c_strides (shape a) → offset a = 0 →
  length (buffer st (data a)) = array_size a →
  ravel st a = buffer st (data a).
Proof.
  intros Hs Ho Hl. unfold ravel. rewrite (cells_c_contiguous _ Hs), Ho, <- Hl.
  apply read_seq.
Qed.

Lemma ravel_ext st st' a a' :
  buffer st (data a) = buffer st' (data a') → cells a = cells a' →
  ravel st a = ravel st' a'.
Proof. intros Hb Hc. unfold ravel, read. by rewrite Hb, Hc. Qed.

Lemma view_ok_contiguous st a :
  strides a = c_strides (shape a) →
  offset a + array_size a ≤ length (buffer st (data a)) →
  view_ok st a.
Proof.
  intros Hs Hl. unfold view_ok. rewrite (cells_c_contiguous _ Hs). split.
  - apply NoDup_seq.
  - apply Forall_seq. intros. lia.
Qed.

(** ** The library calls *)

Lemma zeros_spec bk sh dt st :
  let a := {| backend := bk; dtype := dt; data := length (buffers st);
              offset := 0; shape := sh; strides := c_strides sh |} in
  let st1 := set_buffers (λ bs, bs ++ [replicate (list_prod sh) 0%Z]) st in
  zeros bk sh dt st = (Ok a, st1)
  ∧ ravel st1 a = replicate (list_prod sh) 0%Z
  ∧ view_ok st1 a.
Proof.
  intros a st1. split_and!; [done|..].
  - rewrite ravel_whole; try done.
    + apply buffer_alloc_new.
    + subst st1 a. simpl. by rewrite buffer_alloc_new, length_replicate.
  - apply view_ok_contiguous; [done|]. subst st1 a. simpl.
    rewrite buffer_alloc_new, length_replicate. unfold array_size. simpl. lia.
Qed.

Lemma ndarray_copy_spec a st :
  let a' := with_layout a (length (buffers st)) 0 (shape a) (c_strides (shape a)) in
  let st1 := set_buffers (λ bs, bs ++ [ravel st a]) st in
  ndarray_copy a st = (Ok a', st1)
  ∧ ravel st1 a' = ravel st a
  ∧ view_ok st1 a'.
Proof.
  intros a' st1. split_and!; [done|..].
  - rewrite ravel_whole; try done.
    + apply buffer_alloc_new.
    + subst st1 a'. simpl. by rewrite buffer_alloc_new, length_ravel.
  - apply view_ok_contiguous; [done|]. subst st1 a'. simpl.
    rewrite buffer_alloc_new, length_ravel. unfold array_size. simpl. lia.
Qed.

(** Reading back, through their cells, values stored at pairwise distinct
    cells. *)
Lemma write_all_zip_read (cs : list nat) (xs buf : list Z) :
  NoDup cs → Forall (λ c, c < length buf) cs → length cs = length xs →
  (λ c, default 0%Z (write_all (zip cs xs) buf !! c)) <$> cs = xs.
Proof.
  intros Hnd Hlt Hlen. apply list_eq. intros i. rewrite list_lookup_fmap.
  destruct (cs !! i) as [c|] eqn:Hc; simpl.
  - destruct (lookup_lt_is_Some_2 xs i) as [x Hx].
    { rewrite <- Hlen. by eapply lookup_lt_Some. }
    rewrite (write_all_lookup_NoDup _ _ c x).
    + by rewrite Hx.
    + by rewrite fst_zip by lia.
    + apply list_elem_of_lookup. exists i. rewrite lookup_zip_with, Hc. simpl.
      by rewrite Hx.
    + eapply Forall_lookup_1 in Hlt; eauto.
  - symmetry. apply lookup_ge_None. rewrite <- Hlen. by apply lookup_ge_None.
Qed.

Lemma is_dense_spec a :
  is_dense a = true →
  NoDup (layout a) ∧ Forall (λ c, c < array_size a) (layout a).
Proof.
  unfold is_dense. rewrite andb_true_iff, bool_decide_eq_true.
  intros [Hlt Hnd]. split; [done|].
  apply Forall_forall. intros c Hc%list_elem_of_In.
  rewrite forallb_forall in Hlt. by apply Nat.ltb_lt, Hlt.
Qed.

Lemma Tensor_clone_spec a st :
  ∃ a' l,
    let st1 := set_buffers (λ bs, bs ++ [l]) st in
    Tensor_clone a st = (Ok a', st1)
    ∧ backend a' = backend a ∧ dtype a' = dtype a ∧ shape a' = shape a
    ∧ data a' = length (buffers st)
    ∧ ravel st1 a' = ravel st a
    ∧ view_ok st1 a'.
Proof.
  unfold Tensor_clone, mbind, M_bind, get_state.
  destruct (is_dense a) eqn:Hd.
  - apply is_dense_spec in Hd as [Hnd Hlt].
    eexists _, _. split_and!; try reflexivity.
    + unfold ravel at 1, read. simpl. rewrite buffer_alloc_new.
      unfold cells, cell. simpl. fold (layout a).
      apply write_all_zip_read; [done| |].
      * by rewrite length_replicate.
      * unfold layout. by rewrite length_ravel, length_fmap, length_indices.
    + unfold view_ok, cells, cell. simpl. fold (layout a).
      rewrite buffer_alloc_new, length_write_all, length_replicate. done.
  - destruct (ndarray_copy_spec a st) as (_ & Hr & Hv).
    eexists _, _. split_and!; try reflexivity; done.
Qed.

Lemma no_view_sound : view_sound no_view.
Proof. by intros sh st sh' st' off. Qed.

Lemma ndarray_reshape_fail rv a sh st :
  list_prod sh ≠ array_size a →
  ndarray_reshape rv a sh st = (Raise (shape_error (backend a)), st).
Proof. intros H. unfold ndarray_reshape. by rewrite bool_decide_false. Qed.

(** A successful reshape gives an array of the requested shape, either a
    view of the same buffer or a row-major array in a fresh one. *)
Lemma ndarray_reshape_ok rv a sh st :
  list_prod sh = array_size a →
  ∃ a' st1, ndarray_reshape rv a sh st = (Ok a', st1)
    ∧ shape a' = sh ∧ backend a' = backend a ∧ dtype a' = dtype a
    ∧ objects st1 = objects st
    ∧ ((st1 = st ∧ data a' = data a)
       ∨ (st1 = set_buffers (λ bs, bs ++ [ravel st a]) st
          ∧ data a' = length (buffers st)))
    ∧ (view_sound rv → ravel st1 a' = ravel st a)
    ∧ (view_sound rv → view_ok st a → view_ok st1 a').
Proof.
  intros Hp. unfold ndarray_reshape. rewrite bool_decide_true by done.
  destruct (is_c_contiguous a) eqn:Hc.
  - apply bool_decide_eq_true in Hc.
    assert (cells (with_layout a (data a) (offset a) sh (c_strides sh)) = cells a)
      as Hcells.
    { rewrite (cells_c_contiguous a Hc), cells_c_contiguous by done.
      unfold array_size. simpl. by rewrite Hp. }
    eexists _, _. split_and!; try reflexivity; [by left| |].
    + intros _. by apply ravel_ext.
    + intros _. unfold view_ok. by rewrite Hcells.
  - destruct (rv (shape a) (strides a) sh) as [st'|] eqn:Hrv.
    + eexists _, _. split_and!; try reflexivity; [by left| |].
      * intros Hs. apply ravel_ext; [done|]. unfold cells, cell. simpl.
        by apply Hs.
      * intros Hs. unfold view_ok, cells, cell. simpl.
        by rewrite (Hs _ _ _ _ (offset a) Hrv Hp).
    + eexists _, _. split_and!; try reflexivity; [by right| |].
      * intros _. rewrite ravel_whole; try done.
        -- apply buffer_alloc_new.
        -- simpl. rewrite buffer_alloc_new, length_ravel. by unfold array_size.
      * intros _ _. apply view_ok_contiguous; [done|]. simpl.
        rewrite buffer_alloc_new, length_ravel. unfold array_size in *. simpl. lia.
Qed.

Lemma reshape_run rv this sh st w a a' st1 :
  objects st !! this = Some w → array w = Some a →
  ndarray_reshape rv a sh st = (Ok a', st1) →
  _eqs_array_reshape rv this sh st
  = (Ok tt, set_objects (alter (set_shape sh ∘ set_array (Some a')) this) st1).
Proof.
  intros Hw Ha Hr.
  unfold _eqs_array_reshape, mbind, M_bind, _object_from_ptr. rewrite Hw.
  unfold array_attr. rewrite Ha. unfold mret, M_ret. rewrite Hr.
  unfold update_object, modify. rewrite set_objects_compose.
  f_equal. apply set_objects_ext. simpl. by rewrite list_alter_alter_eq.
Qed.

Lemma reshape_run_fail rv this sh st w a :
  objects st !! this = Some w → array w = Some a →
  list_prod sh ≠ array_size a →
  _eqs_array_reshape rv this sh st = (Raise (shape_error (backend a)), st).
Proof.
  intros Hw Ha Hp.
  unfold _eqs_array_reshape, mbind, M_bind, _object_from_ptr. rewrite Hw.
  unfold array_attr. rewrite Ha. unfold mret, M_ret.
  by rewrite ndarray_reshape_fail.
Qed.

(** C4 (amended). For a live wrapper and a requested shape: when the
    product of the requested shape is the element count of the array, of
    whatever rank the requested shape is, [reshape] succeeds, the array and
    the cached shape have the requested shape, the elements in row-major
    order are those before the call, and no buffer that existed is
    changed; when the products differ, [reshape] fails with the library's
    shape error and the state is exactly the state before the call. *)
Theorem reshape_all_or_nothing rv st this w a sh :
  view_sound rv →
  objects st !! this = Some w → array w = Some a →
  (list_prod sh = array_size a →
     ∃ st1 w1 a1,
       _eqs_array_reshape rv this sh st = (Ok tt, st1)
       ∧ objects st1 !! this = Some w1 ∧ array w1 = Some a1
       ∧ shape a1 = sh ∧ _shape w1 = sh
       ∧ _eqs_array_shape this st1 = (Ok (sh, length sh), st1)
       ∧ ravel st1 a1 = ravel st a
       ∧ (∀ b, b < length (buffers st) → buffer st1 b = buffer st b))
  ∧ (list_prod sh ≠ array_size a →
     _eqs_array_reshape rv this sh st = (Raise (shape_error (backend a)), st)).
Proof.
  intros Hs Hw Ha. split; [|intros Hp; by apply (reshape_run_fail _ _ _ _ w a)].
  intros Hp.
  destruct (ndarray_reshape_ok rv a sh st Hp)
    as (a' & st1 & Hr & Hsh & _ & _ & Ho & Hst & Hrav & _).
  set (st2 := set_objects (alter (set_shape sh ∘ set_array (Some a')) this) st1).
  assert (objects st2 !! this = Some (set_shape sh (set_array (Some a') w))) as Hw2.
  { subst st2. simpl. by rewrite Ho, list_lookup_alter_eq, Hw. }
  exists st2, (set_shape sh (set_array (Some a') w)), a'.
  split_and!; try done.
  - by apply (reshape_run _ _ _ _ w a).
  - unfold _eqs_array_shape, mbind, M_bind, _object_from_ptr. by rewrite Hw2.
  - rewrite <- (Hrav Hs). by apply ravel_ext.
  - intros b Hb. destruct Hst as [[-> _]|[-> _]]; [done|].
    by apply buffer_alloc_old.
Qed.

(** ** Construction of wrappers *)

Lemma origin_of_set_buffers bk f st :
  origin_of bk (set_buffers f st)
  = ((origin_of bk st).1, set_buffers f (origin_of bk st).2).
Proof.
  destruct bk; simpl; unfold _numpy_origin, _torch_origin; simpl;
    by destruct (_NUMPY_STORAGE_ORIGIN st), (_TORCH_STORAGE_ORIGIN st).
Qed.

Lemma known_set_buffers f st a : known (set_buffers f st) a = known st a.
Proof. done. Qed.

Lemma init_known st a :
  known st a = true →
  ArrayWrapper_init (Array a) st
  = (Ok (length (objects st)),
     set_objects (λ os, os ++ [{| array := Some a; _shape := shape a;
                                  _children := [];
                                  array_origin := default 0 (cached_origin
                                    (origin_of (backend a) st).2 (backend a)) |}])
       (origin_of (backend a) st).2).
Proof.
  intros Hk.
  destruct (origin_of_spec (backend a) st) as (o & st1 & Heq & Hc & _ & Ho & _).
  rewrite Heq. simpl. rewrite Hc. simpl.
  unfold ArrayWrapper_init, mbind, M_bind, get_state.
  unfold known, _is_numpy_array, _is_torch_array in *.
  destruct (backend a) as [|dev] eqn:Hb; simpl in *.
  - rewrite Heq. unfold new_object. by rewrite Ho.
  - destruct (HAS_TORCH st); simpl in *; [|done].
    rewrite Heq. unfold new_object. by rewrite Ho.
Qed.

Lemma init_unknown st a :
  known st a = false →
  ArrayWrapper_init (Array a) st = (Raise ValueError, st).
Proof.
  unfold known, _is_numpy_array, _is_torch_array.
  unfold ArrayWrapper_init, mbind, M_bind, get_state, _is_numpy_array,
    _is_torch_array.
  destruct (backend a); simpl; [done|]. by destruct (HAS_TORCH st).
Qed.

Lemma create_run st this w a sh :
  objects st !! this = Some w → array w = Some a → known st a = true →
  let st1 := (origin_of (backend a) st).2 in
  let child := length (objects st) in
  _eqs_array_create this sh st
  = (Ok child,
     set_objects (λ os, alter (add_child child) this
                          (os ++ [child_of st1 (created st a sh)]))
       (set_buffers (λ bs, bs ++ [replicate (list_prod sh) 0%Z]) st1)).
Proof.
  intros Hw Ha Hk st1 child.
  unfold _eqs_array_create, mbind at 1, M_bind at 1, _object_from_ptr.
  rewrite Hw. unfold array_attr. rewrite Ha.
  unfold mret, M_ret, mbind at 1, M_bind at 1.
  unfold mbind at 1, M_bind at 1, get_state.
  assert ((if _is_numpy_array a then np_zeros sh (dtype a)
           else if _is_torch_array st a then torch_zeros sh (dtype a) (device a)
           else raise UnboundLocalError) st
          = (Ok (created st a sh),
             set_buffers (λ bs, bs ++ [replicate (list_prod sh) 0%Z]) st)) as Hz.
  { unfold known, _is_numpy_array, _is_torch_array, device, created in *.
    destruct (backend a) as [|dev] eqn:Hb; simpl in *; [done|].
    by destruct (HAS_TORCH st). }
  unfold mbind at 1, M_bind at 1. rewrite Hz.
  unfold mbind at 1, M_bind at 1.
  rewrite init_known by done.
  change (backend (created st a sh)) with (backend a).
  rewrite origin_of_set_buffers. simpl.
  unfold update_object, modify, mbind, M_bind. simpl.
  rewrite set_objects_compose. done.
Qed.

Lemma create_fails st this sh :
  (∀ w a, objects st !! this = Some w → array w = Some a → known st a = false) →
  ∃ e, _eqs_array_create this sh st = (Raise e, st).
Proof.
  intros H.
  unfold _eqs_array_create, mbind at 1, M_bind at 1, _object_from_ptr.
  destruct (objects st !! this) as [w|] eqn:Hw; [|by eexists].
  unfold array_attr, mbind at 1, M_bind at 1.
  destruct (array w) as [a|] eqn:Ha; [|by eexists].
  specialize (H w a eq_refl Ha).
  unfold known in H. apply orb_false_iff in H as [H1 H2].
  unfold mret, M_ret, mbind, M_bind, get_state. rewrite H1, H2. by eexists.
Qed.

Lemma copied_spec st a :
  ∃ c l, copied st a = (Ok c, set_buffers (λ bs, bs ++ [l]) st)
    ∧ backend c = backend a ∧ dtype c = dtype a ∧ shape c = shape a
    ∧ data c = length (buffers st)
    ∧ ravel (set_buffers (λ bs, bs ++ [l]) st) c = ravel st a
    ∧ view_ok (set_buffers (λ bs, bs ++ [l]) st) c.
Proof.
  unfold copied. destruct (_is_numpy_array a).
  - destruct (ndarray_copy_spec a st) as (Heq & Hr & Hv).
    eexists _, _. split_and!; try apply Heq; try done.
  - destruct (Tensor_clone_spec a st) as (c & l & Heq & ?). by exists c, l.
Qed.

Lemma bind_ret_id {A} (m : M A) st : (m ≫= λ x, mret x) st = m st.
Proof. unfold mbind, M_bind. by destruct (m st) as [[?|?] ?]. Qed.

Lemma copy_run st this w a c st1 :
  objects st !! this = Some w → array w = Some a → known st a = true →
  copied st a = (Ok c, st1) →
  _eqs_array_copy this st = ArrayWrapper_init (Array c) st1.
Proof.
  intros Hw Ha Hk Hc.
  unfold _eqs_array_copy, mbind at 1, M_bind at 1, _object_from_ptr.
  rewrite Hw. unfold mbind at 1, M_bind at 1, get_state. rewrite Ha.
  assert ((if _is_numpy_array a then ndarray_copy a
           else if _is_torch_array st a then Tensor_clone a
           else raise UnboundLocalError) st = (Ok c, st1)) as Hz.
  { unfold copied, known in *. destruct (_is_numpy_array a); [done|].
    simpl in Hk. by rewrite Hk. }
  unfold mbind at 1, M_bind at 1. rewrite Hz. apply bind_ret_id.
Qed.

Lemma copy_fails st this :
  (∀ w a, objects st !! this = Some w → array w = Some a → known st a = false) →
  ∃ e, _eqs_array_copy this st = (Raise e, st).
Proof.
  intros H.
  unfold _eqs_array_copy, mbind at 1, M_bind at 1, _object_from_ptr.
  destruct (objects st !! this) as [w|] eqn:Hw; [|by eexists].
  unfold mbind at 1, M_bind at 1, get_state.
  destruct (array w) as [a|] eqn:Ha; [|by eexists].
  specialize (H w a eq_refl Ha).
  unfold known in H. apply orb_false_iff in H as [H1 H2].
  unfold mbind, M_bind. rewrite H1, H2. by eexists.
Qed.

Lemma item_ravel st a ix :
  Forall2 lt ix (shape a) →
  ravel st a !! dot ix (c_strides (shape a)) = Some (item st a ix).
Proof.
  intros Hix. unfold ravel, cells, item.
  by rewrite !list_lookup_fmap, indices_lookup_dot.
Qed.

Lemma origin_inv_known st p w a :
  origin_inv st → objects st !! p = Some w → array w = Some a →
  known st a = true ∧ origin_of (backend a) st = (Ok (array_origin w), st).
Proof.
  intros Hinv Hw Ha. destruct (Hinv p w a Hw Ha) as [Hc Ht].
  split; [|by apply origin_of_cached].
  unfold known, _is_numpy_array, _is_torch_array.
  destruct (backend a); [done|]. by rewrite Ht.
Qed.

(** C5. For a live wrapper of a state in which origins are consistent,
    [create] succeeds and returns a wrapper that did not exist before; its
    array has the requested shape (also as reported by [shape]), every
    element zero, and the origin, element type, library and device of the
    parent's array; the array is laid out in row-major order over a buffer
    that did not exist before, that exists after the call and holds as
    many zeros as the shape has elements, and no buffer that existed is
    changed. The parent only records the child. *)
Theorem create_zero_filled st this w a sh :
  origin_inv st →
  objects st !! this = Some w → array w = Some a →
  ∃ child st1 cw c,
    _eqs_array_create this sh st = (Ok child, st1)
    ∧ objects st !! child = None
    ∧ objects st1 !! child = Some cw ∧ array cw = Some c
    ∧ shape c = sh
    ∧ _eqs_array_shape child st1 = (Ok (sh, length sh), st1)
    ∧ ravel st1 c = replicate (list_prod sh) 0%Z
    ∧ (∀ ix, Forall2 lt ix sh → item st1 c ix = 0%Z)
    ∧ eqs_array_origin child st1 = (Ok (array_origin w), st1)
    ∧ backend c = backend a ∧ dtype c = dtype a ∧ device c = device a
    ∧ buffers st !! data c = None
    ∧ buffers st1 !! data c = Some (replicate (list_prod sh) 0%Z)
    ∧ offset c = 0 ∧ strides c = c_strides sh
    ∧ view_ok st1 c
    ∧ (∀ b, b < length (buffers st) → buffer st1 b = buffer st b)
    ∧ objects st1 !! this = Some (add_child child w).
Proof.
  intros Hinv Hw Ha.
  destruct (origin_inv_known _ _ _ _ Hinv Hw Ha) as [Hk Ho].
  destruct (Hinv _ _ _ Hw Ha) as [Hc _].
  pose proof (create_run st this w a sh Hw Ha Hk) as Hrun.
  rewrite Ho in Hrun. simpl in Hrun.
  pose proof (lookup_lt_Some _ _ _ Hw) as Hlt.
  set (c := created st a sh) in *.
  set (cw := child_of st c) in *.
  set (st1 := set_objects _ _) in Hrun.
  assert (objects st1 !! length (objects st) = Some cw) as Hcw.
  { subst st1. simpl. rewrite list_lookup_alter_ne by lia.
    by rewrite list_lookup_middle. }
  destruct (zeros_spec (backend a) sh (dtype a) st) as (_ & Hz & Hok).
  assert (ravel st1 c = replicate (list_prod sh) 0%Z) as Hr.
  { rewrite <- Hz. by apply ravel_ext. }
  exists (length (objects st)), st1, cw, c. split_and!; try done.
  - by apply lookup_ge_None.
  - unfold _eqs_array_shape, mbind, M_bind, _object_from_ptr. by rewrite Hcw.
  - intros ix Hix.
    pose proof (item_ravel st1 c ix Hix) as Hi. rewrite Hr in Hi.
    apply lookup_replicate in Hi as [Hi _]. done.
  - unfold eqs_array_origin, mbind, M_bind, _object_from_ptr. rewrite Hcw.
    subst cw. unfold child_of. simpl. by rewrite Hc.
  - by apply lookup_ge_None.
  - subst st1 c. simpl. by rewrite list_lookup_middle.
  - intros b Hb. by apply buffer_alloc_old.
  - subst st1. simpl. rewrite list_lookup_alter_eq.
    by rewrite lookup_app_l, Hw.
Qed.

Lemma origin_inv_matrix_state : origin_inv matrix_state.
Proof. intros [|p] w a; [by intros [= <-] [= <-] | done]. Qed.

(** ** Moving samples *)

(** *** Rows *)

Lemma row_index_lt n r k : row_index n r = Some k → k < n.
Proof.
  unfold row_index. repeat case_bool_decide; intros [= <-]; lia.
Qed.

Lemma as_intp_small r : (0 ≤ r < 2 ^ 63)%Z → as_intp r = r.
Proof.
  intros Hr. unfold as_intp, uintptr. rewrite Z.mod_small by lia.
  destruct (Z.ltb_spec r (2 ^ 63)); [done|lia].
Qed.

(** A row below the length of the axis stands for itself. *)
Lemma row_index_in_range n r :
  (0 ≤ r < Z.of_nat n)%Z → (r < 2 ^ 63)%Z → row_index n r = Some (Z.to_nat r).
Proof.
  intros Hr H63. unfold row_index. rewrite as_intp_small by lia.
  by rewrite bool_decide_true.
Qed.

Lemma row_index_None n r :
  (Z.of_nat n ≤ as_intp r ∨ as_intp r < - Z.of_nat n)%Z → row_index n r = None.
Proof.
  intros Hr. unfold row_index. rewrite !bool_decide_false by lia. done.
Qed.

Lemma index_rows_Ok bk n rows rs :
  index_rows bk n rows = Ok rs → mapM (row_index n) rows = Some rs.
Proof.
  unfold index_rows. destruct bk; [|destruct (forallb _ rows); [|done]].
  all: destruct (mapM _ rows); [|done]; by intros [= <-].
Qed.

Lemma index_rows_length bk n rows rs :
  index_rows bk n rows = Ok rs → length rs = length rows.
Proof. intros H%index_rows_Ok. symmetry. by eapply length_mapM. Qed.

Lemma index_rows_lookup bk n rows rs k r :
  index_rows bk n rows = Ok rs → rs !! k = Some r →
  ∃ z, rows !! k = Some z ∧ row_index n z = Some r.
Proof.
  intros H%index_rows_Ok%mapM_Some_1 Hk.
  destruct (Forall2_lookup_r _ _ _ _ _ H Hk) as (z & Hz & Hzr). eauto.
Qed.

Lemma index_rows_lt bk n rows rs :
  index_rows bk n rows = Ok rs → Forall (λ r, r < n) rs.
Proof.
  intros H. apply Forall_lookup. intros k r Hk.
  destruct (index_rows_lookup _ _ _ _ _ _ H Hk) as (z & _ & Hz).
  by eapply row_index_lt.
Qed.

Lemma index_rows_nil bk n : index_rows bk n [] = Ok [].
Proof. by destruct bk. Qed.

(** Rows below the length of the axis, and below [2^63], stand for
    themselves in both libraries. *)
Lemma index_rows_in_range bk n rows :
  Forall (λ r, (0 ≤ r < Z.of_nat n)%Z ∧ (r < 2 ^ 63)%Z) rows →
  index_rows bk n rows = Ok (Z.to_nat <$> rows).
Proof.
  intros Hrows.
  assert (mapM (row_index n) rows = Some (Z.to_nat <$> rows)) as Hm.
  { apply mapM_Some_2, Forall2_fmap_r, Forall_Forall2_diag.
    eapply Forall_impl; [done|]. intros r [? ?]. by apply row_index_in_range. }
  unfold index_rows. rewrite Hm. destruct bk; [done|].
  assert (forallb (λ r, uintptr r <? 2 ^ 63)%Z rows = true) as ->; [|done].
  apply forallb_forall. intros r Hr%list_elem_of_In.
  eapply Forall_forall in Hrows as [? ?]; [|done].
  unfold uintptr. rewrite Z.mod_small by lia. by apply Z.ltb_lt.
Qed.

(** *** The assignment *)

Lemma accepts_same bk dt : accepts bk dt bk dt = Ok tt.
Proof. destruct bk; simpl; [done|]. by rewrite !bool_decide_true. Qed.

Lemma convert_same dt x : convert dt dt x = x.
Proof. unfold convert. by rewrite bool_decide_true. Qed.

Lemma coerce_shape a v v' : coerce a v = Ok v' → v_shape v' = v_shape v.
Proof.
  unfold coerce. destruct (accepts _ _ _ _); [|done]. by intros [= <-].
Qed.

Lemma setitem_run a rows p0 p1 v st n mid len v' al rs :
  shape a = n :: mid ++ [len] →
  index_rows (backend a) n rows = Ok rs →
  coerce a v = Ok v' →
  broadcast (v_shape v')
    (length rows :: mid ++ [p1 `min` len - p0 `min` len]) = Some al →
  setitem a rows p0 p1 v st
  = (Ok tt, set_buffers (alter (write_all
       (stores a rs mid (p0 `min` len) (p1 `min` len - p0 `min` len) v' al))
       (data a)) st).
Proof.
  intros Hsh Hrows Hco Hbr. unfold setitem. rewrite Hsh.
  assert (∃ d rest, mid ++ [len] = d :: rest) as (d & rest & Hd).
  { destruct mid; simpl; eauto. }
  rewrite Hd. rewrite <- Hd, removelast_last, last_last.
  unfold mbind, M_bind, lift_res. rewrite Hco, Hbr, Hrows. done.
Qed.

(** [setitem] either raises and leaves the state as it was, or performs
    the stores of [setitem_run]. *)
Lemma setitem_outcome a rows p0 p1 v st :
  (∃ e, setitem a rows p0 p1 v st = (Raise e, st))
  ∨ (∃ n mid len v' al rs,
       shape a = n :: mid ++ [len]
       ∧ index_rows (backend a) n rows = Ok rs
       ∧ coerce a v = Ok v'
       ∧ broadcast (v_shape v')
           (length rows :: mid ++ [p1 `min` len - p0 `min` len]) = Some al).
Proof.
  unfold setitem.
  destruct (shape a) as [|n [|d rest]] eqn:Hsh; [left; by eexists..|].
  assert (d :: rest = removelast (d :: rest) ++ [List.last (d :: rest) 0])
    as Hd by (by apply app_removelast_last).
  set (mid := removelast (d :: rest)) in *.
  set (len := List.last (d :: rest) 0) in *.
  unfold mbind, M_bind, lift_res.
  destruct (coerce a v) as [v'|e] eqn:Hco; [|left; by eexists].
  destruct (broadcast _ _) as [al|] eqn:Hbr; [|left; by eexists].
  destruct (index_rows (backend a) n rows) as [rs|e] eqn:Hrows;
    [|left; by eexists].
  right. exists n, mid, len, v', al, rs. by rewrite Hd.
Qed.

Lemma getitem_Ok st a rows v :
  getitem st a rows = Ok v →
  ∃ n rest rs, shape a = n :: rest ∧ rest ≠ []
    ∧ index_rows (backend a) n rows = Ok rs
    ∧ v = take st a rs rest.
Proof.
  unfold getitem. destruct (shape a) as [|n [|d rest]]; [done..|].
  destruct (index_rows _ _ rows) as [rs|] eqn:Hrows; [|done]. intros [= <-].
  by exists n, (d :: rest), rs.
Qed.

Lemma getitem_run st a rows n rest rs :
  shape a = n :: rest → rest ≠ [] →
  index_rows (backend a) n rows = Ok rs →
  getitem st a rows = Ok (take st a rs rest).
Proof.
  intros Hsh Hne Hrows. unfold getitem. rewrite Hsh.
  destruct rest as [|d rest]; [done|]. by rewrite Hrows.
Qed.

Lemma move_run st this inp wd ws dst src samples p0 p1 v :
  objects st !! this = Some wd → objects st !! inp = Some ws →
  array wd = Some dst → array ws = Some src →
  getitem st src (input <$> samples) = Ok v →
  _eqs_array_move_samples_from this inp samples p0 p1 st
  = setitem dst (output <$> samples) p0 p1 v st.
Proof.
  intros Hwd Hws Hd Hs Hv.
  unfold _eqs_array_move_samples_from, mbind at 1, M_bind at 1, _object_from_ptr.
  rewrite Hws. unfold mbind at 1, M_bind at 1. rewrite Hwd.
  unfold mbind at 1, M_bind at 1, get_state.
  unfold mbind at 1, M_bind at 1. rewrite Hs. unfold lift_res. rewrite Hv.
  by rewrite Hd.
Qed.

(** A call of [move_samples_from] either raises and leaves the whole
    state as it was, or is a successful [setitem] on live arrays. *)
Lemma move_outcome st this inp samples p0 p1 :
  (∃ e, _eqs_array_move_samples_from this inp samples p0 p1 st = (Raise e, st))
  ∨ (∃ wd ws dst src v n mid len al v' rs,
       objects st !! this = Some wd ∧ objects st !! inp = Some ws
       ∧ array wd = Some dst ∧ array ws = Some src
       ∧ getitem st src (input <$> samples) = Ok v
       ∧ shape dst = n :: mid ++ [len]
       ∧ index_rows (backend dst) n (output <$> samples) = Ok rs
       ∧ coerce dst v = Ok v'
       ∧ broadcast (v_shape v')
           (length (output <$> samples)
              :: mid ++ [p1 `min` len - p0 `min` len]) = Some al
       ∧ _eqs_array_move_samples_from this inp samples p0 p1 st
         = (Ok tt, set_buffers (alter (write_all
              (stores dst rs mid (p0 `min` len)
                 (p1 `min` len - p0 `min` len) v' al)) (data dst)) st)).
Proof.
  destruct (objects st !! inp) as [ws|] eqn:Hws.
  2:{ left. unfold _eqs_array_move_samples_from, mbind at 1, M_bind at 1,
        _object_from_ptr. rewrite Hws. by eexists. }
  destruct (objects st !! this) as [wd|] eqn:Hwd.
  2:{ left. unfold _eqs_array_move_samples_from, mbind at 1, M_bind at 1,
        _object_from_ptr. rewrite Hws. unfold mbind at 1, M_bind at 1.
      rewrite Hwd. by eexists. }
  destruct (array ws) as [src|] eqn:Hs.
  2:{ left. unfold _eqs_array_move_samples_from, mbind at 1, M_bind at 1,
        _object_from_ptr. rewrite Hws. unfold mbind at 1, M_bind at 1.
      rewrite Hwd. unfold mbind, M_bind, get_state. rewrite Hs. by eexists. }
  destruct (getitem st src (input <$> samples)) as [v|e] eqn:Hv.
  2:{ left. unfold _eqs_array_move_samples_from, mbind at 1, M_bind at 1,
        _object_from_ptr. rewrite Hws. unfold mbind at 1, M_bind at 1.
      rewrite Hwd. unfold mbind, M_bind, get_state. rewrite Hs.
      unfold lift_res. rewrite Hv. by eexists. }
  destruct (array wd) as [dst|] eqn:Hd.
  2:{ left. unfold _eqs_array_move_samples_from, mbind at 1, M_bind at 1,
        _object_from_ptr. rewrite Hws. unfold mbind at 1, M_bind at 1.
      rewrite Hwd. unfold mbind, M_bind, get_state. rewrite Hs.
      unfold lift_res. rewrite Hv, Hd. by eexists. }
  rewrite (move_run st this inp wd ws dst src samples p0 p1 v) by done.
  destruct (setitem_outcome dst (output <$> samples) p0 p1 v st)
    as [?|(n & mid & len & v' & al & rs & Hsh & Hrows & Hco & Hbr)]; [by left|].
  right. exists wd, ws, dst, src, v, n, mid, len, al, v', rs.
  split_and!; try done. by apply (setitem_run _ _ _ _ _ _ n).
Qed.

Lemma buffer_store_other st f b b' :
  b' ≠ b → buffer (set_buffers (alter f b) st) b' = buffer st b'.
Proof. intros Hb. unfold buffer. simpl. by rewrite list_lookup_alter_ne. Qed.

Lemma buffer_store st ws b :
  buffer (set_buffers (alter (write_all ws) b) st) b
  = write_all ws (buffer st b).
Proof.
  unfold buffer. simpl. rewrite list_lookup_alter_eq.
  destruct (buffers st !! b); simpl; [done|].
  symmetry. apply nil_length_inv. by rewrite length_write_all.
Qed.

Lemma read_store_notin st ws b c :
  c ∉ ws.*1 → read (set_buffers (alter (write_all ws) b) st) b c = read st b c.
Proof.
  intros Hc. unfold read. by rewrite buffer_store, write_all_lookup_notin.
Qed.

Lemma elem_of_row_stores a mid lo width v al k r w :
  w ∈ row_stores a mid lo width v al k r ↔
  ∃ m j, m ∈ indices mid ∧ j < width
    ∧ w = (cell a (r :: m ++ [lo + j]), value_item v al (k :: m ++ [j])).
Proof.
  unfold row_stores. rewrite list_elem_of_bind. split.
  - intros (m & Hw & Hm). apply list_elem_of_bind in Hw as (j & Hw & Hj).
    apply list_elem_of_singleton in Hw. apply elem_of_seq in Hj.
    exists m, j. split_and!; [done|lia|done].
  - intros (m & j & Hm & Hj & ->). exists m. split; [|done].
    apply list_elem_of_bind. exists j. split; [by apply list_elem_of_singleton|].
    apply elem_of_seq. lia.
Qed.

Lemma elem_of_stores a rows mid lo width v al w :
  w ∈ stores a rows mid lo width v al ↔
  ∃ k r, rows !! k = Some r ∧ w ∈ row_stores a mid lo width v al k r.
Proof.
  unfold stores. rewrite list_elem_of_bind. split.
  - intros (k & Hw & Hk). apply elem_of_seq in Hk.
    destruct (lookup_lt_is_Some_2 rows k) as [r Hr]; [lia|].
    rewrite Hr in Hw. by exists k, r.
  - intros (k & r & Hr & Hw). exists k. rewrite Hr. split; [done|].
    apply elem_of_seq. apply lookup_lt_Some in Hr. lia.
Qed.

(** Every store of [setitem] goes to a valid index of the array: a listed
    row, any middle index, and a last-axis entry of the slice. *)
Lemma stores_cells a rows mid p0 p1 v al n len c :
  shape a = n :: mid ++ [len] → Forall (λ r, r < n) rows →
  c ∈ (stores a rows mid (p0 `min` len) (p1 `min` len - p0 `min` len) v al).*1 →
  ∃ r m j, r ∈ rows ∧ p0 ≤ j < p1
    ∧ Forall2 lt (r :: m ++ [j]) (shape a)
    ∧ c = cell a (r :: m ++ [j]).
Proof.
  intros Hsh Hrows Hc.
  apply list_elem_of_fmap in Hc as ([c' x] & -> & Hw).
  apply elem_of_stores in Hw as (k & r & Hr & Hw).
  apply elem_of_row_stores in Hw as (m & j & Hm & Hj & [= -> ->]).
  exists r, m, (p0 `min` len + j). split_and!; try done; try lia.
  - apply list_elem_of_lookup. eauto.
  - rewrite Hsh. constructor.
    + eapply Forall_lookup_1 in Hrows; eauto.
    + apply Forall2_app; [by apply elem_of_indices|].
      constructor; [lia|constructor].
Qed.

(** C2 (amended). A successful [move_samples_from] changes nothing but
    the buffer of the destination array. Hence a source array that lies in
    another buffer is unchanged, and in a destination view whose cells are
    pairwise distinct, every row that no destination row of
    [sample_pairs] stands for is unchanged, as is every last-axis entry
    outside [property_start, property_end).  A destination row stands for
    a row of the array as [row_index] tells: for itself, or, from [2^63]
    on, for a row counted from the end of the first axis. *)
Theorem move_samples_from_frame st this inp wd ws dst src samples p0 p1 st' :
  objects st !! this = Some wd → array wd = Some dst →
  objects st !! inp = Some ws → array ws = Some src →
  _eqs_array_move_samples_from this inp samples p0 p1 st = (Ok tt, st') →
  (∃ f, st' = set_buffers (alter f (data dst)) st)
  ∧ (∀ b, b ≠ data dst → buffer st' b = buffer st b)
  ∧ (data src ≠ data dst →
       ravel st' src = ravel st src ∧ ∀ ix, item st' src ix = item st src ix)
  ∧ (NoDup (cells dst) → ∀ n rest r m j,
       shape dst = n :: rest →
       Forall2 lt (r :: m ++ [j]) (shape dst) →
       (∀ s, s ∈ samples → row_index n (output s) ≠ Some r) ∨ j < p0 ∨ p1 ≤ j →
       item st' dst (r :: m ++ [j]) = item st dst (r :: m ++ [j])).
Proof.
  intros Hwd Hd Hws Hs Hrun.
  destruct (move_outcome st this inp samples p0 p1)
    as [[e He]|(wd' & ws' & dst' & src' & v & n & mid & len & al & v' & rs
                & Hwd' & Hws' & Hd' & Hs' & Hv & Hsh & Hrows & Hco & Hbr & Heq)];
    [congruence|].
  assert (wd' = wd) as -> by congruence. assert (ws' = ws) as -> by congruence.
  assert (dst' = dst) as -> by congruence. assert (src' = src) as -> by congruence.
  rewrite Hrun in Heq. injection Heq as ->.
  split_and!.
  - by eexists.
  - intros b Hb. by apply buffer_store_other.
  - intros Hne. split.
    + apply ravel_ext; [|done]. by apply buffer_store_other.
    + intros ix. unfold item, read. by rewrite buffer_store_other.
  - intros Hnd n' rest r m j Hsh' Hix Hout. unfold item.
    apply read_store_notin. intros Hc.
    destruct (stores_cells _ _ _ _ _ _ _ _ _ _ Hsh (index_rows_lt _ _ _ _ Hrows) Hc)
      as (r' & m' & j' & Hr' & Hj' & Hix' & Hcell).
    pose proof (cell_inj _ _ _ Hnd Hix Hix' Hcell) as Hinj.
    injection Hinj as -> Htl. apply app_inj_tail in Htl as [-> ->].
    destruct Hout as [Hout|Hout]; [|lia].
    apply list_elem_of_lookup in Hr' as [k Hk].
    destruct (index_rows_lookup _ _ _ _ _ _ Hrows Hk) as (z & Hz & Hzr).
    rewrite list_lookup_fmap in Hz.
    destruct (samples !! k) as [s|] eqn:Hsk; [|done]. injection Hz as <-.
    apply (Hout s); [by eapply list_elem_of_lookup_2|].
    assert (n' = n) as -> by congruence. done.
Qed.

Lemma bind_singleton_fmap {A B} (f : A → B) (l : list A) :
  (x ← l; [f x]) = f <$> l.
Proof.
  induction l as [|x l IH]; [done|].
  change ((x :: l) ≫= λ x, [f x]) with ([f x] ++ (l ≫= λ x, [f x])).
  by rewrite IH.
Qed.

Lemma broadcast_same sh : broadcast sh sh = Some sh.
Proof.
  unfold broadcast. rewrite Nat.sub_diag, drop_0, Nat.sub_diag. simpl.
  rewrite bool_decide_true by done. simpl.
  assert (forallb (λ p : nat * nat, (p.1 =? 1) || (p.1 =? p.2)) (zip sh sh) = true)
    as ->; [|done].
  induction sh as [|d sh IH]; [done|]. simpl.
  by rewrite IH, Nat.eqb_refl, orb_true_r.
Qed.

Lemma source_index_valid al ix : Forall2 lt ix al → source_index al ix = ix.
Proof.
  unfold source_index. induction 1 as [|i d ix al Hi _ IH]; [done|]. simpl.
  rewrite IH. destruct (d =? 1) eqn:Hd; [|done].
  apply Nat.eqb_eq in Hd. f_equal. lia.
Qed.

(** The element of an indexing result [a[rows, ..., :]] at a valid index,
    after a conversion [f] of its elements. *)
Lemma getitem_value_item st a rows rest k r ix bk dt f :
  rows !! k = Some r → Forall2 lt ix rest →
  value_item {| v_backend := bk; v_dtype := dt;
                v_shape := length rows :: rest;
                v_data := f <$> v_data (take st a rows rest) |}
    (length rows :: rest) (k :: ix)
  = f (item st a (r :: ix)).
Proof.
  intros Hk Hix. unfold value_item. cbn [v_data take].
  rewrite (source_index_valid (length rows :: rest) (k :: ix)).
  2:{ constructor; [by eapply lookup_lt_Some|done]. }
  cbn [c_strides dot]. rewrite list_lookup_fmap.
  rewrite (lookup_bind_blocks _ _ (list_prod rest)).
  - rewrite Hk. simpl. rewrite bind_singleton_fmap, list_lookup_fmap.
    by rewrite indices_lookup_dot.
  - intros x _. by rewrite bind_singleton_fmap, length_fmap, length_indices.
  - by apply dot_c_strides_lt.
Qed.

(** The value a sequence of stores leaves in a cell, when all stores to
    that cell carry the same value. *)
Lemma write_all_lookup_agree ws buf c x :
  (c, x) ∈ ws → (∀ x', (c, x') ∈ ws → x' = x) → c < length buf →
  write_all ws buf !! c = Some x.
Proof.
  revert buf. induction ws as [|[c' x'] ws IH]; intros buf Hin Hag Hlt.
  { by apply elem_of_nil in Hin. }
  change (write_all ((c', x') :: ws) buf) with (write_all ws (<[c' := x']> buf)).
  destruct (decide (c ∈ ws.*1)) as [Hc|Hc].
  - apply list_elem_of_fmap in Hc as ([c0 x0] & Heq & Hc). simpl in Heq. subst c0.
    assert (x0 = x) as -> by (apply Hag; by right).
    apply IH; [done| |by rewrite length_insert].
    intros x'' Hx''. apply Hag. by right.
  - rewrite write_all_lookup_notin by done.
    apply elem_of_cons in Hin as [[= <- <-]|Hin].
    + by apply list_lookup_insert_eq.
    + destruct Hc. apply list_elem_of_fmap. by exists (c, x).
Qed.

Lemma stores_split a rows mid lo width v al k r :
  rows !! k = Some r →
  stores a rows mid lo width v al
  = (k' ← seq 0 k; row_stores a mid lo width v al k' (default 0 (rows !! k')))
    ++ row_stores a mid lo width v al k r
    ++ (k' ← seq (S k) (length rows - S k);
        row_stores a mid lo width v al k' (default 0 (rows !! k'))).
Proof.
  intros Hk. pose proof (lookup_lt_Some _ _ _ Hk) as Hlt. unfold stores.
  replace (length rows) with (k + (1 + (length rows - S k))) at 1 by lia.
  rewrite !seq_app, !bind_app. simpl.
  by rewrite Hk, app_nil_r, Nat.add_1_r.
Qed.

Lemma valid_index n mid len r m j :
  r < n → m ∈ indices mid → j < len →
  Forall2 lt (r :: m ++ [j]) (n :: mid ++ [len]).
Proof.
  intros Hr Hm Hj. constructor; [done|].
  apply Forall2_app; [by apply elem_of_indices|]. by repeat constructor.
Qed.

(** After the stores of [setitem], a cell of a destination row that no
    later row of the list names again holds the value stored for it. *)
Lemma stores_lookup a rows mid lo width v al n len buf k r m j :
  shape a = n :: mid ++ [len] → Forall (λ r, r < n) rows →
  lo + width ≤ len → NoDup (cells a) →
  rows !! k = Some r →
  (∀ k' r', k < k' → rows !! k' = Some r' → r' ≠ r) →
  m ∈ indices mid → j < width →
  cell a (r :: m ++ [lo + j]) < length buf →
  write_all (stores a rows mid lo width v al) buf
    !! cell a (r :: m ++ [lo + j])
  = Some (value_item v al (k :: m ++ [j])).
Proof.
  intros Hsh Hrows Hw Hnd Hk Hlast Hm Hj Hlt.
  assert (r < n) as Hr by (eapply Forall_lookup_1 in Hrows; eauto).
  assert (Forall2 lt (r :: m ++ [lo + j]) (shape a)) as Hix.
  { rewrite Hsh. apply valid_index; [done..|lia]. }
  rewrite (stores_split _ _ _ _ _ _ _ _ _ Hk), !write_all_app.
  rewrite write_all_lookup_notin.
  - apply write_all_lookup_agree.
    + apply elem_of_row_stores. by exists m, j.
    + intros x' Hx'.
      apply elem_of_row_stores in Hx' as (m' & j' & Hm' & Hj' & [= Hc ->]).
      assert (Forall2 lt (r :: m' ++ [lo + j']) (shape a)) as Hix'.
      { rewrite Hsh. apply valid_index; [done..|lia]. }
      pose proof (cell_inj _ _ _ Hnd Hix Hix' Hc) as Hinj.
      injection Hinj as Htl. apply app_inj_tail in Htl as [-> Hjj].
      by replace j' with j by lia.
    + by rewrite length_write_all.
  - intros Hc. apply list_elem_of_fmap in Hc as ([c' x'] & Hc & Hin).
    simpl in Hc. subst c'.
    apply list_elem_of_bind in Hin as (k' & Hin & Hk').
    apply elem_of_seq in Hk'.
    destruct (lookup_lt_is_Some_2 rows k') as [r' Hr']; [lia|].
    rewrite Hr' in Hin.
    apply elem_of_row_stores in Hin as (m' & j' & Hm' & Hj' & [= Hc ->]).
    assert (r' < n) as Hrn by (eapply Forall_lookup_1 in Hrows; eauto).
    assert (Forall2 lt (r' :: m' ++ [lo + j']) (shape a)) as Hix'.
    { rewrite Hsh. apply valid_index; [done..|lia]. }
    pose proof (cell_inj _ _ _ Hnd Hix Hix' Hc) as Hinj.
    injection Hinj as -> _. apply (Hlast k' r'); [lia|done..].
Qed.

(** The sample move, for arrays of matching middle axes whose libraries
    go together: the whole last axis of each source row goes, converted
    to the element type of the destination, to the entries
    [property_start, property_end) of its destination row. *)
Lemma move_rows st this inp wd ws dst src samples p0 p1 n_d n_s mid len
    rs_in rs_out :
  objects st !! this = Some wd → array wd = Some dst →
  objects st !! inp = Some ws → array ws = Some src →
  shape dst = n_d :: mid ++ [len] →
  shape src = n_s :: mid ++ [p1 - p0] →
  p0 ≤ p1 ≤ len →
  index_rows (backend src) n_s (input <$> samples) = Ok rs_in →
  index_rows (backend dst) n_d (output <$> samples) = Ok rs_out →
  accepts (backend dst) (dtype dst) (backend src) (dtype src) = Ok tt →
  view_ok st dst →
  ∃ st',
    _eqs_array_move_samples_from this inp samples p0 p1 st = (Ok tt, st')
    ∧ ∀ k ri ro, rs_in !! k = Some ri → rs_out !! k = Some ro →
        (∀ k' ro', k < k' → rs_out !! k' = Some ro' → ro' ≠ ro) →
        ∀ m j, m ∈ indices mid → j < p1 - p0 →
          item st' dst (ro :: m ++ [p0 + j])
          = convert (dtype src) (dtype dst) (item st src (ri :: m ++ [j])).
Proof.
  intros Hwd Hd Hws Hs Hshd Hshs Hp Hin_rows Hout_rows Hacc [Hnd Hin].
  pose proof (index_rows_lt _ _ _ _ Hout_rows) as Hrout.
  pose proof (index_rows_length _ _ _ _ Hin_rows) as Hlin.
  pose proof (index_rows_length _ _ _ _ Hout_rows) as Hlout.
  rewrite length_fmap in Hlin, Hlout.
  assert (mid ++ [p1 - p0] ≠ []) as Hne by (by destruct mid).
  pose proof (getitem_run st src _ _ _ _ Hshs Hne Hin_rows) as Hv.
  set (v := take st src rs_in (mid ++ [p1 - p0])) in Hv.
  set (v' := {| v_backend := v_backend v; v_dtype := dtype dst;
                v_shape := v_shape v;
                v_data := convert (v_dtype v) (dtype dst) <$> v_data v |}).
  assert (coerce dst v = Ok v') as Hco.
  { unfold coerce. subst v. cbn [v_backend v_dtype take]. by rewrite Hacc. }
  assert (p1 `min` len - p0 `min` len = p1 - p0) as Hwidth by lia.
  assert (p0 `min` len = p0) as Hlo by lia.
  assert (broadcast (v_shape v')
            (length (output <$> samples)
               :: mid ++ [p1 `min` len - p0 `min` len])
          = Some (length rs_in :: mid ++ [p1 - p0])) as Hbr.
  { rewrite Hwidth, length_fmap. subst v' v. cbn [v_shape take].
    rewrite Hlin. apply broadcast_same. }
  eexists. split.
  { rewrite (move_run st this inp wd ws dst src samples p0 p1 v) by done.
    by apply (setitem_run _ _ _ _ _ _ n_d mid len v'
                (length rs_in :: mid ++ [p1 - p0]) rs_out). }
  intros k ri ro Hki Hko Hlast m j Hm Hj.
  rewrite Hwidth, Hlo. unfold item at 1, read. rewrite buffer_store.
  rewrite (stores_lookup _ _ _ _ _ _ _ n_d len _ k ro); try done.
  - cbn [default].
    apply (getitem_value_item st src rs_in (mid ++ [p1 - p0]) k ri (m ++ [j]));
      [done|].
    apply Forall2_app; [by apply elem_of_indices|]. by repeat constructor.
  - lia.
  - eapply Forall_forall in Hin; [done|]. apply cell_in_cells.
    rewrite Hshd. apply valid_index; [|done|lia].
    eapply Forall_lookup_1 in Hrout; [|done]. done.
Qed.

(** C1 (amended). For live destination and source arrays of the same
    library and device and of the same element type, with the same middle
    axes, a source whose last axis has exactly
    [property_end - property_start] entries, a range inside the
    destination's last axis, rows that the library finds in the arrays
    ([rs_in] and [rs_out] are the source and destination rows the pairs
    stand for), and a destination view of pairwise distinct cells inside
    its buffer: the call succeeds, and for every pair whose destination
    row no later pair names again, [dst[dr, ..., p0:p1]] after the call is
    [src[sr, ..., :]] before it, the whole last axis of the source row.
    Rows below the lengths of the first axes stand for themselves
    ([index_rows_in_range]). *)
Theorem move_samples_from_rows st this inp wd ws dst src samples p0 p1
    n_d n_s mid len rs_in rs_out :
  objects st !! this = Some wd → array wd = Some dst →
  objects st !! inp = Some ws → array ws = Some src →
  backend src = backend dst →
  dtype src = dtype dst →
  shape dst = n_d :: mid ++ [len] →
  shape src = n_s :: mid ++ [p1 - p0] →
  p0 ≤ p1 ≤ len →
  index_rows (backend src) n_s (input <$> samples) = Ok rs_in →
  index_rows (backend dst) n_d (output <$> samples) = Ok rs_out →
  view_ok st dst →
  ∃ st',
    _eqs_array_move_samples_from this inp samples p0 p1 st = (Ok tt, st')
    ∧ ∀ k ri ro, rs_in !! k = Some ri → rs_out !! k = Some ro →
        (∀ k' ro', k < k' → rs_out !! k' = Some ro' → ro' ≠ ro) →
        ∀ m j, m ∈ indices mid → j < p1 - p0 →
          item st' dst (ro :: m ++ [p0 + j])
          = item st src (ri :: m ++ [j]).
Proof.
  intros Hwd Hd Hws Hs Hb Hdt Hshd Hshs Hp Hri Hro Hok.
  destruct (move_rows st this inp wd ws dst src samples p0 p1 n_d n_s mid len
              rs_in rs_out) as (st' & Hrun & Hrows); try done.
  { rewrite Hb, Hdt. apply accepts_same. }
  exists st'. split; [done|]. intros k ri ro Hki Hko Hlast m j Hm Hj.
  rewrite (Hrows k ri ro) by done. rewrite Hdt. apply convert_same.
Qed.

Lemma view_ok_scenario_destination width :
  view_ok (scenario_state width) (row_major Numpy 1 [4; 2; 5]).
Proof. apply view_ok_contiguous; [done|]. unfold array_size. simpl. lia. Qed.

(** ** Origins play no part in a sample move *)

Lemma setitem_set_objects f a rows p0 p1 v st :
  setitem a rows p0 p1 v (set_objects f st)
  = ((setitem a rows p0 p1 v st).1, set_objects f (setitem a rows p0 p1 v st).2).
Proof.
  unfold setitem. destruct (shape a) as [|n [|d rest]]; [done..|].
  unfold mbind, M_bind, lift_res. destruct (coerce a v) as [v'|e]; [|done].
  destruct (broadcast _ _); [|done].
  by destruct (index_rows _ _ rows).
Qed.

Lemma getitem_set_objects f st a rows :
  getitem (set_objects f st) a rows = getitem st a rows.
Proof. done. Qed.

Lemma move_relabel o st this inp samples p0 p1 :
  _eqs_array_move_samples_from this inp samples p0 p1 (relabel o st)
  = ((_eqs_array_move_samples_from this inp samples p0 p1 st).1,
     relabel o (_eqs_array_move_samples_from this inp samples p0 p1 st).2).
Proof.
  unfold relabel, _eqs_array_move_samples_from, _object_from_ptr, mbind, M_bind,
    get_state, lift_res.
  cbn [objects set_objects]. rewrite list_lookup_fmap.
  destruct (objects st !! inp) as [ws|]; [|done].
  cbn [fmap option_fmap option_map objects set_objects].
  rewrite list_lookup_fmap.
  destruct (objects st !! this) as [wd|]; [|done].
  cbn [fmap option_fmap option_map array set_origin].
  destruct (array ws) as [src|]; [|done].
  rewrite getitem_set_objects.
  destruct (getitem st src (input <$> samples)) as [v|e]; [|done].
  destruct (array wd) as [dst|]; [|done].
  apply setitem_set_objects.
Qed.

(** A value the library of the destination refuses makes the call fail
    with the library's exception, whatever the rows and the range are. *)
Lemma move_refused st this inp wd ws dst src samples p0 p1 v n_d mid len e :
  objects st !! this = Some wd → array wd = Some dst →
  objects st !! inp = Some ws → array ws = Some src →
  getitem st src (input <$> samples) = Ok v →
  shape dst = n_d :: mid ++ [len] →
  accepts (backend dst) (dtype dst) (backend src) (dtype src) = Raise e →
  _eqs_array_move_samples_from this inp samples p0 p1 st = (Raise e, st).
Proof.
  intros Hwd Hd Hws Hs Hv Hsh Hacc.
  rewrite (move_run st this inp wd ws dst src samples p0 p1 v) by done.
  apply getitem_Ok in Hv as (n & rest & rs & _ & _ & _ & ->).
  unfold setitem. rewrite Hsh.
  assert (∃ d rest', mid ++ [len] = d :: rest') as (d & rest' & ->).
  { destruct mid; simpl; eauto. }
  unfold mbind, M_bind, lift_res, coerce. cbn [v_backend v_dtype take].
  by rewrite Hacc.
Qed.

(** C3 (amended). [move_samples_from] makes no origin check. For live
    arrays whose origins differ: the outcome of the call is the same
    whatever the origins of the wrappers are; a call that fails leaves the
    whole state, the destination included, as it was; when the source rows
    can be read and the destination has two axes or more, the call fails
    with a [TypeError] for a tensor as destination and an [ndarray] as
    source, and for an [ndarray] as destination and a tensor outside host
    memory as source, and with a [RuntimeError] for a tensor as
    destination and a tensor of another device as source; but a numpy
    destination takes a tensor held in host memory, and with matching
    shapes and rows found in the arrays the call then succeeds and writes
    the destination rows like a move between arrays of one origin, with
    the elements converted to the element type of the destination (which
    leaves elements of that type as they are). *)
Theorem move_samples_from_origin_unchecked st this inp wd ws dst src samples
    p0 p1 :
  objects st !! this = Some wd → array wd = Some dst →
  objects st !! inp = Some ws → array ws = Some src →
  array_origin wd ≠ array_origin ws →
  (∀ o, _eqs_array_move_samples_from this inp samples p0 p1 (relabel o st)
        = ((_eqs_array_move_samples_from this inp samples p0 p1 st).1,
           relabel o (_eqs_array_move_samples_from this inp samples p0 p1 st).2))
  ∧ (∀ e st', _eqs_array_move_samples_from this inp samples p0 p1 st
              = (Raise e, st') → st' = st)
  ∧ (∀ v n_d mid len,
       getitem st src (input <$> samples) = Ok v →
       shape dst = n_d :: mid ++ [len] →
       (∀ dev, backend dst = Torch dev → backend src = Numpy →
          _eqs_array_move_samples_from this inp samples p0 p1 st
          = (Raise TypeError, st))
       ∧ (∀ dev dev', backend dst = Torch dev → backend src = Torch dev' →
            dev' ≠ dev →
            _eqs_array_move_samples_from this inp samples p0 p1 st
            = (Raise RuntimeError, st))
       ∧ (∀ dev', backend dst = Numpy → backend src = Torch dev' →
            dev' ≠ Cpu →
            _eqs_array_move_samples_from this inp samples p0 p1 st
            = (Raise TypeError, st)))
  ∧ (backend dst = Numpy → backend src = Torch Cpu →
     ∀ n_d n_s mid len rs_in rs_out,
       shape dst = n_d :: mid ++ [len] →
       shape src = n_s :: mid ++ [p1 - p0] →
       p0 ≤ p1 ≤ len →
       index_rows (backend src) n_s (input <$> samples) = Ok rs_in →
       index_rows (backend dst) n_d (output <$> samples) = Ok rs_out →
       view_ok st dst →
       ∃ st',
         _eqs_array_move_samples_from this inp samples p0 p1 st = (Ok tt, st')
         ∧ ∀ k ri ro, rs_in !! k = Some ri → rs_out !! k = Some ro →
             (∀ k' ro', k < k' → rs_out !! k' = Some ro' → ro' ≠ ro) →
             ∀ m j, m ∈ indices mid → j < p1 - p0 →
               item st' dst (ro :: m ++ [p0 + j])
               = convert (dtype src) (dtype dst) (item st src (ri :: m ++ [j]))
               ∧ (dtype src = dtype dst →
                  item st' dst (ro :: m ++ [p0 + j])
                  = item st src (ri :: m ++ [j]))).
Proof.
  intros Hwd Hd Hws Hs _. split_and!.
  - intros o. apply move_relabel.
  - intros e st' Hrun.
    destruct (move_outcome st this inp samples p0 p1)
      as [[e' He]|(? & ? & ? & ? & ? & ? & ? & ? & ? & ? & ? & H)];
      [congruence|].
    destruct H as (_ & _ & _ & _ & _ & _ & _ & _ & _ & Heq). congruence.
  - intros v n_d mid len Hv Hsh. split_and!.
    + intros dev Hbd Hbs.
      apply (move_refused st this inp wd ws dst src samples p0 p1 v n_d mid len);
        try done.
      by rewrite Hbd, Hbs.
    + intros dev dev' Hbd Hbs Hdev.
      apply (move_refused st this inp wd ws dst src samples p0 p1 v n_d mid len);
        try done.
      rewrite Hbd, Hbs. simpl. by rewrite bool_decide_false.
    + intros dev' Hbd Hbs Hdev.
      apply (move_refused st this inp wd ws dst src samples p0 p1 v n_d mid len);
        try done.
      rewrite Hbd, Hbs. simpl. by rewrite bool_decide_false.
  - intros Hbd Hbs n_d n_s mid len rs_in rs_out Hshd Hshs Hp Hri Hro Hok.
    destruct (move_rows st this inp wd ws dst src samples p0 p1 n_d n_s mid len
                rs_in rs_out) as (st' & Hrun & Hrows); try done.
    { by rewrite Hbd, Hbs. }
    exists st'. split; [done|]. intros k ri ro Hki Hko Hlast m j Hm Hj.
    pose proof (Hrows k ri ro Hki Hko Hlast m j Hm Hj) as Hitem.
    split; [done|]. intros Hdt. rewrite Hitem, Hdt. apply convert_same.
Qed.

Lemma view_ok_mixed_destination :
  view_ok mixed_state (row_major Numpy 1 [2; 2]).
Proof. apply view_ok_contiguous; [done|]. unfold array_size. simpl. lia. Qed.

(** ** The invariants of the wrappers *)

Lemma bridge_inv_split st : bridge_inv st ↔ shape_inv st ∧ origin_inv st.
Proof.
  unfold bridge_inv, wrapper_ok, shape_inv, origin_inv. split.
  - intros H. split; intros p w a Hw Ha; destruct (H p w Hw a Ha) as (?&?&?); done.
  - intros [H1 H2] p w Hw a Ha. destruct (H2 p w a Hw Ha). split_and!; eauto.
Qed.

Lemma extends_refl st : extends st st.
Proof. by split. Qed.

Lemma extends_exec rv c st : extends st (exec rv c st).2.
Proof.
  split; [apply has_torch_exec|]. intros bk o. apply cached_origin_exec.
Qed.

Lemma wrapper_ok_extends st st' w :
  extends st st' → wrapper_ok st w → wrapper_ok st' w.
Proof.
  intros [Ht Hc] Hw a Ha. destruct (Hw a Ha) as (? & ? & ?).
  split_and!; [done|by apply Hc|]. rewrite Ht. auto.
Qed.

(** The invariant holds after a step in which every wrapper is either an
    old one or satisfies it by itself. *)
Lemma bridge_inv_step st st' :
  extends st st' → bridge_inv st →
  (∀ p w, objects st' !! p = Some w →
     objects st !! p = Some w ∨ wrapper_ok st' w) →
  bridge_inv st'.
Proof.
  intros Hext Hinv Hobj p w Hw. destruct (Hobj p w Hw) as [Hold|Hok]; [|done].
  eapply wrapper_ok_extends; [done|]. by apply (Hinv p).
Qed.

Lemma lookup_alter_cases {A} (f : A → A) (l : list A) p q w :
  alter f p l !! q = Some w →
  l !! q = Some w ∨ (q = p ∧ ∃ w0, l !! p = Some w0 ∧ w = f w0).
Proof.
  destruct (decide (p = q)) as [<-|Hne].
  - rewrite list_lookup_alter_eq. destruct (l !! p) as [w0|]; [|done].
    intros [= <-]. right. eauto.
  - rewrite list_lookup_alter_ne by done. auto.
Qed.

Lemma lookup_snoc_cases {A} (l : list A) x q w :
  (l ++ [x]) !! q = Some w → l !! q = Some w ∨ (q = length l ∧ w = x).
Proof.
  intros H. apply lookup_app_Some in H as [H|[Hge H]]; [by left|right].
  apply list_lookup_singleton_Some in H as [Hq ->]. split; [lia|done].
Qed.

(** *** What each callback leaves behind *)

Lemma reshape_outcome rv this sh st :
  (∃ e, _eqs_array_reshape rv this sh st = (Raise e, st))
  ∨ (∃ w a a' st1,
       objects st !! this = Some w ∧ array w = Some a
       ∧ ndarray_reshape rv a sh st = (Ok a', st1)
       ∧ shape a' = sh ∧ backend a' = backend a
       ∧ objects st1 = objects st
       ∧ ((st1 = st ∧ data a' = data a)
          ∨ (st1 = set_buffers (λ bs, bs ++ [ravel st a]) st
             ∧ data a' = length (buffers st)))
       ∧ _eqs_array_reshape rv this sh st
         = (Ok tt, set_objects (alter (set_shape sh ∘ set_array (Some a')) this) st1)).
Proof.
  destruct (objects st !! this) as [w|] eqn:Hw.
  2:{ left. unfold _eqs_array_reshape, mbind, M_bind, _object_from_ptr.
      rewrite Hw. by eexists. }
  destruct (array w) as [a|] eqn:Ha.
  2:{ left. unfold _eqs_array_reshape, mbind, M_bind, _object_from_ptr.
      rewrite Hw. unfold array_attr. rewrite Ha. by eexists. }
  destruct (decide (list_prod sh = array_size a)) as [Hp|Hp].
  - destruct (ndarray_reshape_ok rv a sh st Hp)
      as (a' & st1 & Hr & Hsh & Hb & _ & Ho & Hst & _).
    right. exists w, a, a', st1. split_and!; try done.
    by apply (reshape_run _ _ _ _ w a).
  - left. eexists. by apply (reshape_run_fail _ _ _ _ w a).
Qed.

Lemma swap_axes_outcome this i j st :
  (∃ e, _eqs_array_swap_axes this i j st = (Raise e, st))
  ∨ (∃ w a a',
       objects st !! this = Some w ∧ array w = Some a
       ∧ backend a' = backend a ∧ data a' = data a
       ∧ _eqs_array_swap_axes this i j st
         = (Ok tt, set_objects
              (alter (set_shape (shape a') ∘ set_array (Some a')) this) st)).
Proof.
  unfold _eqs_array_swap_axes, mbind, M_bind, _object_from_ptr.
  destruct (objects st !! this) as [w|] eqn:Hw; [|left; by eexists].
  unfold array_attr. destruct (array w) as [a|] eqn:Ha; [|left; by eexists].
  unfold mret, M_ret, ndarray_swapaxes.
  case_bool_decide; [|left; by eexists].
  right.
  exists w, a, (with_layout a (data a) (offset a) (swap i j (shape a))
                  (swap i j (strides a))).
  split_and!; try done.
  unfold update_object, modify. simpl. rewrite set_objects_compose. f_equal.
  apply set_objects_ext. simpl. by rewrite list_alter_alter_eq.
Qed.

Lemma destroy_outcome this st :
  (∃ e, _eqs_array_destroy this st = (Raise e, st))
  ∨ _eqs_array_destroy this st
    = (Ok tt, set_objects (alter (set_array None) this) st).
Proof.
  unfold _eqs_array_destroy, mbind, M_bind, _object_from_ptr.
  destruct (objects st !! this) as [w|] eqn:Hw; [by right|left; by eexists].
Qed.

Lemma known_backend st st' a c :
  backend c = backend a → HAS_TORCH st' = HAS_TORCH st →
  known st' c = known st a.
Proof.
  intros Hb Ht. unfold known, _is_numpy_array, _is_torch_array.
  by rewrite Hb, Ht.
Qed.

Lemma init_outcome obj st :
  (∃ e, ArrayWrapper_init obj st = (Raise e, st))
  ∨ (∃ a, obj = Array a ∧ known st a = true
       ∧ ArrayWrapper_init obj st
         = (Ok (length (objects st)),
            set_objects (λ os, os ++ [child_of (origin_of (backend a) st).2 a])
              (origin_of (backend a) st).2)).
Proof.
  destruct obj as [a|[|]]; [|left; by eexists..].
  destruct (known st a) eqn:Hk.
  - right. exists a. split_and!; try done. by apply init_known.
  - left. eexists. by apply init_unknown.
Qed.

Lemma create_outcome this sh st :
  (∃ e, _eqs_array_create this sh st = (Raise e, st))
  ∨ (∃ w a,
       objects st !! this = Some w ∧ array w = Some a ∧ known st a = true
       ∧ _eqs_array_create this sh st
         = (Ok (length (objects st)),
            set_objects (λ os, alter (add_child (length (objects st))) this
                (os ++ [child_of (origin_of (backend a) st).2 (created st a sh)]))
              (set_buffers (λ bs, bs ++ [replicate (list_prod sh) 0%Z])
                 (origin_of (backend a) st).2))).
Proof.
  destruct (objects st !! this) as [w|] eqn:Hw.
  2:{ left. apply create_fails. intros. congruence. }
  destruct (array w) as [a|] eqn:Ha.
  2:{ left. apply create_fails. intros. congruence. }
  destruct (known st a) eqn:Hk.
  - right. exists w, a. split_and!; try done.
    by apply (create_run st this w a sh).
  - left. apply create_fails. intros w' a' Hw' Ha'. congruence.
Qed.

Lemma copy_ok this st w a :
  objects st !! this = Some w → array w = Some a → known st a = true →
  ∃ c l,
    copied st a = (Ok c, set_buffers (λ bs, bs ++ [l]) st)
    ∧ backend c = backend a ∧ shape c = shape a
    ∧ data c = length (buffers st)
    ∧ ravel (set_buffers (λ bs, bs ++ [l]) st) c = ravel st a
    ∧ _eqs_array_copy this st
      = (Ok (length (objects st)),
         set_objects (λ os, os ++ [child_of (origin_of (backend a) st).2 c])
           (set_buffers (λ bs, bs ++ [l]) (origin_of (backend a) st).2)).
Proof.
  intros Hw Ha Hk.
  destruct (copied_spec st a) as (c & l & Hc & Hb & _ & Hsh & Hdc & Hr & _).
  exists c, l. split_and!; try done.
  rewrite (copy_run st this w a c _ Hw Ha Hk Hc).
  rewrite init_known by (by rewrite (known_backend st _ a c)).
  rewrite Hb, origin_of_set_buffers. simpl. unfold child_of.
  rewrite Hb. done.
Qed.

Lemma copy_outcome this st :
  (∃ e, _eqs_array_copy this st = (Raise e, st))
  ∨ (∃ w a c l,
       objects st !! this = Some w ∧ array w = Some a ∧ known st a = true
       ∧ copied st a = (Ok c, set_buffers (λ bs, bs ++ [l]) st)
       ∧ backend c = backend a ∧ shape c = shape a
       ∧ data c = length (buffers st)
       ∧ ravel (set_buffers (λ bs, bs ++ [l]) st) c = ravel st a
       ∧ _eqs_array_copy this st
         = (Ok (length (objects st)),
            set_objects (λ os, os ++ [child_of (origin_of (backend a) st).2 c])
              (set_buffers (λ bs, bs ++ [l]) (origin_of (backend a) st).2))).
Proof.
  destruct (objects st !! this) as [w|] eqn:Hw.
  2:{ left. apply copy_fails. intros. congruence. }
  destruct (array w) as [a|] eqn:Ha.
  2:{ left. apply copy_fails. intros. congruence. }
  destruct (known st a) eqn:Hk.
  2:{ left. apply copy_fails. intros w' a' Hw' Ha'. congruence. }
  destruct (copy_ok this st w a Hw Ha Hk) as (c & l & ? & ? & ? & ? & ? & ?).
  right. exists w, a, c, l. by split_and!.
Qed.

Lemma ignore_snd {A} (m : M A) st : (ignore m st).2 = (m st).2.
Proof. unfold ignore, mbind, M_bind. by destruct (m st) as [[?|?] ?]. Qed.

Lemma origin_call_state this st : (eqs_array_origin this st).2 = st.
Proof.
  unfold eqs_array_origin, mbind, M_bind, _object_from_ptr.
  by destruct (objects st !! this).
Qed.

Lemma shape_call_state this st : (_eqs_array_shape this st).2 = st.
Proof.
  unfold _eqs_array_shape, mbind, M_bind, _object_from_ptr.
  by destruct (objects st !! this).
Qed.

Lemma child_of_ok st st' a c :
  known st a = true → backend c = backend a →
  extends (origin_of (backend a) st).2 st' →
  wrapper_ok st' (child_of (origin_of (backend a) st).2 c).
Proof.
  intros Hk Hb [Ht Hc] c' [= <-].
  destruct (origin_of_spec (backend a) st) as (o & st1 & Heq & Hco & _ & _ & Ht1 & _).
  rewrite Heq in *. simpl in *. rewrite Hb, Hco. simpl. split_and!; [done|auto|].
  intros Hn. rewrite Ht, Ht1.
  unfold known, _is_numpy_array, _is_torch_array in Hk.
  destruct (backend a); [done|]. by destruct (HAS_TORCH st).
Qed.

(** Every wrapper found after a call is one that was there before, or
    satisfies the invariant in the new state. *)
Lemma exec_objects rv c st p w :
  bridge_inv st →
  objects (exec rv c st).2 !! p = Some w →
  objects st !! p = Some w ∨ wrapper_ok (exec rv c st).2 w.
Proof.
  intros Hinv.
  pose proof (extends_exec rv c st) as Hext.
  assert (∀ q w0, objects st !! q = Some w0 → wrapper_ok (exec rv c st).2 w0)
    as Hold.
  { intros q w0 Hq. eapply wrapper_ok_extends; [done|]. by apply (Hinv q). }
  destruct c as [obj|this|this|this sh|this i j|this sh|this|this
                 |this inp samples p0 p1]; cbn [exec] in *.
  - rewrite ignore_snd in *.
    destruct (init_outcome obj st) as [[e He]|(a & -> & Hk & He)];
      rewrite He in *; simpl in *; [by left|].
    destruct (origin_of_spec (backend a) st) as (o & st1 & Heq & _ & _ & Ho & _).
    pose proof (λ st', child_of_ok st st' a a Hk eq_refl) as Hc.
    rewrite Heq in *. simpl in *. rewrite Ho.
    intros [?|[_ ->]]%lookup_snoc_cases; [by left|right].
    apply Hc. by split.
  - rewrite ignore_snd, origin_call_state. by left.
  - rewrite ignore_snd, shape_call_state. by left.
  - destruct (reshape_outcome rv this sh st)
      as [[e He]|(w0 & a & a' & st1 & Hw & Ha & _ & Hsh & Hb & Ho & _ & He)];
      rewrite He in *; simpl in *; [by left|].
    rewrite Ho.
    intros [?|(-> & w1 & Hw1 & ->)]%lookup_alter_cases; [by left|right].
    assert (w1 = w0) as -> by congruence.
    intros a0 [= <-]. simpl. destruct (Hold _ _ Hw a Ha) as (_ & Hc & Ht).
    rewrite Hb. by split_and!.
  - destruct (swap_axes_outcome this i j st)
      as [[e He]|(w0 & a & a' & Hw & Ha & Hb & _ & He)];
      rewrite He in *; simpl in *; [by left|].
    intros [?|(-> & w1 & Hw1 & ->)]%lookup_alter_cases; [by left|right].
    assert (w1 = w0) as -> by congruence.
    intros a0 [= <-]. simpl. destruct (Hold _ _ Hw a Ha) as (_ & Hc & Ht).
    rewrite Hb. by split_and!.
  - rewrite ignore_snd in *.
    destruct (create_outcome this sh st) as [[e He]|(w0 & a & Hw & Ha & Hk & He)];
      rewrite He in *; simpl in *; [by left|].
    destruct (origin_of_spec (backend a) st) as (o & st1 & Heq & _ & _ & Ho & _).
    pose proof (λ st', child_of_ok st st' a (created st a sh) Hk eq_refl) as Hc.
    rewrite Heq in *. simpl in *. rewrite Ho.
    assert (wrapper_ok
              (set_objects
                 (λ os, alter (add_child (length (objects st))) this
                          (os ++ [child_of st1 (created st a sh)]))
                 (set_buffers (λ bs, bs ++ [replicate (list_prod sh) 0%Z]) st1))
              (child_of st1 (created st a sh))) as Hchild.
    { apply Hc. by split. }
    intros [Hq|(-> & w1 & Hw1 & ->)]%lookup_alter_cases.
    + apply lookup_snoc_cases in Hq as [?|[_ ->]]; [by left|by right].
    + right. apply lookup_snoc_cases in Hw1 as [Hw1|[_ ->]].
      * intros a0 Ha0. simpl in *. by apply (Hold _ _ Hw1 a0).
      * intros a0 Ha0. simpl in *. by apply (Hchild a0).
  - rewrite ignore_snd in *.
    destruct (copy_outcome this st)
      as [[e He]|(w0 & a & c & l & Hw & Ha & Hk & _ & Hb & _ & _ & _ & He)];
      rewrite He in *; simpl in *; [by left|].
    destruct (origin_of_spec (backend a) st) as (o & st1 & Heq & _ & _ & Ho & _).
    pose proof (λ st', child_of_ok st st' a c Hk Hb) as Hc.
    rewrite Heq in *. simpl in *. rewrite Ho.
    intros [?|[_ ->]]%lookup_snoc_cases; [by left|right].
    apply Hc. by split.
  - destruct (destroy_outcome this st) as [[e He]|He];
      rewrite He in *; simpl in *; [by left|].
    intros [?|(-> & w1 & Hw1 & ->)]%lookup_alter_cases; [by left|right].
    by intros a0.
  - destruct (move_outcome st this inp samples p0 p1)
      as [[e He]|(? & ? & ? & ? & ? & ? & ? & ? & ? & ? & ? & H)].
    + rewrite He. by left.
    + destruct H as (_ & _ & _ & _ & _ & _ & _ & _ & _ & He). rewrite He.
      by left.
Qed.

Lemma bridge_inv_exec rv c st : bridge_inv st → bridge_inv (exec rv c st).2.
Proof.
  intros Hinv. apply (bridge_inv_step st); [apply extends_exec|done|].
  intros p w. by apply exec_objects.
Qed.

Lemma bridge_inv_run rv cs st : bridge_inv st → bridge_inv (run rv cs st).
Proof.
  revert st. induction cs as [|c cs IH]; intros st Hst; [done|].
  apply IH. by apply bridge_inv_exec.
Qed.

Lemma bridge_inv_initial has_torch : bridge_inv (initial has_torch).
Proof. by intros p w. Qed.

(** Origins are consistent in every state a process reaches. *)
Lemma origin_inv_reached rv has_torch cs :
  origin_inv (run rv cs (initial has_torch)).
Proof.
  apply bridge_inv_split, bridge_inv_run, bridge_inv_initial.
Qed.

Lemma registry_inv_reached rv has_torch cs :
  registry_inv (run rv cs (initial has_torch)).
Proof. apply registry_inv_run. by intros [|?] ?. Qed.

(** Every wrapper found after a call has the array and the cached shape
    of a wrapper that was there before, or a cached shape that is the
    shape of its array. *)
Lemma exec_shapes rv c st p w :
  objects (exec rv c st).2 !! p = Some w →
  (∃ q w0, objects st !! q = Some w0
     ∧ array w = array w0 ∧ _shape w = _shape w0)
  ∨ (∀ a, array w = Some a → _shape w = shape a).
Proof.
  destruct c as [obj|this|this|this sh|this i j|this sh|this|this
                 |this inp samples p0 p1]; cbn [exec].
  - rewrite ignore_snd.
    destruct (init_outcome obj st) as [[e He]|(a & -> & Hk & He)];
      rewrite He; simpl; [left; by eexists _, _|].
    destruct (origin_of_spec (backend a) st) as (o & st1 & Heq & _ & _ & Ho & _).
    rewrite Heq. simpl. rewrite Ho.
    intros [?|[_ ->]]%lookup_snoc_cases; [left; by eexists _, _|right].
    by intros a0 [= <-].
  - rewrite ignore_snd, origin_call_state. left. by eexists _, _.
  - rewrite ignore_snd, shape_call_state. left. by eexists _, _.
  - destruct (reshape_outcome rv this sh st)
      as [[e He]|(w0 & a & a' & st1 & Hw & Ha & _ & Hsh & Hb & Ho & _ & He)];
      rewrite He; simpl; [left; by eexists _, _|].
    rewrite Ho.
    intros [?|(-> & w1 & Hw1 & ->)]%lookup_alter_cases;
      [left; by eexists _, _|right].
    by intros a0 [= <-].
  - destruct (swap_axes_outcome this i j st)
      as [[e He]|(w0 & a & a' & Hw & Ha & Hb & _ & He)];
      rewrite He; simpl; [left; by eexists _, _|].
    intros [?|(-> & w1 & Hw1 & ->)]%lookup_alter_cases;
      [left; by eexists _, _|right].
    by intros a0 [= <-].
  - rewrite ignore_snd.
    destruct (create_outcome this sh st) as [[e He]|(w0 & a & Hw & Ha & Hk & He)];
      rewrite He; simpl; [left; by eexists _, _|].
    destruct (origin_of_spec (backend a) st) as (o & st1 & Heq & _ & _ & Ho & _).
    rewrite Heq. simpl. rewrite Ho.
    intros [Hq|(-> & w1 & Hw1 & ->)]%lookup_alter_cases.
    + apply lookup_snoc_cases in Hq as [?|[_ ->]]; [left; by eexists _, _|right].
      by intros a0 [= <-].
    + apply lookup_snoc_cases in Hw1 as [Hw1|[_ ->]].
      * left. by exists this, w1.
      * right. by intros a0 [= <-].
  - rewrite ignore_snd.
    destruct (copy_outcome this st)
      as [[e He]|(w0 & a & c & l & Hw & Ha & Hk & _ & Hb & _ & _ & _ & He)];
      rewrite He; simpl; [left; by eexists _, _|].
    destruct (origin_of_spec (backend a) st) as (o & st1 & Heq & _ & _ & Ho & _).
    rewrite Heq. simpl. rewrite Ho.
    intros [?|[_ ->]]%lookup_snoc_cases; [left; by eexists _, _|right].
    by intros a0 [= <-].
  - destruct (destroy_outcome this st) as [[e He]|He];
      rewrite He; simpl; [left; by eexists _, _|].
    intros [?|(-> & w1 & Hw1 & ->)]%lookup_alter_cases;
      [left; by eexists _, _|right].
    by intros a0.
  - destruct (move_outcome st this inp samples p0 p1)
      as [[e He]|(? & ? & ? & ? & ? & ? & ? & ? & ? & ? & ? & H)].
    + rewrite He. left. by eexists _, _.
    + destruct H as (_ & _ & _ & _ & _ & _ & _ & _ & _ & He). rewrite He.
      left. by eexists _, _.
Qed.

Lemma shape_inv_exec rv c st : shape_inv st → shape_inv (exec rv c st).2.
Proof.
  intros Hinv p w a Hw Ha.
  destruct (exec_shapes rv c st p w Hw) as [(q & w0 & Hq & Harr & Hsh)|Hok].
  - rewrite Hsh. apply (Hinv q); [done|]. by rewrite <- Harr.
  - by apply Hok.
Qed.

Lemma shape_inv_run rv cs st : shape_inv st → shape_inv (run rv cs st).
Proof.
  revert st. induction cs as [|c cs IH]; intros st Hst; [done|].
  apply IH. by apply shape_inv_exec.
Qed.

(** C8. The cached shape of every live wrapper is the shape of its host
    array: at construction; after every call into the module, successful or
    not, in any state where it held before (so after [reshape] and
    [swap_axes], and for the children made by [create] and [copy]); hence
    in every state a process reaches; and there the [shape] callback
    returns the shape of the host array. *)
Theorem cached_shape_consistent rv :
  (∀ st a p st', ArrayWrapper_init (Array a) st = (Ok p, st') →
     ∃ w, objects st' !! p = Some w ∧ array w = Some a ∧ _shape w = shape a)
  ∧ (∀ c st, shape_inv st → shape_inv (exec rv c st).2)
  ∧ (∀ has_torch cs, shape_inv (run rv cs (initial has_torch)))
  ∧ (∀ st this w a, shape_inv st →
       objects st !! this = Some w → array w = Some a →
       _eqs_array_shape this st = (Ok (shape a, ndim a), st)).
Proof.
  split_and!.
  - intros st a p st' Hinit.
    destruct (init_outcome (Array a) st) as [[e He]|(a' & [= <-] & Hk & He)];
      [congruence|].
    rewrite Hinit in He. injection He as -> ->.
    destruct (origin_of_spec (backend a) st) as (o & st1 & Heq & _ & _ & Ho & _).
    rewrite Heq. simpl. eexists. rewrite <- Ho, list_lookup_middle; done.
  - intros c st. apply shape_inv_exec.
  - intros has_torch cs. by apply shape_inv_run.
  - intros st this w a Hinv Hw Ha.
    unfold _eqs_array_shape, mbind, M_bind, _object_from_ptr. rewrite Hw.
    unfold mret, M_ret, ndim. by rewrite (Hinv this w a).
Qed.

Lemma shape_inv_matrix_state : shape_inv matrix_state.
Proof. intros [|p] w a; [by intros [= <-] [= <-] | done]. Qed.

(** ** Independence of a copy *)

Lemma mutate_apart rv p q wq aq buf m st :
  p ≠ q → apart st p q wq aq buf →
  apart (exec rv (mutate p m) st).2 p q wq aq buf.
Proof.
  intros Hpq (Hq & Hbuf & Hlt & Hsep).
  destruct m as [sh|inp samples p0 p1]; cbn [mutate exec].
  - destruct (reshape_outcome rv p sh st)
      as [[e He]|(w0 & a & a' & st1 & Hw & Ha & _ & _ & _ & Ho & Hst & He)];
      rewrite He; simpl; [done|].
    assert (buffer st1 (data aq) = buf ∧ data aq < length (buffers st1)
            ∧ data a' ≠ data aq) as (Hb1 & Hl1 & Hd1).
    { destruct Hst as [[-> Hd]|[-> Hd]].
      - split_and!; [done..|]. rewrite Hd. by apply (Hsep w0).
      - split_and!; [by rewrite buffer_alloc_old| |lia].
        simpl. rewrite length_app. lia. }
    split_and!; simpl; try done.
    + by rewrite Ho, list_lookup_alter_ne.
    + rewrite Ho, list_lookup_alter_eq, Hw. simpl. by intros wp ap [= <-] [= <-].
  - destruct (move_outcome st p inp samples p0 p1)
      as [[e He]|(wd & ws & dst & src & v & n & mid & len & al & v' & rs & Hwd & _
                  & Hd & _ & _ & _ & _ & _ & _ & He)];
      rewrite He; simpl; [done|].
    split_and!; simpl; try done.
    + rewrite buffer_store_other; [done|]. apply not_eq_sym. by apply (Hsep wd).
    + by rewrite length_alter.
Qed.

Lemma mutations_apart rv p q wq aq buf ms st :
  p ≠ q → apart st p q wq aq buf →
  apart (run rv (mutate p <$> ms) st) p q wq aq buf.
Proof.
  intros Hpq. revert st. induction ms as [|m ms IH]; intros st Hst; [done|].
  rewrite fmap_cons. apply IH. by apply mutate_apart.
Qed.

Lemma ravel_buffer st st' a :
  buffer st' (data a) = buffer st (data a) → ravel st' a = ravel st a.
Proof. intros H. by apply ravel_ext. Qed.

(** C6. For a live wrapper whose array lies in an existing buffer, in a
    state in which origins are consistent, [copy] succeeds and returns a
    wrapper that did not exist before; its array has the shape, the
    elements and the origin of the original, and lies in a buffer that
    did not exist before, while no buffer that existed is changed.
    Whatever [reshape] and [move_samples_from] calls then mutate the copy,
    the wrapper of the original and the buffer of its array, hence its
    shape and elements, stay as they were; and whatever such calls mutate
    the original, the wrapper of the copy and the buffer of its array stay
    as they were. *)
Theorem copy_independent rv st this w a :
  origin_inv st →
  objects st !! this = Some w → array w = Some a →
  data a < length (buffers st) →
  ∃ c st1 cw ac,
    _eqs_array_copy this st = (Ok c, st1)
    ∧ objects st !! c = None
    ∧ objects st1 !! c = Some cw ∧ array cw = Some ac
    ∧ objects st1 !! this = Some w
    ∧ shape ac = shape a
    ∧ _eqs_array_shape c st1 = (Ok (shape a, ndim a), st1)
    ∧ ravel st1 ac = ravel st a
    ∧ (∀ ix, Forall2 lt ix (shape a) → item st1 ac ix = item st a ix)
    ∧ eqs_array_origin c st1 = (Ok (array_origin w), st1)
    ∧ buffers st !! data ac = None
    ∧ (∀ b, b < length (buffers st) → buffer st1 b = buffer st b)
    ∧ (∀ ms, let st2 := run rv (mutate c <$> ms) st1 in
         objects st2 !! this = Some w
         ∧ buffer st2 (data a) = buffer st (data a)
         ∧ ravel st2 a = ravel st a)
    ∧ (∀ ms, let st2 := run rv (mutate this <$> ms) st1 in
         objects st2 !! c = Some cw
         ∧ buffer st2 (data ac) = buffer st1 (data ac)
         ∧ ravel st2 ac = ravel st a).
Proof.
  intros Hinv Hw Ha Hlt.
  destruct (origin_inv_known _ _ _ _ Hinv Hw Ha) as [Hk Ho].
  destruct (Hinv _ _ _ Hw Ha) as [Hc _].
  destruct (copy_ok this st w a Hw Ha Hk)
    as (ac & l & _ & Hb & Hsh & Hd & Hr & He).
  rewrite Ho in He. simpl in He.
  set (cw := child_of st ac) in *.
  set (st1 := set_objects _ _) in He.
  pose proof (lookup_lt_Some _ _ _ Hw) as Hlw.
  assert (objects st1 !! length (objects st) = Some cw) as Hcw.
  { subst st1. simpl. by rewrite list_lookup_middle. }
  assert (objects st1 !! this = Some w) as Hw1.
  { subst st1. simpl. by rewrite lookup_app_l. }
  assert (∀ b, b < length (buffers st) → buffer st1 b = buffer st b) as Hold.
  { intros b Hb'. by apply buffer_alloc_old. }
  assert (ravel st1 ac = ravel st a) as Hr1.
  { rewrite <- Hr. by apply ravel_ext. }
  exists (length (objects st)), st1, cw, ac. split_and!; try done.
  - by apply lookup_ge_None.
  - unfold _eqs_array_shape, mbind, M_bind, _object_from_ptr. rewrite Hcw.
    subst cw. unfold child_of, mret, M_ret, ndim. simpl. by rewrite Hsh.
  - intros ix Hix.
    pose proof (item_ravel st a ix Hix) as H1.
    rewrite <- Hsh in Hix. pose proof (item_ravel st1 ac ix Hix) as H2.
    rewrite Hsh, Hr1 in H2. congruence.
  - unfold eqs_array_origin, mbind, M_bind, _object_from_ptr. rewrite Hcw.
    subst cw. unfold child_of. simpl. by rewrite Hb, Hc.
  - rewrite Hd. by apply lookup_ge_None.
  - intros ms st2.
    destruct (mutations_apart rv (length (objects st)) this w a
                (buffer st (data a)) ms st1) as (H1 & H2 & _); [lia| |].
    + split_and!; [done|by apply Hold| |].
      * subst st1. simpl. rewrite length_app. lia.
      * intros wp ap. rewrite Hcw. intros [= <-] [= <-]. lia.
    + split_and!; [done..|]. by apply ravel_buffer.
  - intros ms st2.
    destruct (mutations_apart rv this (length (objects st)) cw ac
                (buffer st1 (data ac)) ms st1) as (H1 & H2 & _); [lia| |].
    + split_and!; [done..| |].
      * subst st1. simpl. rewrite length_app, Hd. simpl. lia.
      * intros wp ap. rewrite Hw1. intros [= <-]. rewrite Ha.
        intros [= <-]. lia.
    + split_and!; [done..|]. rewrite <- Hr1. by apply ravel_buffer.
Qed.

(** * Further properties of the module *)

(** ** Failure leaves no trace *)


(** ** A destroyed wrapper *)

(** X2. After [destroy], the wrapper still answers [shape] (with the
    shape cached before) and [origin], but every callback that needs the
    array fails and changes nothing: [reshape], [swap_axes] and [create]
    with an [AttributeError], [copy] with an [UnboundLocalError],
    [move_samples_from] with a [TypeError] when the wrapper is the source,
    and with some exception when it is the destination. *)
Theorem use_after_destroy rv st this w st1 :
  objects st !! this = Some w →
  _eqs_array_destroy this st = (Ok tt, st1) →
  _eqs_array_shape this st1 = (Ok (_shape w, length (_shape w)), st1)
  ∧ eqs_array_origin this st1 = (Ok (array_origin w), st1)
  ∧ (∀ sh, _eqs_array_reshape rv this sh st1 = (Raise AttributeError, st1))
  ∧ (∀ i j, _eqs_array_swap_axes this i j st1 = (Raise AttributeError, st1))
  ∧ (∀ sh, _eqs_array_create this sh st1 = (Raise AttributeError, st1))
  ∧ _eqs_array_copy this st1 = (Raise UnboundLocalError, st1)
  ∧ (∀ dst samples p0 p1, is_Some (objects st !! dst) →
       _eqs_array_move_samples_from dst this samples p0 p1 st1
       = (Raise TypeError, st1))
  ∧ (∀ src samples p0 p1, ∃ e,
       _eqs_array_move_samples_from this src samples p0 p1 st1
       = (Raise e, st1)).
Proof.
  intros Hw Hd.
  destruct (destroy_outcome this st) as [[e He]|He]; [congruence|].
  rewrite Hd in He. injection He as ->.
  assert (objects (set_objects (alter (set_array None) this) st) !! this
          = Some (set_array None w)) as Hw1.
  { simpl. by rewrite list_lookup_alter_eq, Hw. }
  set (st1 := set_objects (alter (set_array None) this) st) in *.
  split_and!.
  - unfold _eqs_array_shape, mbind, M_bind, _object_from_ptr. by rewrite Hw1.
  - unfold eqs_array_origin, mbind, M_bind, _object_from_ptr. by rewrite Hw1.
  - intros sh. unfold _eqs_array_reshape, mbind, M_bind, _object_from_ptr.
    by rewrite Hw1.
  - intros i j. unfold _eqs_array_swap_axes, mbind, M_bind, _object_from_ptr.
    by rewrite Hw1.
  - intros sh. unfold _eqs_array_create, mbind, M_bind, _object_from_ptr.
    by rewrite Hw1.
  - unfold _eqs_array_copy, mbind, M_bind, _object_from_ptr. by rewrite Hw1.
  - intros dst samples p0 p1 [wd Hwd].
    assert (is_Some (objects st1 !! dst)) as [wd1 Hwd1].
    { apply lookup_lt_is_Some. subst st1. simpl. rewrite length_alter.
      by eapply lookup_lt_Some. }
    unfold _eqs_array_move_samples_from, mbind, M_bind, _object_from_ptr.
    by rewrite Hw1, Hwd1.
  - intros src samples p0 p1.
    destruct (move_outcome st1 this src samples p0 p1)
      as [?|(wd' & ? & ? & ? & ? & ? & ? & ? & ? & ? & ? & Hwd' & _ & Hd' & _)];
      [done|].
    rewrite Hw1 in Hwd'. injection Hwd' as <-. done.
Qed.

(** ** Transposition *)

Lemma dot_insert ix st i x s x0 s0 :
  ix !! i = Some x0 → st !! i = Some s0 →
  dot (<[i := x]> ix) (<[i := s]> st) + x0 * s0 = dot ix st + x * s.
Proof.
  revert st i. induction ix as [|y ix IH]; intros [|t st] [|i]; try done.
  - simpl. intros [= ->] [= ->]. lia.
  - simpl. intros Hx Hs. specialize (IH st i Hx Hs). lia.
Qed.

Lemma dot_swap ix st i j :
  i < length ix → j < length ix → length st = length ix →
  dot (swap i j ix) (swap i j st) = dot ix st.
Proof.
  intros Hi Hj Hlen. unfold swap.
  destruct (lookup_lt_is_Some_2 ix i Hi) as [a Ha].
  destruct (lookup_lt_is_Some_2 ix j Hj) as [b Hb].
  destruct (lookup_lt_is_Some_2 st i) as [s Hs]; [lia|].
  destruct (lookup_lt_is_Some_2 st j) as [t Ht]; [lia|].
  rewrite Ha, Hb, Hs, Ht.
  pose proof (dot_insert ix st j a s b t Hb Ht) as H1.
  assert (<[j := a]> ix !! i = Some a) as Ha1.
  { destruct (decide (i = j)) as [->|Hne].
    - by rewrite list_lookup_insert_eq.
    - by rewrite list_lookup_insert_ne. }
  assert (<[j := s]> st !! i = Some s) as Hs1.
  { destruct (decide (i = j)) as [->|Hne].
    - rewrite list_lookup_insert_eq; [done|lia].
    - by rewrite list_lookup_insert_ne. }
  pose proof (dot_insert _ _ i b t a s Ha1 Hs1) as H2.
  lia.
Qed.

(** X3. [swap_axes] is a transposition of the elements: after a
    successful call on a view with one stride per axis, the shape has its
    entries [axis_1] and [axis_2] exchanged, and the element at an index
    with these two entries exchanged is the element that was at the index
    before; no buffer is touched. *)
Theorem swap_axes_transposes st this w a i j :
  objects st !! this = Some w → array w = Some a →
  length (strides a) = ndim a →
  i < ndim a → j < ndim a →
  ∃ st1 w1 a1,
    _eqs_array_swap_axes this i j st = (Ok tt, st1)
    ∧ objects st1 !! this = Some w1 ∧ array w1 = Some a1
    ∧ shape a1 = swap i j (shape a)
    ∧ buffers st1 = buffers st
    ∧ ∀ ix, length ix = ndim a →
        item st1 a1 (swap i j ix) = item st a ix.
Proof.
  intros Hw Ha Hst Hi Hj.
  set (a1 := with_layout a (data a) (offset a) (swap i j (shape a))
               (swap i j (strides a))).
  set (w1 := set_shape (shape a1) (set_array (Some a1) w)).
  exists (set_objects (alter (set_shape (shape a1)) this)
            (set_objects (alter (set_array (Some a1)) this) st)), w1, a1.
  split_and!; try done.
  - unfold _eqs_array_swap_axes, mbind, M_bind, _object_from_ptr. rewrite Hw.
    unfold array_attr. rewrite Ha. unfold mret, M_ret, ndarray_swapaxes.
    by rewrite bool_decide_true.
  - simpl. by rewrite !list_lookup_alter_eq, Hw.
  - intros ix Hix. unfold item, cell. simpl.
    rewrite dot_swap; [done|unfold ndim in *; lia..].
Qed.

(** ** Registration happens at construction only *)

Lemma exec_globals rv c st :
  bridge_inv st → is_wrap c = false → globals (exec rv c st).2 = globals st.
Proof.
  intros Hinv%bridge_inv_split Hc. destruct Hinv as [_ Hinv].
  destruct c as [obj|this|this|this sh|this i j|this sh|this|this
                 |this inp samples p0 p1]; cbn [exec]; [done|..].
  - by rewrite ignore_snd, origin_call_state.
  - by rewrite ignore_snd, shape_call_state.
  - destruct (reshape_outcome rv this sh st)
      as [[e He]|(w0 & a & a' & st1 & _ & _ & _ & _ & _ & _ & Hst & He)];
      rewrite He; simpl; [done|].
    by destruct Hst as [[-> _]|[-> _]].
  - destruct (swap_axes_outcome this i j st)
      as [[e He]|(w0 & a & a' & _ & _ & _ & _ & He)];
      rewrite He; simpl; done.
  - rewrite ignore_snd.
    destruct (create_outcome this sh st) as [[e He]|(w0 & a & Hw & Ha & _ & He)];
      rewrite He; simpl; [done|].
    destruct (origin_inv_known _ _ _ _ Hinv Hw Ha) as [_ Ho]. by rewrite Ho.
  - rewrite ignore_snd.
    destruct (copy_outcome this st)
      as [[e He]|(w0 & a & c & l & Hw & Ha & _ & _ & _ & _ & _ & _ & He)];
      rewrite He; simpl; [done|].
    destruct (origin_inv_known _ _ _ _ Hinv Hw Ha) as [_ Ho]. by rewrite Ho.
  - destruct (destroy_outcome this st) as [[e He]|He]; rewrite He; simpl; done.
  - destruct (move_outcome st this inp samples p0 p1)
      as [[e He]|(? & ? & dst & ? & ? & ? & ? & ? & ? & ? & ? & H)].
    + by rewrite He.
    + destruct H as (_ & _ & _ & _ & _ & _ & _ & _ & _ & He). by rewrite He.
Qed.

(** X6. The callbacks never register an origin: in a state where every
    live wrapper has the origin cached for its library, any sequence of
    callback invocations (every call but the construction of a wrapper,
    [create] and [copy] included) leaves the origin globals and the
    registry of the core exactly as they were. *)
Theorem callbacks_keep_registry rv cs st :
  bridge_inv st →
  forallb (λ c, negb (is_wrap c)) cs = true →
  globals (run rv cs st) = globals st.
Proof.
  revert st. induction cs as [|c cs IH]; intros st Hinv Hcs; [done|].
  simpl in Hcs. apply andb_true_iff in Hcs as [Hc Hcs].
  change (run rv (c :: cs) st) with (run rv cs (exec rv c st).2).
  rewrite IH; [|by apply bridge_inv_exec|done].
  apply exec_globals; [done|]. by destruct (is_wrap c).
Qed.

Lemma bridge_inv_matrix_state : bridge_inv matrix_state.
Proof.
  apply bridge_inv_split. split;
    [apply shape_inv_matrix_state | apply origin_inv_matrix_state].
Qed.

Lemma origin_of_registry bk st :
  (∀ bk', origin_name bk' ≠ origin_name bk →
     cached_origin (origin_of bk st).2 bk' = cached_origin st bk')
  ∧ (is_Some (cached_origin st bk) → (origin_of bk st).2 = st)
  ∧ (registered_origins (origin_of bk st).2 = registered_origins st
     ∨ (cached_origin st bk = None
        ∧ (origin_name bk ∉ registered_origins st)
        ∧ registered_origins (origin_of bk st).2
          = registered_origins st ++ [origin_name bk])).
Proof.
  assert (∀ name reg, (eqs_register_data_origin name reg).2 = reg
            ∨ ((name ∉ reg) ∧ (eqs_register_data_origin name reg).2 = reg ++ [name]))
    as Hreg.
  { intros name reg. unfold eqs_register_data_origin.
    destruct (origin_index name reg) as [i|] eqn:Hi; simpl; [by left|right].
    split; [|done]. intros Hin. clear -Hi Hin.
    induction reg as [|n reg IH]; [by apply elem_of_nil in Hin|].
    simpl in Hi. case_bool_decide; [done|].
    apply elem_of_cons in Hin as [->|Hin]; [done|].
    destruct (origin_index name reg); [done|]. by apply IH. }
  destruct bk as [|dev]; simpl; unfold _numpy_origin, _torch_origin.
  - destruct (_NUMPY_STORAGE_ORIGIN st) as [o|] eqn:Hc; simpl.
    + split_and!; [done|done|by left].
    + split_and!.
      * by intros [|?] ?.
      * by intros [? ?].
      * destruct (Hreg (__name__ +:+ ".numpy") (registered_origins st))
          as [?|[? ?]]; [by left|by right].
  - destruct (_TORCH_STORAGE_ORIGIN st) as [o|] eqn:Hc; simpl.
    + split_and!; [done|done|by left].
    + split_and!.
      * by intros [|?] ?.
      * by intros [? ?].
      * destruct (Hreg (__name__ +:+ ".torch") (registered_origins st))
          as [?|[? ?]]; [by left|by right].
Qed.

(** X7. Registration is lazy and per library: a successful construction
    of a wrapper leaves the cached origin of the other library alone,
    changes nothing but the list of wrappers when the library of the array
    already has its origin, and otherwise leaves the registry as it is or
    appends to it the one name of that library, which was not in it. *)
Theorem wrap_registers_lazily st a p st' :
  ArrayWrapper_init (Array a) st = (Ok p, st') →
  is_Some (cached_origin st' (backend a))
  ∧ buffers st' = buffers st
  ∧ (∀ bk, origin_name bk ≠ origin_name (backend a) →
       cached_origin st' bk = cached_origin st bk)
  ∧ (is_Some (cached_origin st (backend a)) → globals st' = globals st)
  ∧ (registered_origins st' = registered_origins st
     ∨ (cached_origin st (backend a) = None
        ∧ (origin_name (backend a) ∉ registered_origins st)
        ∧ registered_origins st'
          = registered_origins st ++ [origin_name (backend a)])).
Proof.
  intros Hinit.
  destruct (init_outcome (Array a) st) as [[e He]|(a' & [= <-] & Hk & He)];
    [congruence|].
  rewrite Hinit in He. injection He as -> ->.
  destruct (origin_of_spec (backend a) st) as (o & st1 & Heq & Hc & Hb & _).
  destruct (origin_of_registry (backend a) st) as (Hother & Hsame & Hreg).
  rewrite Heq in *. cbn [fst snd] in *. split_and!.
  - apply (mk_is_Some _ o). rewrite <- Hc. by destruct (backend a).
  - done.
  - intros bk Hbk. rewrite <- (Hother bk Hbk). by destruct bk.
  - intros Hs. by rewrite (Hsame Hs).
  - done.
Qed.

(** ** Origins tell the libraries apart *)

(** X8. In a state where origins are consistent and the cached origins
    are the registry's, two live wrappers have the same origin exactly
    when their arrays belong to the same library. *)
Theorem origins_discriminate_libraries st p q wp wq ap aq :
  origin_inv st → registry_inv st →
  objects st !! p = Some wp → array wp = Some ap →
  objects st !! q = Some wq → array wq = Some aq →
  array_origin wp = array_origin wq
  ↔ origin_name (backend ap) = origin_name (backend aq).
Proof.
  intros Hinv Hreg Hp Hap Hq Haq.
  destruct (Hinv _ _ _ Hp Hap) as [Hcp _].
  destruct (Hinv _ _ _ Hq Haq) as [Hcq _].
  pose proof (Hreg _ _ Hcp) as Hip. pose proof (Hreg _ _ Hcq) as Hiq.
  split.
  - intros Heq. rewrite Heq in Hip. by eapply origin_index_inj.
  - intros Heq. rewrite Heq in Hip. congruence.
Qed.

(** ** From the core back to Python *)

Lemma to_python_object_own st p w :
  objects st !! p = Some w →
  Some (array_origin w) ∈ [_NUMPY_STORAGE_ORIGIN st; _TORCH_STORAGE_ORIGIN st] →
  eqs_array_to_python_object (eqs_array p) st = (Returned w, st).
Proof.
  intros Hp Hin. unfold eqs_array_to_python_object, data_origin. simpl.
  unfold eqs_array_origin, mbind, M_bind, _object_from_ptr. rewrite Hp.
  unfold mret, M_ret. rewrite bool_decide_true by done. by rewrite Hp.
Qed.

Lemma cached_origin_elem st bk o :
  cached_origin st bk = Some o →
  Some o ∈ [_NUMPY_STORAGE_ORIGIN st; _TORCH_STORAGE_ORIGIN st].
Proof.
  destruct bk; simpl; intros <-; [left|right; left].
Qed.

(** X9. Round trip through the core's handle: the [eqs_array] of a
    wrapper that was just built, and of any live wrapper of a state with
    consistent origins, is turned back into that very wrapper (which holds
    the array), and the state is left alone. *)
Theorem to_python_object_round_trip :
  (∀ st a p st', ArrayWrapper_init (Array a) st = (Ok p, st') →
     ∃ w, objects st' !! p = Some w ∧ array w = Some a
       ∧ eqs_array_to_python_object (eqs_array p) st' = (Returned w, st'))
  ∧ (∀ st p w a, origin_inv st →
       objects st !! p = Some w → array w = Some a →
       eqs_array_to_python_object (eqs_array p) st = (Returned w, st)).
Proof.
  split.
  - intros st a p st' Hinit.
    destruct (init_outcome (Array a) st) as [[e He]|(a' & [= <-] & Hk & He)];
      [congruence|].
    rewrite Hinit in He. injection He as -> ->.
    destruct (origin_of_spec (backend a) st) as (o & st1 & Heq & Hc & _ & Ho & _).
    rewrite Heq. cbn [snd].
    eexists. split_and!.
    + simpl. rewrite <- Ho. apply list_lookup_middle. done.
    + done.
    + apply to_python_object_own.
      * simpl. rewrite <- Ho. apply list_lookup_middle. done.
      * simpl. rewrite Hc. simpl. by apply (cached_origin_elem st1 (backend a)).
  - intros st p w a Hinv Hp Ha. apply to_python_object_own; [done|].
    destruct (Hinv _ _ _ Hp Ha) as [Hc _].
    by apply (cached_origin_elem st (backend a)).
Qed.

(** X10. An array of other code is never taken for a Python object: when
    the cached origins are the registry's and the [origin] callback of the
    handle answers with an id registered under a name that is not one of
    the two names of this module, the function raises [ValueError], leaves
    the state alone and does not follow the pointer, whatever it is. *)
Theorem to_python_object_rejects_foreign st data o name :
  registry_inv st →
  origin data (ptr data) st = (Ok o, st) →
  registered_origins st !! o = Some name →
  name ≠ origin_name Numpy → name ≠ origin_name (Torch Cpu) →
  eqs_array_to_python_object data st = (Raised ValueError, st).
Proof.
  intros Hreg Ho Hname Hn Ht.
  unfold eqs_array_to_python_object, data_origin. rewrite Ho.
  rewrite bool_decide_false.
  - unfold data_origin_name, eqs_get_data_origin. by rewrite Hname.
  - rewrite !elem_of_cons, elem_of_nil. intros [Hc|[Hc|[]]].
    + symmetry in Hc. apply (Hreg Numpy), origin_index_lookup in Hc. congruence.
    + symmetry in Hc. apply (Hreg (Torch Cpu)), origin_index_lookup in Hc.
      congruence.
Qed.

(** X11. The name of a wrapper's origin: in a state where origins are
    consistent and the cached origins are the registry's, the origin of a
    live wrapper, read through its handle, is registered under the name
    of the library of its array, the module name followed by [.numpy] or
    [.torch]. *)
Theorem data_origin_name_round_trip st p w a :
  origin_inv st → registry_inv st →
  objects st !! p = Some w → array w = Some a →
  data_origin (eqs_array p) st = (Ok (array_origin w), st)
  ∧ data_origin_name (array_origin w) st = Some (origin_name (backend a)).
Proof.
  intros Hinv Hreg Hp Ha. split.
  - unfold data_origin. simpl.
    unfold eqs_array_origin, mbind, M_bind, _object_from_ptr. by rewrite Hp.
  - destruct (Hinv _ _ _ Hp Ha) as [Hc _].
    unfold data_origin_name, eqs_get_data_origin.
    by apply origin_index_lookup, Hreg.
Qed.

(** ** Edges of the sample move *)

Lemma bind_all_nil {A B} (f : A → list B) (l : list A) :
  (∀ x, f x = []) → l ≫= f = [].
Proof.
  intros Hf. induction l as [|x l IH]; [done|].
  change ((x :: l) ≫= f) with (f x ++ (l ≫= f)). by rewrite Hf, IH.
Qed.

Lemma set_buffers_id f st : f (buffers st) = buffers st → set_buffers f st = st.
Proof. intros H. destruct st. unfold set_buffers. simpl in *. by rewrite H. Qed.

Lemma stores_empty a rows mid lo width v al :
  rows = [] ∨ width = 0 → stores a rows mid lo width v al = [].
Proof.
  intros [->| ->]; [done|]. unfold stores, row_stores.
  apply bind_all_nil. intros k. apply bind_all_nil. by intros m.
Qed.

(** X12. A sample move with nothing to move changes nothing: with an
    empty list of samples, or a property range that is empty
    ([property_end] not above [property_start]), the state after the call
    is the state before it, whether the call succeeds or raises. *)
Theorem move_samples_from_nothing st this inp samples p0 p1 :
  samples = [] ∨ p1 ≤ p0 →
  (_eqs_array_move_samples_from this inp samples p0 p1 st).2 = st.
Proof.
  intros Hempty.
  destruct (move_outcome st this inp samples p0 p1)
    as [[e He]|(? & ? & dst & ? & v & n & mid & len & al & v' & rs & H)].
  { by rewrite He. }
  destruct H as (_ & _ & _ & _ & _ & _ & Hrows & _ & _ & He). rewrite He. simpl.
  apply set_buffers_id. rewrite stores_empty.
  - apply list_alter_id. done.
  - destruct Hempty as [->|Hp]; [left|right; lia].
    apply index_rows_length in Hrows. by destruct rs.
Qed.

Lemma setitem_clip a rows p0 p1 v st n mid len :
  shape a = n :: mid ++ [len] → len ≤ p1 →
  setitem a rows p0 p1 v st = setitem a rows p0 len v st.
Proof.
  intros Hsh Hp. unfold setitem. rewrite Hsh.
  assert (∃ d rest, mid ++ [len] = d :: rest) as (d & rest & Hd).
  { destruct mid; simpl; eauto. }
  rewrite Hd. rewrite <- Hd, removelast_last, last_last.
  by replace (p1 `min` len) with (len `min` len) by lia.
Qed.

(** X13. A property range that runs past the last axis of the destination
    is clipped, not refused: for a live destination whose last axis has
    [len] entries, a call with [property_end] above [len] does exactly
    what the call with [property_end = len] does. *)
Theorem move_samples_from_clips_range st this inp wd dst samples p0 p1 n mid len :
  objects st !! this = Some wd → array wd = Some dst →
  shape dst = n :: mid ++ [len] → len ≤ p1 →
  _eqs_array_move_samples_from this inp samples p0 p1 st
  = _eqs_array_move_samples_from this inp samples p0 len st.
Proof.
  intros Hwd Hd Hsh Hp.
  unfold _eqs_array_move_samples_from, mbind, M_bind, _object_from_ptr.
  destruct (objects st !! inp) as [ws|]; [|done]. rewrite Hwd.
  unfold get_state, lift_res. destruct (array ws) as [src|]; [|done].
  destruct (getitem st src (input <$> samples)) as [v|e]; [|done].
  rewrite Hd. by apply (setitem_clip _ _ _ _ _ _ n mid).
Qed.

(** X14. Rows are checked before anything is written.  For live numpy
    arrays, a source that has elements in each row and a sample whose
    source row, read as a signed 64-bit integer, is outside [-n, n) for a
    source of [n] rows, the call raises [IndexError]; for a destination
    with a non-empty range to write and a sample whose destination row is
    outside that range for the destination, the call raises; in both
    cases the state is left as it was. *)
Theorem move_samples_from_row_bounds st this inp wd ws dst src samples p0 p1
    n_d mid len n_s rest_s :
  objects st !! this = Some wd → array wd = Some dst →
  objects st !! inp = Some ws → array ws = Some src →
  backend dst = Numpy → backend src = Numpy →
  shape dst = n_d :: mid ++ [len] → shape src = n_s :: rest_s →
  0 < list_prod rest_s →
  (Exists (λ s, (Z.of_nat n_s ≤ as_intp (input s)
                 ∨ as_intp (input s) < - Z.of_nat n_s)%Z) samples →
     _eqs_array_move_samples_from this inp samples p0 p1 st
     = (Raise IndexError, st))
  ∧ (0 < list_prod mid → p0 < p1 → p0 < len →
     Exists (λ s, (Z.of_nat n_d ≤ as_intp (output s)
                   ∨ as_intp (output s) < - Z.of_nat n_d)%Z) samples →
     ∃ e, _eqs_array_move_samples_from this inp samples p0 p1 st
          = (Raise e, st)).
Proof.
  intros Hwd Hd Hws Hs Hbd Hbs Hshd Hshs _. split.
  - intros Hex.
    assert (getitem st src (input <$> samples) = Raise IndexError) as Hg.
    { unfold getitem. rewrite Hshs. destruct rest_s as [|d rest]; [done|].
      unfold index_rows. rewrite Hbs.
      assert (mapM (row_index n_s) (input <$> samples) = None) as ->; [|done].
      apply mapM_None_2, Exists_fmap. eapply Exists_impl; [done|].
      intros s Hs'. by apply row_index_None. }
    unfold _eqs_array_move_samples_from, mbind, M_bind, _object_from_ptr.
    rewrite Hws, Hwd. unfold get_state, lift_res. by rewrite Hs, Hg.
  - intros _ _ _ Hex.
    destruct (move_outcome st this inp samples p0 p1)
      as [?|(wd' & ? & dst' & ? & ? & n & mid' & len' & ? & ? & rs & Hwd' & _
             & Hd' & _ & _ & Hsh' & Hrows & _)]; [done|].
    assert (dst' = dst) as -> by congruence.
    assert (n = n_d) as -> by congruence.
    apply index_rows_Ok in Hrows.
    assert (mapM (row_index n_d) (output <$> samples) = None) as Hnone;
      [|congruence].
    apply mapM_None_2, Exists_fmap. eapply Exists_impl; [done|].
    intros s Hs'. by apply row_index_None.
Qed.

(** ** Reshapes in sequence *)

Lemma reshape_ok rv st this w a sh :
  view_sound rv →
  objects st !! this = Some w → array w = Some a →
  list_prod sh = array_size a →
  ∃ st1 a1,
    _eqs_array_reshape rv this sh st = (Ok tt, st1)
    ∧ objects st1 !! this = Some (set_shape sh (set_array (Some a1) w))
    ∧ shape a1 = sh
    ∧ ravel st1 a1 = ravel st a.
Proof.
  intros Hs Hw Ha Hp.
  destruct (ndarray_reshape_ok rv a sh st Hp)
    as (a' & st1 & Hr & Hsh & _ & _ & Ho & _ & Hrav & _).
  exists (set_objects (alter (set_shape sh ∘ set_array (Some a')) this) st1), a'.
  split_and!; try done.
  - by apply (reshape_run _ _ _ _ w a).
  - simpl. by rewrite Ho, list_lookup_alter_eq, Hw.
  - rewrite <- (Hrav Hs). by apply ravel_ext.
Qed.

(** X15. Reshapes compose: for a live wrapper and two shapes with the
    element count of its array, [reshape] to the first and then to the
    second succeeds and leaves the second shape (also as the cached
    shape) with the elements, in row-major order, that the array had at
    the start.  With the original shape as the second shape this is a
    round trip. *)
Theorem reshape_composes rv st this w a sh1 sh2 :
  view_sound rv →
  objects st !! this = Some w → array w = Some a →
  list_prod sh1 = array_size a → list_prod sh2 = array_size a →
  ∃ st1 st2 w2 a2,
    _eqs_array_reshape rv this sh1 st = (Ok tt, st1)
    ∧ _eqs_array_reshape rv this sh2 st1 = (Ok tt, st2)
    ∧ objects st2 !! this = Some w2 ∧ array w2 = Some a2
    ∧ shape a2 = sh2 ∧ _shape w2 = sh2
    ∧ ravel st2 a2 = ravel st a.
Proof.
  intros Hs Hw Ha Hp1 Hp2.
  destruct (reshape_ok rv st this w a sh1 Hs Hw Ha Hp1)
    as (st1 & a1 & Hr1 & Hw1 & Hsh1 & Hrav1).
  destruct (reshape_ok rv st1 this _ a1 sh2 Hs Hw1 eq_refl)
    as (st2 & a2 & Hr2 & Hw2 & Hsh2 & Hrav2).
  { unfold array_size in *. rewrite Hsh1. congruence. }
  eexists st1, st2, _, a2. split_and!; [done|done|exact Hw2|done|done|done|].
  congruence.
Qed.

Lemma broadcast_last_one n mid width :
  broadcast (n :: mid ++ [1]) (n :: mid ++ [width]) = Some (n :: mid ++ [1]).
Proof.
  unfold broadcast.
  replace (length (n :: mid ++ [1]) - length (n :: mid ++ [width])) with 0
    by (simpl; rewrite !length_app; simpl; lia).
  rewrite drop_0.
  replace (length (n :: mid ++ [width]) - length (n :: mid ++ [1])) with 0
    by (simpl; rewrite !length_app; simpl; lia).
  simpl. rewrite bool_decide_true by done. simpl.
  rewrite Nat.eqb_refl, orb_true_r. simpl.
  assert (forallb (λ p : nat * nat, (p.1 =? 1) || (p.1 =? p.2))
            (zip (mid ++ [1]) (mid ++ [width])) = true) as ->; [|done].
  induction mid as [|d mid IH]; [done|]. simpl.
  by rewrite IH, Nat.eqb_refl, orb_true_r.
Qed.

Lemma source_index_last_one n mid k m j :
  length m = length mid →
  source_index (n :: mid ++ [1]) (k :: m ++ [j])
  = source_index (n :: mid ++ [1]) (k :: m ++ [0]).
Proof.
  intros Hlen. unfold source_index. simpl. f_equal.
  by rewrite !zip_with_app by done.
Qed.

(** X16. A source with a single entry on its last axis is spread over the
    range: for live arrays of the same library and device and of the same
    element type, with the same middle axes, a source of last-axis length
    1, a range inside the destination's last axis, rows that the library
    finds in the arrays and a destination view of pairwise distinct cells
    inside its buffer, the call succeeds, and for every pair whose
    destination row no later pair names again, every entry of
    [dst[dr, ..., p0:p1]] is the one entry of [src[sr, ..., 0]]. *)
Theorem move_samples_from_broadcasts st this inp wd ws dst src samples p0 p1
    n_d n_s mid len rs_in rs_out :
  objects st !! this = Some wd → array wd = Some dst →
  objects st !! inp = Some ws → array ws = Some src →
  backend src = backend dst →
  dtype src = dtype dst →
  shape dst = n_d :: mid ++ [len] →
  shape src = n_s :: mid ++ [1] →
  p0 ≤ p1 ≤ len →
  index_rows (backend src) n_s (input <$> samples) = Ok rs_in →
  index_rows (backend dst) n_d (output <$> samples) = Ok rs_out →
  view_ok st dst →
  ∃ st',
    _eqs_array_move_samples_from this inp samples p0 p1 st = (Ok tt, st')
    ∧ ∀ k ri ro, rs_in !! k = Some ri → rs_out !! k = Some ro →
        (∀ k' ro', k < k' → rs_out !! k' = Some ro' → ro' ≠ ro) →
        ∀ m j, m ∈ indices mid → j < p1 - p0 →
          item st' dst (ro :: m ++ [p0 + j])
          = item st src (ri :: m ++ [0]).
Proof.
  intros Hwd Hd Hws Hs Hb Hdt Hshd Hshs Hp Hin_rows Hout_rows [Hnd Hin].
  pose proof (index_rows_lt _ _ _ _ Hout_rows) as Hrout.
  pose proof (index_rows_length _ _ _ _ Hin_rows) as Hlin.
  pose proof (index_rows_length _ _ _ _ Hout_rows) as Hlout.
  rewrite length_fmap in Hlin, Hlout.
  assert (mid ++ [1] ≠ []) as Hne by (by destruct mid).
  pose proof (getitem_run st src _ _ _ _ Hshs Hne Hin_rows) as Hv.
  set (v := take st src rs_in (mid ++ [1])) in Hv.
  set (v' := {| v_backend := v_backend v; v_dtype := dtype dst;
                v_shape := v_shape v;
                v_data := convert (v_dtype v) (dtype dst) <$> v_data v |}).
  assert (coerce dst v = Ok v') as Hco.
  { assert (accepts (backend dst) (dtype dst) (backend src) (dtype src)
            = Ok tt) as Hacc by (rewrite Hb, Hdt; apply accepts_same).
    unfold coerce. subst v. cbn [v_backend v_dtype take]. by rewrite Hacc. }
  assert (p1 `min` len - p0 `min` len = p1 - p0) as Hwidth by lia.
  assert (p0 `min` len = p0) as Hlo by lia.
  assert (broadcast (v_shape v')
            (length (output <$> samples)
               :: mid ++ [p1 `min` len - p0 `min` len])
          = Some (length rs_in :: mid ++ [1])) as Hbr.
  { rewrite length_fmap. subst v' v. cbn [v_shape take].
    rewrite Hlin. apply broadcast_last_one. }
  eexists. split.
  { rewrite (move_run st this inp wd ws dst src samples p0 p1 v) by done.
    by apply (setitem_run _ _ _ _ _ _ n_d mid len v'
                (length rs_in :: mid ++ [1]) rs_out). }
  intros k ri ro Hki Hko Hlast m j Hm Hj.
  rewrite Hwidth, Hlo. unfold item at 1, read. rewrite buffer_store.
  rewrite (stores_lookup _ _ _ _ _ _ _ n_d len _ k ro); try done.
  - cbn [default]. unfold value_item.
    rewrite source_index_last_one.
    2:{ apply elem_of_indices in Hm. by eapply Forall2_length. }
    etrans.
    { apply (getitem_value_item st src rs_in (mid ++ [1]) k ri (m ++ [0])
               (v_backend v) (dtype dst) (convert (dtype src) (dtype dst)));
        [done|].
      apply Forall2_app; [by apply elem_of_indices|]. by repeat constructor. }
    rewrite Hdt. apply convert_same.
  - lia.
  - eapply Forall_forall in Hin; [done|]. apply cell_in_cells.
    rewrite Hshd. apply valid_index; [|done|lia].
    eapply Forall_lookup_1 in Hrout; [|done]. done.
Qed.

(** ** Origins stay consistent *)

(** X17. Consistency of origins is an invariant: a call made in a state
    where every live wrapper has the cached origin of its library and the
    cached origins are the registry's leads to such a state, and a state
    reached from the start of the process by any calls is such a state. *)
Theorem origins_stay_consistent rv :
  (∀ c st, bridge_inv st → registry_inv st →
     origin_inv (exec rv c st).2 ∧ registry_inv (exec rv c st).2)
  ∧ (∀ has_torch cs,
       origin_inv (run rv cs (initial has_torch))
       ∧ registry_inv (run rv cs (initial has_torch))).
Proof.
  split.
  - intros c st Hinv Hreg. split.
    + by apply bridge_inv_split, bridge_inv_exec.
    + by apply registry_inv_exec.
  - intros has_torch cs. split.
    + apply origin_inv_reached.
    + apply registry_inv_reached.
Qed.


End Elements.

(** * The properties on examples *)

(** The theorems above, applied to the example states, with the
    conversion [small_astype] and the stride search [no_view]. *)

Lemma destroy_idempotent_witness :
  ∃ st1, _eqs_array_destroy 0 matrix_state = (Ok tt, st1)
    ∧ array <$> objects st1 !! 0 = Some None
    ∧ _shape <$> objects st1 !! 0 = Some [2; 3]
    ∧ buffers st1 = buffers matrix_state
    ∧ _eqs_array_destroy 0 st1 = (Ok tt, st1).
Proof.
  destruct (destroy_idempotent matrix_state 0 _ eq_refl)
    as (st1 & H1 & H2 & H3 & _ & H4).
  exists st1. split_and!; [exact H1| | |exact H3|exact H4]; by rewrite H2.
Defined.

Lemma swap_axes_involution_witness :
  ∃ st1, _eqs_array_swap_axes 0 0 1 matrix_state = (Ok tt, st1)
         ∧ _eqs_array_swap_axes 0 0 1 st1 = (Ok tt, matrix_state).
Proof.
  destruct (swap_axes_involution matrix_state 0 _ _ 0 1 eq_refl eq_refl eq_refl)
    as (st1 & _ & _ & H1 & _ & _ & _ & _ & _ & H2).
  - unfold ndim. simpl. lia.
  - unfold ndim. simpl. lia.
  - exists st1. exact (conj H1 H2).
Defined.

Lemma origin_registration_idempotent_witness :
  (∃ n t st1 st2,
     _numpy_origin (initial true) = (Ok n, st1)
     ∧ _torch_origin st1 = (Ok t, st2) ∧ n ≠ t)
  ∧ (let r1 := eqs_register_data_origin "alpha" [] in
     let r2 := eqs_register_data_origin "beta" r1.2 in
     let r3 := eqs_register_data_origin "alpha" r2.2 in
     r3.1 = r1.1 ∧ r2.1 ≠ r1.1 ∧ r3.2 = r2.2).
Proof.
  destruct (origin_registration_idempotent small_astype) as (_ & _ & _ & Hd & _ & Hr).
  split.
  - eexists _, _, _, _. split; [reflexivity|]. split; [reflexivity|].
    eapply (Hd (λ _ _ _, None) (initial true) []);
      [by intros [|?] ? | reflexivity | reflexivity].
  - by apply (Hr [] "alpha" "beta").
Defined.

Lemma reshape_all_or_nothing_witness :
  (∃ st1 a1, _eqs_array_reshape no_view 0 [3; 2] matrix_state = (Ok tt, st1)
      ∧ _eqs_array_shape 0 st1 = (Ok ([3; 2], 2), st1)
      ∧ ravel st1 a1 = [1; 2; 3; 4; 5; 6]%Z)
  ∧ _eqs_array_reshape no_view 0 [4; 2] matrix_state
    = (Raise ValueError, matrix_state).
Proof.
  destruct (reshape_all_or_nothing no_view matrix_state 0 _ _ [3; 2]
              no_view_sound eq_refl eq_refl) as [Hok _].
  destruct (reshape_all_or_nothing no_view matrix_state 0 _ _ [4; 2]
              no_view_sound eq_refl eq_refl) as [_ Hfail].
  split.
  - destruct (Hok eq_refl) as (st1 & w1 & a1 & H1 & _ & _ & _ & _ & H2 & H3 & _).
    exists st1, a1. split_and!; [exact H1|exact H2|exact H3].
  - apply Hfail. unfold array_size. simpl. lia.
Defined.

(** C4, as stated, fails: a requested shape of fewer than two dimensions
    with the right element count is accepted. The array of shape (2, 3) is
    reshaped to (6,); the call succeeds and the shape handed to the core
    has one dimension. *)
Lemma reshape_one_dimension_accepted :
  length [6] < 2
  ∧ ∃ st1, _eqs_array_reshape no_view 0 [6] matrix_state = (Ok tt, st1)
      ∧ st1 ≠ matrix_state
      ∧ _eqs_array_shape 0 st1 = (Ok ([6], 1), st1).
Proof.
  split; [simpl; lia|]. eexists. split; [vm_compute; reflexivity|].
  split; [|reflexivity].
  intros H. by apply (f_equal (λ s, _shape <$> objects s !! 0)) in H.
Qed.

Lemma create_zero_filled_witness :
  ∃ st1 c,
    _eqs_array_create 0 [2; 2] matrix_state = (Ok 1, st1)
    ∧ array <$> objects st1 !! 1 = Some (Some c)
    ∧ shape c = [2; 2]
    ∧ ravel st1 c = [0; 0; 0; 0]%Z
    ∧ eqs_array_origin 1 st1 = (Ok 0, st1).
Proof.
  destruct (create_zero_filled matrix_state 0 _ _ [2; 2]
              origin_inv_matrix_state eq_refl eq_refl)
    as (child & st1 & cw & c & H1 & _ & H2 & H3 & H4 & _ & H5 & _ & H6 & _).
  assert (child = 1) as ->.
  { apply (f_equal fst) in H1. simpl in H1. by injection H1 as <-. }
  exists st1, c. split_and!; [exact H1| |exact H4|exact H5|exact H6].
  by rewrite H2, <- H3.
Defined.

Lemma move_samples_from_frame_witness :
  ∃ st', _eqs_array_move_samples_from small_astype 1 0 scenario_pairs 1 4
           (scenario_state 3) = (Ok tt, st')
    ∧ ravel st' (row_major Numpy 0 [3; 2; 3])
      = ravel (scenario_state 3) (row_major Numpy 0 [3; 2; 3])
    ∧ item st' (row_major Numpy 1 [4; 2; 5]) ([2] ++ [1] ++ [3]) = 0%Z
    ∧ item st' (row_major Numpy 1 [4; 2; 5]) ([3] ++ [1] ++ [4]) = 0%Z.
Proof.
  destruct (_eqs_array_move_samples_from small_astype 1 0 scenario_pairs 1 4
              (scenario_state 3)) as [r st'] eqn:Hrun.
  assert (r = Ok tt) as ->.
  { apply (f_equal fst) in Hrun. vm_compute in Hrun. congruence. }
  exists st'. split; [reflexivity|].
  destruct (move_samples_from_frame small_astype (scenario_state 3) 1 0 _ _ _ _
              scenario_pairs 1 4 st' eq_refl eq_refl eq_refl eq_refl Hrun)
    as (_ & _ & Hsrc & Hdst).
  split; [apply Hsrc; simpl; lia|].
  assert (NoDup (cells (row_major Numpy 1 [4; 2; 5]))) as Hnd.
  { rewrite cells_c_contiguous by done. apply NoDup_seq. }
  split.
  - etrans; [apply (Hdst Hnd 4 [2; 5] 2 [1] 3 eq_refl)|reflexivity].
    + repeat constructor.
    + left. intros s Hs. unfold scenario_pairs in Hs.
      rewrite !elem_of_cons, elem_of_nil in Hs.
      destruct Hs as [->|[->|[]]]; by vm_compute.
  - etrans; [apply (Hdst Hnd 4 [2; 5] 3 [1] 4 eq_refl)|reflexivity].
    + repeat constructor.
    + right. right. lia.
Defined.

(** C2, as stated, fails when the source shares its buffer with the
    destination. With [x] of shape (4, 2) as destination and its view
    [x[2:4]] as source, moving source row 0 to destination row 3 succeeds
    and changes row 1 of the source. *)
Lemma move_samples_from_changes_overlapping_source :
  ∃ st', _eqs_array_move_samples_from small_astype 0 1 [ {| input := 0; output := 3 |} ] 0 2
           overlap_state = (Ok tt, st')
    ∧ ravel overlap_state overlap_view = [5; 6; 7; 8]%Z
    ∧ ravel st' overlap_view = [5; 6; 5; 6]%Z.
Proof. eexists. split; [vm_compute; reflexivity|]. by split. Qed.

(** The scenario with a source of shape (3, 2, 3): the call succeeds,
    [dst[1, :, 1:4]] is 0 and [dst[3, :, 1:4]] is 2, the rest is zero. *)
Lemma move_samples_from_rows_witness :
  ∃ st',
    _eqs_array_move_samples_from small_astype 1 0 scenario_pairs 1 4
      (scenario_state 3) = (Ok tt, st')
    ∧ (∀ m j, m ∈ indices [2] → j < 3 →
         item st' (row_major Numpy 1 [4; 2; 5]) (1 :: m ++ [1 + j])
         = item (scenario_state 3) (row_major Numpy 0 [3; 2; 3]) (0 :: m ++ [j]))
    ∧ (∀ m j, m ∈ indices [2] → j < 3 →
         item st' (row_major Numpy 1 [4; 2; 5]) (3 :: m ++ [1 + j])
         = item (scenario_state 3) (row_major Numpy 0 [3; 2; 3]) (2 :: m ++ [j]))
    ∧ ravel st' (row_major Numpy 1 [4; 2; 5])
      = [0; 0; 0; 0; 0;  0; 0; 0; 0; 0;   0; 0; 0; 0; 0;  0; 0; 0; 0; 0;
         0; 0; 0; 0; 0;  0; 0; 0; 0; 0;   0; 2; 2; 2; 0;  0; 2; 2; 2; 0]%Z.
Proof.
  destruct (move_samples_from_rows small_astype (scenario_state 3) 1 0 _ _ _ _
              scenario_pairs 1 4 4 3 [2] 5 [0; 2] [1; 3]
              eq_refl eq_refl eq_refl eq_refl eq_refl eq_refl eq_refl eq_refl)
    as (st' & Hrun & Hrows).
  - lia.
  - reflexivity.
  - reflexivity.
  - apply view_ok_scenario_destination.
  - exists st'. split; [exact Hrun|]. split_and!.
    + intros m j Hm Hj. apply (Hrows 0 0 1 eq_refl eq_refl); [|done..].
      intros [|[|k']] ro' Hlt; [lia|by intros [= <-]|done].
    + intros m j Hm Hj. apply (Hrows 1 2 3 eq_refl eq_refl); [|done..].
      intros [|[|k']] ro' Hlt; [lia|lia|done].
    + vm_compute in Hrun. by injection Hrun as <-.
Defined.

(** C1, as stated, fails on its own scenario: with a source of shape
    (3, 2, 5) the value [src[[0, 2], ..., :]] has a last axis of 5 entries
    and cannot be assigned to the 3 entries [1:4]; the call fails with a
    [ValueError] and writes nothing. *)
Lemma move_samples_from_scenario_rejected :
  _eqs_array_move_samples_from small_astype 1 0 scenario_pairs 1 4 (scenario_state 5)
  = (Raise ValueError, scenario_state 5).
Proof. vm_compute. reflexivity. Qed.

Lemma move_samples_from_origin_unchecked_witness :
  (∃ st', _eqs_array_move_samples_from small_astype 1 0
            [ {| input := 1; output := 0 |} ] 0 2 mixed_state = (Ok tt, st')
      ∧ ∀ m j, m ∈ indices [] → j < 2 →
          item st' (row_major Numpy 1 [2; 2]) (0 :: m ++ [0 + j])
          = item mixed_state (row_major (Torch Cpu) 0 [2; 2]) (1 :: m ++ [j]))
  ∧ _eqs_array_move_samples_from small_astype 0 1
      [ {| input := 1; output := 0 |} ] 0 2 mixed_state
    = (Raise TypeError, mixed_state).
Proof.
  split.
  - destruct (move_samples_from_origin_unchecked small_astype mixed_state 1 0
                _ _ _ _ [ {| input := 1; output := 0 |} ] 0 2
                eq_refl eq_refl eq_refl eq_refl) as (_ & _ & _ & Hmove).
    { simpl. lia. }
    destruct (Hmove eq_refl eq_refl 2 2 [] 2 [1] [0] eq_refl eq_refl)
      as (st' & Hrun & Hrows).
    + lia.
    + reflexivity.
    + reflexivity.
    + apply view_ok_mixed_destination.
    + exists st'. split; [exact Hrun|]. intros m j Hm Hj.
      apply (Hrows 0 1 0 eq_refl eq_refl); [|done..].
      intros [|k'] ro' Hlt; [lia|done].
  - destruct (move_samples_from_origin_unchecked small_astype mixed_state 0 1
                _ _ _ _ [ {| input := 1; output := 0 |} ] 0 2
                eq_refl eq_refl eq_refl eq_refl) as (_ & _ & Hfail & _).
    { simpl. lia. }
    destruct (Hfail (take mixed_state (row_major Numpy 1 [2; 2]) [1] [2])
                2 [] 2 eq_refl eq_refl) as (H & _ & _).
    exact (H Cpu eq_refl eq_refl).
Defined.

(** C3, as stated, fails: with a numpy destination and a tensor in host
    memory as source, arrays of origins 0 and 1, the call raises nothing
    and writes source row 1 into destination row 0. *)
Lemma move_samples_from_across_origins :
  (eqs_array_origin 1 mixed_state).1 = Ok 0
  ∧ (eqs_array_origin 0 mixed_state).1 = Ok 1
  ∧ ∃ st', _eqs_array_move_samples_from small_astype 1 0 [ {| input := 1; output := 0 |} ] 0 2
             mixed_state = (Ok tt, st')
      ∧ ravel mixed_state (row_major Numpy 1 [2; 2]) = [0; 0; 0; 0]%Z
      ∧ ravel st' (row_major Numpy 1 [2; 2]) = [3; 4; 0; 0]%Z.
Proof.
  split; [done|]. split; [done|].
  eexists. split; [vm_compute; reflexivity|]. by split.
Qed.

Lemma cached_shape_consistent_witness :
  shape_inv (exec small_astype no_view (CallSwapAxes 0 0 1) matrix_state).2
  ∧ shape_inv (exec small_astype no_view (CallReshape 0 [3; 2]) matrix_state).2
  ∧ _eqs_array_shape 0 matrix_state = (Ok ([2; 3], 2), matrix_state)
  ∧ ∃ w, objects (ArrayWrapper_init (Array (row_major Numpy 0 [2; 3]))
                    matrix_state).2 !! 1 = Some w
      ∧ _shape w = [2; 3].
Proof.
  destruct (cached_shape_consistent small_astype no_view) as (Hinit & Hexec & _ & Hshape).
  split_and!.
  - apply Hexec, shape_inv_matrix_state.
  - apply Hexec, shape_inv_matrix_state.
  - apply (Hshape matrix_state 0 _ _ shape_inv_matrix_state eq_refl eq_refl).
  - destruct (Hinit matrix_state (row_major Numpy 0 [2; 3]) 1 _ eq_refl)
      as (w & Hw & _ & Hsh).
    exists w. split; [exact Hw|exact Hsh].
Defined.

Lemma copy_independent_witness :
  ∃ st1 ac,
    _eqs_array_copy 0 matrix_state = (Ok 1, st1)
    ∧ array <$> objects st1 !! 1 = Some (Some ac)
    ∧ ravel st1 ac = [1; 2; 3; 4; 5; 6]%Z
    ∧ ravel (run small_astype no_view
               [ CallReshape 1 [3; 2];
                 CallMoveSamplesFrom 1 1 [ {| input := 0; output := 2 |} ] 0 2 ]
               st1) (row_major Numpy 0 [2; 3])
      = [1; 2; 3; 4; 5; 6]%Z.
Proof.
  destruct (copy_independent small_astype no_view matrix_state 0 _ _
              origin_inv_matrix_state eq_refl eq_refl)
    as (c & st1 & cw & ac & H1 & _ & H2 & H3 & _ & _ & _ & H4 & _ & _ & _ & _
        & H5 & _).
  { simpl. lia. }
  assert (c = 1) as ->.
  { apply (f_equal fst) in H1. simpl in H1. by injection H1 as <-. }
  exists st1, ac. split_and!; [exact H1| |exact H4|].
  - by rewrite H2, <- H3.
  - destruct (H5 [ Reshape [3; 2];
                   MoveSamplesFrom 1 [ {| input := 0; output := 2 |} ] 0 2 ])
      as (_ & _ & H6).
    exact H6.
Defined.


Lemma use_after_destroy_witness :
  ∃ st1, _eqs_array_destroy 0 matrix_state = (Ok tt, st1)
    ∧ _eqs_array_shape 0 st1 = (Ok ([2; 3], 2), st1)
    ∧ _eqs_array_reshape no_view 0 [3; 2] st1 = (Raise AttributeError, st1)
    ∧ _eqs_array_copy 0 st1 = (Raise UnboundLocalError, st1).
Proof.
  eexists. split; [reflexivity|].
  destruct (use_after_destroy small_astype no_view matrix_state 0 _ _ eq_refl eq_refl)
    as (H1 & _ & H2 & _ & _ & H3 & _).
  split_and!; [exact H1|exact (H2 [3; 2])|exact H3].
Defined.

Lemma swap_axes_transposes_witness :
  ∃ st1 a1,
    _eqs_array_swap_axes 0 0 1 matrix_state = (Ok tt, st1)
    ∧ shape a1 = [3; 2]
    ∧ item st1 a1 [2; 1] = item matrix_state (row_major Numpy 0 [2; 3]) [1; 2].
Proof.
  destruct (swap_axes_transposes matrix_state 0 _ _ 0 1 eq_refl eq_refl eq_refl)
    as (st1 & w1 & a1 & H1 & _ & _ & H2 & _ & H3).
  - unfold ndim. simpl. lia.
  - unfold ndim. simpl. lia.
  - exists st1, a1. split_and!; [exact H1|exact H2|exact (H3 [1; 2] eq_refl)].
Defined.

Lemma callbacks_keep_registry_witness :
  globals (run small_astype no_view [CallCreate 0 [2; 2]; CallCopy 1; CallReshape 2 [4]]
             matrix_state)
  = globals matrix_state.
Proof.
  apply (callbacks_keep_registry small_astype no_view
           [CallCreate 0 [2; 2]; CallCopy 1; CallReshape 2 [4]] matrix_state).
  - apply bridge_inv_matrix_state.
  - reflexivity.
Defined.

Lemma wrap_registers_lazily_witness :
  ∃ st', ArrayWrapper_init (Array (row_major Numpy 0 [2; 3])) (initial true)
         = (Ok 0, st')
    ∧ cached_origin st' (Torch Cpu) = None
    ∧ registered_origins st' = [__name__ +:+ ".numpy"].
Proof.
  eexists. split; [reflexivity|].
  destruct (wrap_registers_lazily (initial true) (row_major Numpy 0 [2; 3]) 0 _
              eq_refl) as (_ & _ & H1 & _ & H2).
  split.
  - by rewrite (H1 (Torch Cpu)).
  - destruct H2 as [H2|(_ & _ & H2)]; [|exact H2]. discriminate H2.
Defined.

Lemma origins_discriminate_libraries_witness :
  array_origin (wrapper_of (row_major (Torch Cpu) 0 [2; 2]) 1)
  = array_origin (wrapper_of (row_major Numpy 1 [2; 2]) 0)
  ↔ origin_name (Torch Cpu) = origin_name Numpy.
Proof.
  apply (origins_discriminate_libraries mixed_state 0 1
           (wrapper_of (row_major (Torch Cpu) 0 [2; 2]) 1)
           (wrapper_of (row_major Numpy 1 [2; 2]) 0)
           (row_major (Torch Cpu) 0 [2; 2]) (row_major Numpy 1 [2; 2])).
  - intros [|[|p]] w a; [by intros [= <-] [= <-]..|done].
  - intros [|dev] o; by intros [= <-].
  - reflexivity.
  - reflexivity.
  - reflexivity.
  - reflexivity.
Defined.

Lemma to_python_object_round_trip_witness :
  eqs_array_to_python_object (eqs_array 0) matrix_state
  = (Returned (wrapper_of (row_major Numpy 0 [2; 3]) 0), matrix_state).
Proof.
  destruct to_python_object_round_trip as [_ H].
  apply (H matrix_state 0 _ _ origin_inv_matrix_state eq_refl eq_refl).
Defined.

Lemma to_python_object_rejects_foreign_witness :
  eqs_array_to_python_object {| ptr := 7; origin := λ _, mret 2 |}
    (set_torch_origin 1
       [__name__ +:+ ".numpy"; __name__ +:+ ".torch"; "rust.ndarray"]
       matrix_state)
  = (Raised ValueError,
     set_torch_origin 1
       [__name__ +:+ ".numpy"; __name__ +:+ ".torch"; "rust.ndarray"]
       matrix_state).
Proof.
  apply (to_python_object_rejects_foreign _ _ 2 "rust.ndarray").
  - intros [|dev] o; by intros [= <-].
  - reflexivity.
  - reflexivity.
  - done.
  - done.
Defined.

Lemma data_origin_name_round_trip_witness :
  data_origin_name 1 mixed_state = Some "equistore.data.torch".
Proof.
  destruct (data_origin_name_round_trip mixed_state 0
              (wrapper_of (row_major (Torch Cpu) 0 [2; 2]) 1)
              (row_major (Torch Cpu) 0 [2; 2])) as [_ H];
    [| |reflexivity|reflexivity|exact H].
  - intros [|[|p]] w a; [by intros [= <-] [= <-]..|done].
  - intros [|dev] o; by intros [= <-].
Defined.

Lemma move_samples_from_nothing_witness :
  (_eqs_array_move_samples_from small_astype 1 0 [] 1 4 (scenario_state 3)).2
  = scenario_state 3
  ∧ (_eqs_array_move_samples_from small_astype 1 0 scenario_pairs 4 4 (scenario_state 0)).2
    = scenario_state 0.
Proof.
  split.
  - apply (move_samples_from_nothing small_astype). by left.
  - apply (move_samples_from_nothing small_astype). right. lia.
Defined.

Lemma move_samples_from_clips_range_witness :
  _eqs_array_move_samples_from small_astype 1 0 scenario_pairs 2 9 (scenario_state 3)
  = _eqs_array_move_samples_from small_astype 1 0 scenario_pairs 2 5 (scenario_state 3).
Proof.
  apply (move_samples_from_clips_range small_astype (scenario_state 3) 1 0 _ _
           scenario_pairs 2 9 4 [2] 5 eq_refl eq_refl eq_refl).
  lia.
Defined.

Lemma move_samples_from_row_bounds_witness :
  _eqs_array_move_samples_from small_astype 1 0
    [ {| input := 3; output := 0 |} ] 1 4 (scenario_state 3)
  = (Raise IndexError, scenario_state 3)
  ∧ ∃ e, _eqs_array_move_samples_from small_astype 1 0
           [ {| input := 0; output := 2 ^ 64 - 5 |} ] 1 4 (scenario_state 3)
         = (Raise e, scenario_state 3).
Proof.
  split.
  - destruct (move_samples_from_row_bounds small_astype (scenario_state 3) 1 0
                _ _ _ _ [ {| input := 3; output := 0 |} ] 1 4 4 [2] 5 3 [2; 3]
                eq_refl eq_refl eq_refl eq_refl eq_refl eq_refl eq_refl
                eq_refl) as [H _].
    { simpl. lia. }
    apply H. apply Exists_cons_hd. vm_compute. left. by intros [=].
  - destruct (move_samples_from_row_bounds small_astype (scenario_state 3) 1 0
                _ _ _ _ [ {| input := 0; output := 2 ^ 64 - 5 |} ] 1 4
                4 [2] 5 3 [2; 3]
                eq_refl eq_refl eq_refl eq_refl eq_refl eq_refl eq_refl
                eq_refl) as [_ H].
    { simpl. lia. }
    apply H; [simpl; lia|lia|lia|].
    apply Exists_cons_hd. vm_compute. right. reflexivity.
Defined.

(** A destination row of [2^64 - 1] is numpy's index [-1]: the pair
    (2, 2^64 - 1) writes source row 2 into the last row of the
    destination of the scenario. *)
Lemma move_samples_from_row_from_the_end :
  ∃ st', _eqs_array_move_samples_from small_astype 1 0
           [ {| input := 2; output := 2 ^ 64 - 1 |} ] 1 4 (scenario_state 3)
         = (Ok tt, st')
    ∧ ravel st' (row_major Numpy 1 [4; 2; 5])
      = [0; 0; 0; 0; 0;  0; 0; 0; 0; 0;   0; 0; 0; 0; 0;  0; 0; 0; 0; 0;
         0; 0; 0; 0; 0;  0; 0; 0; 0; 0;   0; 2; 2; 2; 0;  0; 2; 2; 2; 0]%Z.
Proof. eexists. split; [vm_compute; reflexivity|]. reflexivity. Qed.

Lemma reshape_composes_witness :
  ∃ st1 st2 a2,
    _eqs_array_reshape no_view 0 [6] matrix_state = (Ok tt, st1)
    ∧ _eqs_array_reshape no_view 0 [2; 3] st1 = (Ok tt, st2)
    ∧ shape a2 = [2; 3]
    ∧ ravel st2 a2 = [1; 2; 3; 4; 5; 6]%Z.
Proof.
  destruct (reshape_composes no_view matrix_state 0 _ _ [6] [2; 3]
              no_view_sound eq_refl eq_refl eq_refl eq_refl)
    as (st1 & st2 & w2 & a2 & H1 & H2 & _ & _ & H3 & _ & H4).
  exists st1, st2, a2. split_and!; [exact H1|exact H2|exact H3|exact H4].
Defined.

Lemma move_samples_from_broadcasts_witness :
  ∃ st',
    _eqs_array_move_samples_from small_astype 1 0 scenario_pairs 1 4
      (scenario_state 1) = (Ok tt, st')
    ∧ ∀ m j, m ∈ indices [2] → j < 3 →
        item st' (row_major Numpy 1 [4; 2; 5]) (3 :: m ++ [1 + j])
        = item (scenario_state 1) (row_major Numpy 0 [3; 2; 1]) (2 :: m ++ [0]).
Proof.
  destruct (move_samples_from_broadcasts small_astype (scenario_state 1) 1 0
              _ _ _ _ scenario_pairs 1 4 4 3 [2] 5 [0; 2] [1; 3]
              eq_refl eq_refl eq_refl eq_refl eq_refl eq_refl eq_refl eq_refl)
    as (st' & Hrun & Hrows).
  - lia.
  - reflexivity.
  - reflexivity.
  - apply view_ok_scenario_destination.
  - exists st'. split; [exact Hrun|].
    intros m j Hm Hj. apply (Hrows 1 2 3 eq_refl eq_refl); [|done..].
    intros [|[|k']] ro' Hlt; [lia|lia|done].
Defined.

Lemma origins_stay_consistent_witness :
  origin_inv (exec small_astype no_view (CallCopy 0) matrix_state).2
  ∧ registry_inv (exec small_astype no_view (CallCopy 0) matrix_state).2.
Proof.
  destruct (origins_stay_consistent small_astype no_view) as [H _].
  apply H.
  - apply bridge_inv_matrix_state.
  - intros [|dev] o; by intros [= <-].
Defined.
